(** * go-ext-wasm: instance lifecycle, import materialisation, export bridge

    A shallow embedding of [wasmer/instance.go] and
    [wasmer/instance_helpers.go].  The Go code drives a native engine through
    cgo primitives ([cWasmer...]); here the engine is an explicit [World]
    (live handles, the Go heap of [*Imports] objects, the last-error slot and
    a trace of the primitives invoked) threaded through a small state monad
    with panics.  What the engine answers for a given module is supplied by
    an [Engine] record of oracles. *)

From Stdlib Require Import ZArith Ascii String Decimal DecimalString.
From stdpp Require Import gmap strings list fin_maps.

Open Scope string_scope.

(* ===================================================================== *)
(** ** Formatting: the fragment of [fmt.Sprintf] the package uses        *)
(* ===================================================================== *)

Module Fmt.

(** The line feed of the Go literal ["...module:\n    %s"]. *)
Definition LF : string := String (Ascii.ascii_of_nat 10) "".

(** [%d] of a non-negative count. *)
Definition dec (n : nat) : string := NilZero.string_of_uint (Nat.to_uint n).

(** What [fmt.Sprintf] appends when operands are left over. *)
Fixpoint extra (args : list string) : string :=
  match args with
  | [] => ""
  | [a] => "string=" ++ a
  | a :: rest => "string=" ++ a ++ ", " ++ extra rest
  end.

(** [fmt.Sprintf format args...] with string operands; the verbs that occur
    in this package are [%s] and the escape [%%]. *)
Fixpoint Sprintf (format : string) (args : list string) : string :=
  match format with
  | "" =>
      match args with
      | [] => ""
      | _ => "%!(EXTRA " ++ extra args ++ ")"
      end
  | String "%"%char (String "s"%char rest) =>
      match args with
      | a :: args' => a ++ Sprintf rest args'
      | [] => "%!s(MISSING)" ++ Sprintf rest []
      end
  | String "%"%char (String "%"%char rest) => String "%"%char (Sprintf rest args)
  | String c rest => String c (Sprintf rest args)
  end.

(** No character of [s] starts a verb. *)
Fixpoint plain (s : string) : bool :=
  match s with
  | "" => true
  | String c rest => negb (Ascii.eqb c "%") && plain rest
  end.

(** [s] occurs in [t]. *)
Definition contains (t s : string) : Prop := exists a b, t = a ++ s ++ b.

End Fmt.

(* ===================================================================== *)
(** ** Errors ([instance.go], lines 11-49)                               *)
(* ===================================================================== *)

(** Go's [error] interface, with the three dynamic types the package
    returns: [*InstanceError], [*ExportedFunctionError] and the result of
    [errors.New]. *)
Inductive error : Type :=
| InstanceError (message : string)
| ExportedFunctionError (functionName : string) (message : string)
| errorString (s : string).

Definition NewInstanceError (message : string) : error := InstanceError message.

Definition NewExportedFunctionError (functionName message : string) : error :=
  ExportedFunctionError functionName message.

(** The [Error()] methods. *)
Definition Error (e : error) : string :=
  match e with
  | InstanceError message => message
  | ExportedFunctionError functionName message => Fmt.Sprintf message [functionName]
  | errorString s => s
  end.

(* ===================================================================== *)
(** ** Engine-side data                                                  *)
(* ===================================================================== *)

(** Foreign handles are opaque numbers handed out by the engine. *)
Definition handle := nat.

Inductive cWasmerResultT := cWasmerOk | cWasmerError.

Inductive cWasmerValueTag := cWasmI32 | cWasmI64 | cWasmF32 | cWasmF64.

(** A WebAssembly value; floats are carried as their bit patterns.
    [Void] is the value [void()] returns. *)
Inductive Value :=
| I32 (v : Z) | I64 (v : Z) | F32 (bits : Z) | F64 (bits : Z) | Void.

Definition void : Value := Void.

Inductive cWasmerImportExportKind := cWasmFunction | cWasmGlobal | cWasmMemory | cWasmTable.

(** What the engine knows about an exported function: the answers of the
    signature queries ([None] when the query fails). *)
Record cWasmerExportFuncT := {
  func_params : option (list cWasmerValueTag);
  func_returns_arity : option nat
}.

(** One entry of the export table.  [export_memory] is the out-parameter of
    [cWasmerExportToMemory], [None] when it does not answer [cWasmerOk]. *)
Record cWasmerExportT := {
  export_kind : cWasmerImportExportKind;
  export_name : string;
  export_func : cWasmerExportFuncT;
  export_memory : option handle
}.

(** An import function as the engine holds it after [cWasmerImportFuncNew]. *)
Record cWasmerImportFuncT := {
  if_cgoPointer : nat;
  if_params : list cWasmerValueTag;
  if_returns : list cWasmerValueTag
}.

(** The flat record [cNewWasmerImportT] builds; the zero value is what
    [make] fills the slice with. *)
Record cWasmerImportT := {
  module_name : string;
  import_name : string;
  import_func : option handle
}.

Definition cNewWasmerImportT (moduleName importName : string) (function : option handle)
  : cWasmerImportT :=
  {| module_name := moduleName; import_name := importName; import_func := function |}.

Definition zeroImportT : cWasmerImportT :=
  {| module_name := ""; import_name := ""; import_func := None |}.

(** An import as the engine resolves it at instantiation. *)
Definition ResolvedImport : Type := string * string * option cWasmerImportFuncT.

Inductive InstantiateResult :=
| InstantiateOk (exports : list cWasmerExportT)
| InstantiateFailed (detail : option string).

(** The engine's answers.  [metering] is [Some (gasLimit, opcode_costs)] for
    the metered primitives. *)
Record Engine := {
  instantiate :
    list Byte.byte -> list ResolvedImport -> option (Z * option (list Z)) -> InstantiateResult;
  new_import_object : list ResolvedImport -> option (option string);
  call :
    list cWasmerExportT -> string -> list Value -> Z -> cWasmerResultT * list Value * Z
}.

(* ===================================================================== *)
(** ** Host-side data ([instance.go], lines 51-82)                       *)
(* ===================================================================== *)

(** Addresses of [*Imports] objects on the Go heap; [None] is [nil]. *)
Definition addr := nat.

(** The fields of [ImportFunction] that [generateWasmerImports] reads and
    writes. *)
Record ImportFunction := {
  cgoPointer : nat;
  importedFunctionPointer : option handle;
  wasmInputs : list cWasmerValueTag;
  wasmOutputs : list cWasmerValueTag;
  namespace : string
}.

(** Modelled from the spec: the declaration of [Imports] is absent; section 3
    gives it as a mapping from namespace to a mapping from import name to
    [ImportFunction].  Whether the inner map holds the structs themselves or
    pointers to them is not given: see [elements_are_pointers] below. *)
Record Imports := {
  imports : gmap string (gmap string ImportFunction)
}.

(** The closure built by [createExportedFunctionWrapper], as the values it
    captures. *)
Record ExportedFunction := {
  wrapper_instance : option handle;
  wrapper_name : string;
  wrapper_input_signatures : list cWasmerValueTag;
  wrapper_inputs_arity : nat;
  wrapper_outputs_arity : nat
}.

(** Modelled from the spec: [Memory] and [newMemory] are absent; the exported
    memory wraps the engine's memory handle. *)
Record MemoryT := { memory : option handle }.

Definition newMemory (wasmMemory : option handle) : MemoryT := {| memory := wasmMemory |}.

(** The zero value [var memory Memory]. *)
Definition zeroMemory : MemoryT := {| memory := None |}.

Record Instance := {
  instance : option handle;
  instance_imports : option addr;
  Exports : option (gmap string ExportedFunction);
  Memory : option MemoryT
}.

Record ImportObject := {
  io_imports : option addr;
  c_import_object : option handle
}.

Definition emptyInstance : Instance :=
  {| instance := None; instance_imports := None; Exports := None; Memory := None |}.

(** [OPCODE_COUNT] and the pointer to the cost table. *)
Definition OPCODE_COUNT : nat := 410.
Definition OpcodeCosts : Type := option (list Z).

(* ===================================================================== *)
(** ** The world: engine state, Go heap, trace                           *)
(* ===================================================================== *)

(** The primitives whose invocation is recorded. *)
Inductive Event :=
| EvImportFuncNew (h : handle)
| EvImportFuncDestroy (h : handle)
| EvInstantiate (status : cWasmerResultT)
| EvNewImportObject (status : cWasmerResultT)
| EvInstanceExports (h : handle)
| EvExportsLen
| EvExportsGet (nth : nat)
| EvExportsDestroy
| EvInstanceDestroy (h : handle)
| EvFuncCall (h : handle) (name : string) (inputs : list Value)
| EvGetPointsUsed (h : handle)
| EvSetPointsUsed (h : handle) (points : Z)
| EvContextDataSet (h : handle) (data : nat).

Record InstanceState := {
  inst_exports : list cWasmerExportT;
  inst_metering : option (Z * OpcodeCosts);
  inst_points : Z;
  inst_context : nat
}.

(** The declaration of [Imports] being absent, the source does not show
    whether its inner map holds [ImportFunction] structs or pointers to them.
    [elements_are_pointers] says which, for the whole run: an assignment to
    a field of the [range] variable reaches the registry when the map holds
    pointers, and only the loop's own copy when it holds structs. *)
Record World := {
  heap : gmap addr Imports;
  next_handle : handle;
  funcs : gmap handle cWasmerImportFuncT;
  import_objects : gmap handle (list ResolvedImport);
  instances : gmap handle InstanceState;
  last_error : option string;
  trace : list Event;   (* newest first *)
  elements_are_pointers : bool
}.

Definition set_heap (f : gmap addr Imports -> gmap addr Imports) (w : World) : World :=
  {| heap := f (heap w); next_handle := next_handle w; funcs := funcs w;
     import_objects := import_objects w; instances := instances w;
     last_error := last_error w; trace := trace w;
     elements_are_pointers := elements_are_pointers w |}.

Definition set_next_handle (n : handle) (w : World) : World :=
  {| heap := heap w; next_handle := n; funcs := funcs w;
     import_objects := import_objects w; instances := instances w;
     last_error := last_error w; trace := trace w;
     elements_are_pointers := elements_are_pointers w |}.

Definition set_funcs (f : gmap handle cWasmerImportFuncT -> gmap handle cWasmerImportFuncT)
  (w : World) : World :=
  {| heap := heap w; next_handle := next_handle w; funcs := f (funcs w);
     import_objects := import_objects w; instances := instances w;
     last_error := last_error w; trace := trace w;
     elements_are_pointers := elements_are_pointers w |}.

Definition set_import_objects
  (f : gmap handle (list ResolvedImport) -> gmap handle (list ResolvedImport))
  (w : World) : World :=
  {| heap := heap w; next_handle := next_handle w; funcs := funcs w;
     import_objects := f (import_objects w); instances := instances w;
     last_error := last_error w; trace := trace w;
     elements_are_pointers := elements_are_pointers w |}.

Definition set_instances (f : gmap handle InstanceState -> gmap handle InstanceState)
  (w : World) : World :=
  {| heap := heap w; next_handle := next_handle w; funcs := funcs w;
     import_objects := import_objects w; instances := f (instances w);
     last_error := last_error w; trace := trace w;
     elements_are_pointers := elements_are_pointers w |}.

Definition set_last_error (e : option string) (w : World) : World :=
  {| heap := heap w; next_handle := next_handle w; funcs := funcs w;
     import_objects := import_objects w; instances := instances w;
     last_error := e; trace := trace w;
     elements_are_pointers := elements_are_pointers w |}.

Definition log (ev : Event) (w : World) : World :=
  {| heap := heap w; next_handle := next_handle w; funcs := funcs w;
     import_objects := import_objects w; instances := instances w;
     last_error := last_error w; trace := ev :: trace w;
     elements_are_pointers := elements_are_pointers w |}.

Definition set_elements_are_pointers (b : bool) (w : World) : World :=
  {| heap := heap w; next_handle := next_handle w; funcs := funcs w;
     import_objects := import_objects w; instances := instances w;
     last_error := last_error w; trace := trace w;
     elements_are_pointers := b |}.

Definition emptyWorld : World :=
  {| heap := ∅; next_handle := 0; funcs := ∅; import_objects := ∅;
     instances := ∅; last_error := None; trace := [];
     elements_are_pointers := false |}.

(** A computation returns a value in a new world or panics (a Go run-time
    panic, or a fault inside the engine). *)
Inductive outcome (A : Type) :=
| Ret (a : A) (w : World)
| Panic (reason : string) (w : World).
Arguments Ret {A} a w.
Arguments Panic {A} reason w.

Definition M (A : Type) : Type := World -> outcome A.

Definition ret {A} (a : A) : M A := fun w => Ret a w.

Definition bind {A B} (m : M A) (k : A -> M B) : M B :=
  fun w => match m w with
           | Ret a w' => k a w'
           | Panic reason w' => Panic reason w'
           end.

Definition panic {A} (reason : string) : M A := fun w => Panic reason w.

Definition gets {A} (f : World -> A) : M A := fun w => Ret (f w) w.

Definition modify (f : World -> World) : M unit := fun w => Ret tt (f w).

Notation "'let*' p ':=' m 'in' k" := (bind m (fun p => k))
  (at level 10, p pattern, m at level 100, k at level 200).

(** The events a computation added, oldest first. *)
Definition events_between (before after : World) : list Event :=
  rev (take (length (trace after) - length (trace before)) (trace after)).

(** [defer d] around [body]: [d] runs when [body] returns, and also when it
    panics, after which the panic goes on. *)
Definition defer {A} (d : M unit) (body : M A) : M A :=
  fun w => match body w with
           | Ret a w' =>
               match d w' with
               | Ret _ w'' => Ret a w''
               | Panic reason w'' => Panic reason w''
               end
           | Panic reason w' =>
               match d w' with
               | Ret _ w'' => Panic reason w''
               | Panic _ w'' => Panic reason w''
               end
           end.

(** [&bytes[0]]: indexing an empty slice panics. *)
Definition index0 (bytes : list Byte.byte) : M unit :=
  match bytes with
  | [] => panic "runtime error: index out of range [0] with length 0"
  | _ :: _ => ret tt
  end.

(** Dereferencing an [*Imports]. *)
Definition deref (p : option addr) : M (addr * Imports) :=
  fun w => match p with
           | None => Panic "runtime error: invalid memory address or nil pointer dereference" w
           | Some a =>
               match heap w !! a with
               | Some i => Ret (a, i) w
               | None => Panic "runtime error: invalid memory address or nil pointer dereference" w
               end
           end.

(* ===================================================================== *)
(** ** The cgo primitives                                                *)
(* ===================================================================== *)

(** What the engine finds behind the flat import records. *)
Definition resolve (w : World) (flat : list cWasmerImportT) : list ResolvedImport :=
  (fun r => (module_name r, import_name r, import_func r ≫= fun h => funcs w !! h)) <$> flat.

(** A pointer to the first of [n] records. *)
Definition records (p : option (list cWasmerImportT)) (n : nat) : list cWasmerImportT :=
  take n (default [] p).

Definition cWasmerImportFuncNew (cgo : nat) (params returns : list cWasmerValueTag)
  : M (option handle) :=
  fun w =>
    let h := next_handle w in
    Ret (Some h)
      (log (EvImportFuncNew h)
         (set_funcs (insert h {| if_cgoPointer := cgo; if_params := params; if_returns := returns |})
            (set_next_handle (S h) w))).

Definition cWasmerImportFuncDestroy (h : handle) : M unit :=
  modify (fun w => log (EvImportFuncDestroy h) (set_funcs (delete h) w)).

Section WithEngine.

Variable E : Engine.

(** Shared by the three instantiate primitives: ask the engine; on success
    a fresh instance handle is live, on failure the last-error slot holds
    the detail (if any) and the out-parameter stays [nil]. *)
Definition engine_instantiate (bytes : list Byte.byte) (resolved : list ResolvedImport)
    (metering : option (Z * OpcodeCosts)) : M (cWasmerResultT * option handle) :=
  fun w =>
    match instantiate E bytes resolved metering with
    | InstantiateOk exports =>
        let h := next_handle w in
        Ret (cWasmerOk, Some h)
          (log (EvInstantiate cWasmerOk)
             (set_instances
                (insert h {| inst_exports := exports; inst_metering := metering;
                             inst_points := 0; inst_context := 0 |})
                (set_next_handle (S h) w)))
    | InstantiateFailed detail =>
        Ret (cWasmerError, None)
          (log (EvInstantiate cWasmerError) (set_last_error detail w))
    end.

Definition cWasmerInstantiate (bytes : list Byte.byte)
    (wasmImportsCPointer : option (list cWasmerImportT)) (numberOfImports : nat)
  : M (cWasmerResultT * option handle) :=
  fun w => engine_instantiate bytes (resolve w (records wasmImportsCPointer numberOfImports)) None w.

Definition cWasmerInstantiateWithMetering (bytes : list Byte.byte)
    (wasmImportsCPointer : option (list cWasmerImportT)) (numberOfImports : nat)
    (gasLimit : Z) (opcode_costs : OpcodeCosts)
  : M (cWasmerResultT * option handle) :=
  fun w => engine_instantiate bytes (resolve w (records wasmImportsCPointer numberOfImports))
             (Some (gasLimit, opcode_costs)) w.

Definition cWasmerInstantiateWithMeteringAndImportObject (bytes : list Byte.byte)
    (import_object : option handle) (gasLimit : Z) (opcode_costs : OpcodeCosts)
  : M (cWasmerResultT * option handle) :=
  fun w =>
    match import_object ≫= fun o => import_objects w !! o with
    | Some resolved => engine_instantiate bytes resolved (Some (gasLimit, opcode_costs)) w
    | None => Panic "engine fault: invalid import object" w
    end.

Definition cWasmerNewImportObjectFromImports
    (wasmImportsCPointer : option (list cWasmerImportT)) (numberOfImports : nat)
  : M (cWasmerResultT * option handle) :=
  fun w =>
    let resolved := resolve w (records wasmImportsCPointer numberOfImports) in
    match new_import_object E resolved with
    | None =>
        let o := next_handle w in
        Ret (cWasmerOk, Some o)
          (log (EvNewImportObject cWasmerOk)
             (set_import_objects (insert o resolved) (set_next_handle (S o) w)))
    | Some detail =>
        Ret (cWasmerError, None)
          (log (EvNewImportObject cWasmerError) (set_last_error detail w))
    end.

(** Modelled from the spec: [GetLastError] is absent; it retrieves the
    engine's last-error string, or reports that none is available. *)
Definition GetLastError : M (string * option error) :=
  gets (fun w => match last_error w with
                 | Some s => (s, None)
                 | None => ("", Some (errorString "no last error available"))
                 end).

(** The export table of a live instance; the table handle is the table. *)
Definition cWasmerInstanceExports (c_instance : option handle) : M (list cWasmerExportT) :=
  fun w =>
    match c_instance with
    | Some h =>
        match instances w !! h with
        | Some st => Ret (inst_exports st) (log (EvInstanceExports h) w)
        | None => Panic "engine fault: invalid instance" w
        end
    | None => Panic "engine fault: invalid instance" w
    end.

Definition cWasmerExportsDestroy (wasmExports : list cWasmerExportT) : M unit :=
  modify (log EvExportsDestroy).

Definition cWasmerExportsLen (wasmExports : list cWasmerExportT) : M nat :=
  fun w => Ret (length wasmExports) (log EvExportsLen w).

Definition cWasmerExportsGet (wasmExports : list cWasmerExportT) (nth : nat)
  : M cWasmerExportT :=
  fun w =>
    match wasmExports !! nth with
    | Some e => Ret e (log (EvExportsGet nth) w)
    | None => Panic "engine fault: export index out of range" (log (EvExportsGet nth) w)
    end.

Definition cWasmerExportKind (e : cWasmerExportT) : cWasmerImportExportKind := export_kind e.
Definition cWasmerExportName (e : cWasmerExportT) : string := export_name e.
Definition cWasmerExportToFunc (e : cWasmerExportT) : cWasmerExportFuncT := export_func e.

Definition cWasmerExportToMemory (e : cWasmerExportT) : cWasmerResultT * option handle :=
  match export_memory e with
  | Some m => (cWasmerOk, Some m)
  | None => (cWasmerError, None)
  end.

(** Destroying records the call and drops the handle from the live
    instances; what the engine does with a stale handle is not modelled. *)
Definition cWasmerInstanceDestroy (h : handle) : M unit :=
  modify (fun w => log (EvInstanceDestroy h) (set_instances (delete h) w)).

Definition with_instance {A} (c_instance : option handle)
    (k : handle -> InstanceState -> M A) : M A :=
  fun w =>
    match c_instance with
    | Some h =>
        match instances w !! h with
        | Some st => k h st w
        | None => Panic "engine fault: invalid instance" w
        end
    | None => Panic "engine fault: invalid instance" w
    end.

Definition cWasmerInstanceContextDataSet (c_instance : option handle) (data : nat) : M unit :=
  with_instance c_instance (fun h st =>
    modify (fun w =>
      log (EvContextDataSet h data)
        (set_instances
           (insert h {| inst_exports := inst_exports st; inst_metering := inst_metering st;
                        inst_points := inst_points st; inst_context := data |}) w))).

Definition u64 (v : Z) : Z := v mod 2 ^ 64.

(** Modelled from the spec: the engine's points primitives are absent;
    section 3 has [pointsUsed] as a [u64] read and written through the
    engine, kept for the life of one (metered) instance; on an instance
    without metering the write is taken to be a no-op. *)
Definition cWasmerInstanceGetPointsUsed (c_instance : option handle) : M Z :=
  with_instance c_instance (fun h st =>
    fun w => Ret (inst_points st) (log (EvGetPointsUsed h) w)).

Definition cWasmerInstanceSetPointsUsed (c_instance : option handle) (points : Z) : M unit :=
  with_instance c_instance (fun h st =>
    modify (fun w =>
      log (EvSetPointsUsed h points)
        (match inst_metering st with
         | Some _ =>
             set_instances
               (insert h {| inst_exports := inst_exports st; inst_metering := inst_metering st;
                            inst_points := u64 points; inst_context := inst_context st |}) w
         | None => w
         end))).

End WithEngine.

(* ===================================================================== *)
(** ** The import registry (absent declarations)                         *)
(* ===================================================================== *)

(** The registry in the order the two nested [range] loops visit it:
    namespace key, import name, import function.  (Go leaves the order of a
    map [range] unspecified; nothing proved below depends on it.) *)
Definition entries (i : Imports) : list (string * string * ImportFunction) :=
  '(ns, namespacedImports) ← map_to_list (imports i);
  '(importName, importFunction) ← map_to_list namespacedImports;
  [(ns, importName, importFunction)].

(** Modelled from the spec: [NewImports] is absent; host code constructs an
    empty registry, here at the first free heap address. *)
Definition NewImports : M (option addr) :=
  fun w =>
    let a := fresh (dom (heap w)) in
    Ret (Some a) (set_heap (insert a {| imports := ∅ |}) w).

(** Modelled from the spec: [Imports.Count] is absent; section 4.2 has it as
    the total number of registered import functions across all namespaces. *)
Definition Count (i : Imports) : nat :=
  sum_list ((fun kv => size kv.2) <$> map_to_list (imports i)).

Definition set_pointer (p : option handle) (f : ImportFunction) : ImportFunction :=
  {| cgoPointer := cgoPointer f; importedFunctionPointer := p;
     wasmInputs := wasmInputs f; wasmOutputs := wasmOutputs f; namespace := namespace f |}.

(** The assignment [importFunction.importedFunctionPointer = p] to the
    [range] variable bound to the function registered under [ns], [name] of
    the registry at [a]: it reaches the registry when the map holds pointers,
    and is lost with the loop's copy when it holds structs. *)
Definition store_pointer (a : addr) (ns name : string) (p : option handle) : M unit :=
  fun w =>
    if elements_are_pointers w then
      Ret tt (set_heap (alter (fun i =>
                {| imports := alter (alter (set_pointer p) name) ns (imports i) |}) a) w)
    else Ret tt w.

(** The handles a registry holds, in visiting order. *)
Definition held_handles (i : Imports) : list handle :=
  omap (fun e => importedFunctionPointer e.2) (entries i).

Definition clear_pointers (i : Imports) : Imports :=
  {| imports := (fun namespacedImports : gmap string ImportFunction =>
                   set_pointer None <$> namespacedImports) <$> imports i |}.

(** Modelled from the spec: [Imports.Close] is absent; section 4.2 has it
    release all materialised foreign function handles the registry owns, and
    be idempotent: every non-nil handle is destroyed and forgotten. *)
Definition Imports_Close (p : option addr) : M unit :=
  let* (a, i) := deref p in
  let* _ := (fun w => Ret tt (foldl (fun w h => log (EvImportFuncDestroy h) (set_funcs (delete h) w))
                                w (held_handles i))) in
  modify (set_heap (insert a (clear_pointers i))).

(* ===================================================================== *)
(** ** [instance_helpers.go]                                             *)
(* ===================================================================== *)

(** The body of the inner loop of [generateWasmerImports] (lines 14-43).
    A signature goes to the engine as a pointer to its first tag ([nil] for
    an empty one) and its length, that is, as the slice itself. *)
Definition materialize_one (a : addr) (entry : string * string * ImportFunction)
    (wasmImports : list cWasmerImportT) (importFunctionNth : nat)
  : M (list cWasmerImportT * nat) :=
  let '(ns, importName, importFunction) := entry in
  let* p := cWasmerImportFuncNew (cgoPointer importFunction)
              (wasmInputs importFunction) (wasmOutputs importFunction) in
  let* _ := store_pointer a ns importName p in
  let importedFunction := cNewWasmerImportT (namespace importFunction) importName p in
  if decide (importFunctionNth < length wasmImports) then
    ret (<[importFunctionNth := importedFunction]> wasmImports, S importFunctionNth)
  else panic "runtime error: index out of range".

Fixpoint materialize (a : addr) (todo : list (string * string * ImportFunction))
    (wasmImports : list cWasmerImportT) (importFunctionNth : nat)
  : M (list cWasmerImportT * nat) :=
  match todo with
  | [] => ret (wasmImports, importFunctionNth)
  | entry :: todo' =>
      let* (wasmImports', nth') := materialize_one a entry wasmImports importFunctionNth in
      materialize a todo' wasmImports' nth'
  end.

(** [generateWasmerImports]: the pointer to the first record ([nil] when
    there is none) and the number of records. *)
Definition generateWasmerImports (imports_ : option addr)
  : M (option (list cWasmerImportT) * nat) :=
  let* (a, i) := deref imports_ in
  let numberOfImports := Count i in
  let wasmImports := replicate numberOfImports zeroImportT in
  let* (wasmImports, _) := materialize a (entries i) wasmImports 0 in
  let wasmImportsCPointer :=
    if decide (0 < numberOfImports) then Some wasmImports else None in
  ret (wasmImportsCPointer, numberOfImports).

(** The loop of [retrieveExportedMemory] from index [nth] on, [todo] being
    the indices still to visit. *)
Fixpoint retrieveExportedMemory_loop (wasmExports : list cWasmerExportT) (todo : list nat)
    (memory_ : MemoryT) (hasMemory : bool) : M (MemoryT * bool * option error) :=
  match todo with
  | [] => ret (memory_, hasMemory, None)
  | nth :: todo' =>
      let* wasmExport := cWasmerExportsGet wasmExports nth in
      let wasmExportKind := cWasmerExportKind wasmExport in
      match wasmExportKind with
      | cWasmMemory =>
          let '(status, wasmMemory) := cWasmerExportToMemory wasmExport in
          match status with
          | cWasmerOk =>
              retrieveExportedMemory_loop wasmExports todo' (newMemory wasmMemory) true
          | cWasmerError =>
              ret (zeroMemory, false,
                   Some (NewInstanceError "Failed to extract the exported memory."))
          end
      | _ => retrieveExportedMemory_loop wasmExports todo' memory_ hasMemory
      end
  end.

Definition retrieveExportedMemory (wasmExports : list cWasmerExportT)
  : M (MemoryT * bool * option error) :=
  let* numberOfExports := cWasmerExportsLen wasmExports in
  retrieveExportedMemory_loop wasmExports (seq 0 numberOfExports) zeroMemory false.

(** Modelled from the spec: [getExportedFunctionSignature] and
    [getExportedFunctionOutputArity] are absent; section 4.5 has the bridge
    read the input value-kind signature, the input arity and the output arity
    of a function export.  The wording of their errors is not given. *)
Definition getExportedFunctionSignature (wasmFunction : cWasmerExportFuncT)
    (exportedFunctionName : string) : list cWasmerValueTag * nat * option error :=
  match func_params wasmFunction with
  | Some params => (params, length params, None)
  | None => ([], 0, Some (NewExportedFunctionError exportedFunctionName
                            "Failed to read the input signature of the `%s` exported function."))
  end.

Definition getExportedFunctionOutputArity (wasmFunction : cWasmerExportFuncT)
    (exportedFunctionName : string) : nat * option error :=
  match func_returns_arity wasmFunction with
  | Some n => (n, None)
  | None => (0, Some (NewExportedFunctionError exportedFunctionName
                        "Failed to read the output arity of the `%s` exported function."))
  end.

(** [createExportedFunctionWrapper] (lines 110-124, 151): the closure
    ([inr]), or [nil] with the error of a signature query ([inl]). *)
Definition createExportedFunctionWrapper (c_instance : option handle)
    (wasmFunction : cWasmerExportFuncT) (exportedFunctionName : string)
  : error + ExportedFunction :=
  let '(wasmFunctionInputSignatures, wasmFunctionInputsArity, err) :=
    getExportedFunctionSignature wasmFunction exportedFunctionName in
  match err with
  | Some e => inl e
  | None =>
      let '(wasmFunctionOutputsArity, err) :=
        getExportedFunctionOutputArity wasmFunction exportedFunctionName in
      match err with
      | Some e => inl e
      | None =>
          inr {| wrapper_instance := c_instance;
                 wrapper_name := exportedFunctionName;
                 wrapper_input_signatures := wasmFunctionInputSignatures;
                 wrapper_inputs_arity := wasmFunctionInputsArity;
                 wrapper_outputs_arity := wasmFunctionOutputsArity |}
      end
  end.

Fixpoint retrieveExportedFunctions_loop (c_instance : option handle)
    (wasmExports : list cWasmerExportT) (todo : list nat)
    (exports : gmap string ExportedFunction)
  : M (option (gmap string ExportedFunction) * option error) :=
  match todo with
  | [] => ret (Some exports, None)
  | nth :: todo' =>
      let* wasmExport := cWasmerExportsGet wasmExports nth in
      let wasmExportKind := cWasmerExportKind wasmExport in
      match wasmExportKind with
      | cWasmFunction =>
          let wasmExportName := cWasmerExportName wasmExport in
          let wasmFunction := cWasmerExportToFunc wasmExport in
          let exportedFunctionName := wasmExportName in
          match createExportedFunctionWrapper c_instance wasmFunction exportedFunctionName with
          | inl err => ret (None, Some err)
          | inr wrappedWasmFunction =>
              retrieveExportedFunctions_loop c_instance wasmExports todo'
                (<[exportedFunctionName := wrappedWasmFunction]> exports)
          end
      | _ => retrieveExportedFunctions_loop c_instance wasmExports todo' exports
      end
  end.

Definition retrieveExportedFunctions (c_instance : option handle)
    (wasmExports : list cWasmerExportT)
  : M (option (gmap string ExportedFunction) * option error) :=
  let exports : gmap string ExportedFunction := ∅ in
  let* numberOfExports := cWasmerExportsLen wasmExports in
  retrieveExportedFunctions_loop c_instance wasmExports (seq 0 numberOfExports) exports.

(* ===================================================================== *)
(** ** Calling an exported function (the closure, lines 125-150)         *)
(* ===================================================================== *)

(** Modelled from the spec: [validateGivenArguments] is absent; section 4.5
    has the argument count required to equal the declared input arity
    exactly, a mismatch failing with an error that identifies the function
    name and both counts.  The wording is not given; the function name goes
    in through the [%s] of [ExportedFunctionError]. *)
Definition validateGivenArguments {A} (exportedFunctionName : string) (arguments : list A)
    (wasmFunctionInputsArity : nat) : option error :=
  let numberOfGivenArguments := length arguments in
  if decide (numberOfGivenArguments = wasmFunctionInputsArity) then None
  else Some (NewExportedFunctionError exportedFunctionName
               ("Wrong number of arguments when calling the `%s` exported function; Expect "
                ++ Fmt.dec wasmFunctionInputsArity ++ " argument(s), given "
                ++ Fmt.dec numberOfGivenArguments ++ ".")).

(** Modelled from the spec: [convertWasmOutputToValue] is absent; section
    4.5 has the single engine output turned into a [Value] when the output
    arity is 1 and the void value returned when it is 0. *)
Definition convertWasmOutputToValue (wasmFunctionOutputsArity : nat) (wasmOutputs : list Value)
    (exportedFunctionName : string) : Value * option error :=
  match wasmFunctionOutputsArity with
  | 0 => (void, None)
  | S _ => (default void (head wasmOutputs), None)
  end.

Section Bridge.

Variable E : Engine.

(** Host values ([interface{}]) and their conversion to the kind a slot
    declares are the business of the absent [Value] component (section
    4.1); they are taken as given. *)
Variable GoValue : Type.
Variable goToWasm : cWasmerValueTag -> GoValue -> option Value.
Variable goTypeName : GoValue -> string.

(** Modelled from the spec: [createWasmInputsFromArguments] is absent;
    section 4.5 has each host value converted to the kind declared at its
    position, a failure naming the function, the position and the type. *)
Fixpoint createWasmInputs_from (nth : nat) (arguments : list GoValue)
    (signatures : list cWasmerValueTag) (exportedFunctionName : string)
  : list Value * option error :=
  match arguments, signatures with
  | value :: arguments', tag :: signatures' =>
      match goToWasm tag value with
      | Some v =>
          let '(vs, err) :=
            createWasmInputs_from (S nth) arguments' signatures' exportedFunctionName in
          (v :: vs, err)
      | None =>
          ([], Some (NewExportedFunctionError exportedFunctionName
                       ("Argument #" ++ Fmt.dec (S nth) ++ " of the `%s` exported function has type `"
                        ++ goTypeName value ++ "`, which cannot be converted.")))
      end
  | _, _ => ([], None)
  end.

Definition createWasmInputsFromArguments (arguments : list GoValue)
    (wasmFunctionInputsArity : nat) (wasmFunctionInputSignatures : list cWasmerValueTag)
    (exportedFunctionName : string) : list Value * option error :=
  createWasmInputs_from 0 (take wasmFunctionInputsArity arguments)
    wasmFunctionInputSignatures exportedFunctionName.

(** Modelled from the spec: [callWasmFunction] is absent; section 4.5 has
    it call the engine with the instance handle, the function and the
    coerced inputs.  The engine's answer comes with the points the call
    consumed. *)
Definition callWasmFunction (c_instance : option handle) (exportedFunctionName : string)
    (wasmFunctionInputsArity wasmFunctionOutputsArity : nat) (wasmInputs : list Value)
  : M (list Value * cWasmerResultT) :=
  with_instance c_instance (fun h st =>
    fun w =>
      let '(callResult, wasmOutputs, points) :=
        call E (inst_exports st) exportedFunctionName wasmInputs (inst_points st) in
      Ret (wasmOutputs, callResult)
        (log (EvFuncCall h exportedFunctionName wasmInputs)
           (set_instances
              (insert h {| inst_exports := inst_exports st; inst_metering := inst_metering st;
                           inst_points := u64 points; inst_context := inst_context st |}) w))).

(** Applying the closure [wrapper] to [arguments]. *)
Definition wrapper (f : ExportedFunction) (arguments : list GoValue)
  : M (Value * option error) :=
  let c_instance := wrapper_instance f in
  let exportedFunctionName := wrapper_name f in
  let wasmFunctionInputSignatures := wrapper_input_signatures f in
  let wasmFunctionInputsArity := wrapper_inputs_arity f in
  let wasmFunctionOutputsArity := wrapper_outputs_arity f in
  let err := validateGivenArguments exportedFunctionName arguments wasmFunctionInputsArity in
  match err with
  | Some e => ret (void, Some e)
  | None =>
      let '(wasmInputs, err) :=
        createWasmInputsFromArguments arguments wasmFunctionInputsArity
          wasmFunctionInputSignatures exportedFunctionName in
      match err with
      | Some e => ret (void, Some e)
      | None =>
          let* (wasmOutputs, callResult) :=
            callWasmFunction c_instance exportedFunctionName wasmFunctionInputsArity
              wasmFunctionOutputsArity wasmInputs in
          match callResult with
          | cWasmerOk =>
              ret (convertWasmOutputToValue wasmFunctionOutputsArity wasmOutputs
                     exportedFunctionName)
          | cWasmerError =>
              ret (void, Some (NewExportedFunctionError exportedFunctionName
                                 "Failed to call the `%s` exported function."))
          end
      end
  end.

End Bridge.

(* ===================================================================== *)
(** ** [instance.go]                                                     *)
(* ===================================================================== *)

(** [newInstanceWithImports] (lines 223-251). *)
Definition newInstanceWithImports (c_instance : option handle) (imports_ : option addr)
  : M (Instance * option error) :=
  let* wasmExports := cWasmerInstanceExports c_instance in
  defer (cWasmerExportsDestroy wasmExports)
    (let* (exports, err) := retrieveExportedFunctions c_instance wasmExports in
     match err with
     | Some e => ret (emptyInstance, Some e)
     | None =>
         let* (memory_hasMemory, err) := retrieveExportedMemory wasmExports in
         let (memory_, hasMemory) := memory_hasMemory in
         match err with
         | Some e => ret (emptyInstance, Some e)
         | None =>
             if negb hasMemory then
               ret ({| instance := c_instance; instance_imports := imports_;
                       Exports := exports; Memory := None |}, None)
             else
               ret ({| instance := c_instance; instance_imports := imports_;
                       Exports := exports; Memory := Some memory_ |}, None)
         end
     end).

(** The failure branch shared, textually, by the three constructors and
    (with another message) by [NewImportObject]. *)
Definition failure_message (errorMessage : string) : M string :=
  let* (lastError, err) := GetLastError in
  match err with
  | Some _ => ret (Fmt.Sprintf errorMessage ["(unknown details)"])
  | None => ret (Fmt.Sprintf errorMessage [lastError])
  end.

Definition instantiate_format : string :=
  "Failed to instantiate the module:" ++ Fmt.LF ++ "    %s".

Section Constructors.

Variable E : Engine.

(** [NewImportObject] (lines 84-111). *)
Definition NewImportObject (imports_ : option addr) : M (ImportObject * option error) :=
  let* (wasmImportsCPointer, numberOfImports) := generateWasmerImports imports_ in
  let* (result, c_import_object_) :=
    cWasmerNewImportObjectFromImports E wasmImportsCPointer numberOfImports in
  match result with
  | cWasmerError =>
      let* errorMessage := failure_message "Failed to create cached imports: %s" in
      let emptyImportsCache := {| io_imports := None; c_import_object := None |} in
      ret (emptyImportsCache, Some (errorString errorMessage))
  | cWasmerOk =>
      ret ({| io_imports := imports_; c_import_object := c_import_object_ |}, None)
  end.

(** [NewInstanceWithImports] (lines 118-148). *)
Definition NewInstanceWithImports (bytes : list Byte.byte) (imports_ : option addr)
  : M (Instance * option error) :=
  let* (wasmImportsCPointer, numberOfImports) := generateWasmerImports imports_ in
  let* _ := index0 bytes in
  let* (compileResult, c_instance) :=
    cWasmerInstantiate E bytes wasmImportsCPointer numberOfImports in
  match compileResult with
  | cWasmerError =>
      let* errorMessage := failure_message instantiate_format in
      ret (emptyInstance, Some (NewInstanceError errorMessage))
  | cWasmerOk => newInstanceWithImports c_instance imports_
  end.

(** [NewInstance] (lines 113-116). *)
Definition NewInstance (bytes : list Byte.byte) : M (Instance * option error) :=
  let* imports_ := NewImports in
  NewInstanceWithImports bytes imports_.

(** [NewMeteredInstanceWithImports] (lines 150-186). *)
Definition NewMeteredInstanceWithImports (bytes : list Byte.byte) (imports_ : option addr)
    (gasLimit : Z) (opcode_costs : OpcodeCosts) : M (Instance * option error) :=
  let* (wasmImportsCPointer, numberOfImports) := generateWasmerImports imports_ in
  let* _ := index0 bytes in
  let* (compileResult, c_instance) :=
    cWasmerInstantiateWithMetering E bytes wasmImportsCPointer numberOfImports
      gasLimit opcode_costs in
  match compileResult with
  | cWasmerError =>
      let* errorMessage := failure_message instantiate_format in
      ret (emptyInstance, Some (NewInstanceError errorMessage))
  | cWasmerOk => newInstanceWithImports c_instance imports_
  end.

(** [NewMeteredInstanceWithImportObject] (lines 188-221); [importObject]
    is a pointer, [None] for [nil]. *)
Definition NewMeteredInstanceWithImportObject (bytes : list Byte.byte)
    (importObject : option ImportObject) (gasLimit : Z) (opcode_costs : OpcodeCosts)
  : M (Instance * option error) :=
  let* _ := index0 bytes in
  match importObject with
  | None => panic "runtime error: invalid memory address or nil pointer dereference"
  | Some io =>
      let* (compileResult, c_instance) :=
        cWasmerInstantiateWithMeteringAndImportObject E bytes (c_import_object io)
          gasLimit opcode_costs in
      match compileResult with
      | cWasmerError =>
          let* errorMessage := failure_message instantiate_format in
          ret (emptyInstance, Some (NewInstanceError errorMessage))
      | cWasmerOk => newInstanceWithImports c_instance (io_imports io)
      end
  end.

End Constructors.

(** [HasMemory] (lines 253-256). *)
Definition HasMemory (i : Instance) : bool :=
  match Memory i with
  | Some _ => true
  | None => false
  end.

(** [SetContextData] (lines 264-266). *)
Definition SetContextData (i : Instance) (data : nat) : M unit :=
  cWasmerInstanceContextDataSet (instance i) data.

(** [Close] (lines 268-277). *)
Definition Close (i : Instance) : M unit :=
  let* _ := match instance_imports i with
            | Some _ => Imports_Close (instance_imports i)
            | None => ret tt
            end in
  match instance i with
  | Some h => cWasmerInstanceDestroy h
  | None => ret tt
  end.

(** [Clean] (lines 279-283). *)
Definition Clean (i : Instance) : M unit :=
  match instance i with
  | Some h => cWasmerInstanceDestroy h
  | None => ret tt
  end.

(** [GetPointsUsed] and [SetPointsUsed] (lines 285-291). *)
Definition GetPointsUsed (i : Instance) : M Z :=
  cWasmerInstanceGetPointsUsed (instance i).

Definition SetPointsUsed (i : Instance) (points : Z) : M unit :=
  cWasmerInstanceSetPointsUsed (instance i) points.

(* ===================================================================== *)
(** ** The instantiate operations, uniformly                             *)
(* ===================================================================== *)

Inductive InstantiateOp :=
| OpNoImports (bytes : list Byte.byte)
| OpWithImports (bytes : list Byte.byte) (imports_ : option addr)
| OpMetered (bytes : list Byte.byte) (imports_ : option addr)
    (gasLimit : Z) (opcode_costs : OpcodeCosts)
| OpImportObject (bytes : list Byte.byte) (importObject : option ImportObject)
    (gasLimit : Z) (opcode_costs : OpcodeCosts).

Definition run_op (E : Engine) (op : InstantiateOp) : M (Instance * option error) :=
  match op with
  | OpNoImports bytes => NewInstance E bytes
  | OpWithImports bytes imports_ => NewInstanceWithImports E bytes imports_
  | OpMetered bytes imports_ gasLimit opcode_costs =>
      NewMeteredInstanceWithImports E bytes imports_ gasLimit opcode_costs
  | OpImportObject bytes importObject gasLimit opcode_costs =>
      NewMeteredInstanceWithImportObject E bytes importObject gasLimit opcode_costs
  end.

(** The run of an operation up to and including its engine primitive: the
    primitive's status and out-parameter, with the registry the instance is
    to be given. *)
Definition primitive (E : Engine) (op : InstantiateOp)
  : M (cWasmerResultT * option handle * option addr) :=
  match op with
  | OpNoImports bytes =>
      let* imports_ := NewImports in
      let* (p, n) := generateWasmerImports imports_ in
      let* _ := index0 bytes in
      let* r := cWasmerInstantiate E bytes p n in
      ret (r, imports_)
  | OpWithImports bytes imports_ =>
      let* (p, n) := generateWasmerImports imports_ in
      let* _ := index0 bytes in
      let* r := cWasmerInstantiate E bytes p n in
      ret (r, imports_)
  | OpMetered bytes imports_ gasLimit opcode_costs =>
      let* (p, n) := generateWasmerImports imports_ in
      let* _ := index0 bytes in
      let* r := cWasmerInstantiateWithMetering E bytes p n gasLimit opcode_costs in
      ret (r, imports_)
  | OpImportObject bytes importObject gasLimit opcode_costs =>
      let* _ := index0 bytes in
      match importObject with
      | None => panic "runtime error: invalid memory address or nil pointer dereference"
      | Some io =>
          let* r := cWasmerInstantiateWithMeteringAndImportObject E bytes (c_import_object io)
                      gasLimit opcode_costs in
          ret (r, io_imports io)
      end
  end.

(** What every constructor does with the primitive's answer. *)
Definition finish (r : cWasmerResultT * option handle * option addr)
  : M (Instance * option error) :=
  let '(compileResult, c_instance, imports_) := r in
  match compileResult with
  | cWasmerError =>
      let* errorMessage := failure_message instantiate_format in
      ret (emptyInstance, Some (NewInstanceError errorMessage))
  | cWasmerOk => newInstanceWithImports c_instance imports_
  end.

(** The refinement target of [NewInstance], in the spec's words: the result
    of [NewInstanceWithImports] on the same bytes and a new, empty
    registry. *)
Definition NewInstance_spec (E : Engine) (bytes : list Byte.byte) (w : World)
  : outcome (Instance * option error) :=
  match NewImports w with
  | Ret emptyImports w' => NewInstanceWithImports E bytes emptyImports w'
  | Panic reason w' => Panic reason w'
  end.

(* ===================================================================== *)
(** ** Vocabulary for the statements                                     *)
(* ===================================================================== *)

(** The world after the primitives [evs] were recorded, oldest first. *)
Definition log_all (evs : list Event) (w : World) : World :=
  foldl (fun w ev => log ev w) w evs.

Definition is_memory (e : cWasmerExportT) : bool :=
  match export_kind e with cWasmMemory => true | _ => false end.

Definition is_function (e : cWasmerExportT) : bool :=
  match export_kind e with cWasmFunction => true | _ => false end.

(** The engine hands out the memory of a memory export. *)
Definition memory_ok (e : cWasmerExportT) : bool :=
  match export_kind e, export_memory e with
  | cWasmMemory, None => false
  | _, _ => true
  end.

(** The engine answers both signature queries of a function export. *)
Definition function_ok (e : cWasmerExportT) : bool :=
  match export_kind e with
  | cWasmFunction =>
      match func_params (export_func e), func_returns_arity (export_func e) with
      | Some _, Some _ => true
      | _, _ => false
      end
  | _ => true
  end.

(** The memory exports of a table, in the order the engine reports them. *)
Definition memory_exports (tbl : list cWasmerExportT) : list cWasmerExportT :=
  List.filter is_memory tbl.

(** The wrapper of the last memory export, if there is one. *)
Definition last_memory (tbl : list cWasmerExportT) : option MemoryT :=
  (fun e => newMemory (export_memory e)) <$> last (memory_exports tbl).

(** One step of filling the callable map. *)
Definition add_export (c_instance : option handle) (exports : gmap string ExportedFunction)
    (e : cWasmerExportT) : gmap string ExportedFunction :=
  match export_kind e with
  | cWasmFunction =>
      match createExportedFunctionWrapper c_instance (export_func e) (export_name e) with
      | inr f => <[export_name e := f]> exports
      | inl _ => exports
      end
  | _ => exports
  end.

(** The callable map of a table. *)
Definition callable_map (c_instance : option handle) (tbl : list cWasmerExportT)
  : gmap string ExportedFunction :=
  foldl (add_export c_instance) ∅ tbl.

(** One walk over a table of [n] entries: the length query, then every
    index in ascending order. *)
Definition walk (n : nat) : list Event := EvExportsLen :: (EvExportsGet <$> seq 0 n).

(** How often entry [nth] of the export table was fetched. *)
Definition fetches (nth : nat) (evs : list Event) : nat :=
  length (List.filter (fun ev => match ev with
                                 | EvExportsGet k => Nat.eqb k nth
                                 | _ => false
                                 end) evs).

(** How often the export table was retrieved from the instance. *)
Definition retrievals (evs : list Event) : nat :=
  length (List.filter (fun ev => match ev with
                                 | EvInstanceExports _ => true
                                 | _ => false
                                 end) evs).

(** The import function registered under [ns], [name]. *)
Definition lookup_import (i : Imports) (ns name : string) : option ImportFunction :=
  imports i !! ns ≫= fun namespacedImports : gmap string ImportFunction =>
                       namespacedImports !! name.

(** The handle stored on the function registered under [ns], [name] of the
    registry at [a]. *)
Definition cached_handle (w : World) (a : addr) (ns name : string) : option handle :=
  match heap w !! a with
  | Some i =>
      match lookup_import i ns name with
      | Some f => importedFunctionPointer f
      | None => None
      end
  | None => None
  end.

(** The world after one turn of the inner loop of [generateWasmerImports]
    for [entry]: a new handle is live, and stored on the import function of
    the registry when the map holds pointers. *)
Definition created (a : addr) (w : World) (entry : string * string * ImportFunction) : World :=
  let '(ns, name, f) := entry in
  let h := next_handle w in
  let w1 :=
    log (EvImportFuncNew h)
      (set_funcs (insert h {| if_cgoPointer := cgoPointer f; if_params := wasmInputs f;
                              if_returns := wasmOutputs f |})
         (set_next_handle (S h) w)) in
  if elements_are_pointers w then
    set_heap (alter (fun i =>
                {| imports := alter (alter (set_pointer (Some h)) name) ns (imports i) |}) a) w1
  else w1.

(** Storing handle [h] on the function registered under [ns], [name]. *)
Definition cache (i : Imports) (t : string * string * handle) : Imports :=
  let '(ns, name, h) := t in
  {| imports := alter (alter (set_pointer (Some h)) name) ns (imports i) |}.

(** Consecutive handles from [h] on for the entries visited. *)
Fixpoint assign (h : handle) (todo : list (string * string * ImportFunction))
  : list (string * string * handle) :=
  match todo with
  | [] => []
  | (ns, name, _) :: todo' => (ns, name, h) :: assign (S h) todo'
  end.

(** The registry [i] after a materialisation whose first handle is [h0]:
    with pointers in the map every function holds the handle created for
    it, with structs the registry is as it was. *)
Definition materialised (pointers : bool) (h0 : handle) (i : Imports) : Imports :=
  if pointers then foldl cache i (assign h0 (entries i)) else i.

(** The world after [cWasmerImportFuncDestroy] on each of [hs] in turn. *)
Definition destroyed (hs : list handle) (w : World) : World :=
  foldl (fun w h => log (EvImportFuncDestroy h) (set_funcs (delete h) w)) w hs.

(** The world after the engine destroyed the instance handle [i] holds, if
    it holds one. *)
Definition after_destroy (i : Instance) (w : World) : World :=
  match instance i with
  | Some h => log (EvInstanceDestroy h) (set_instances (delete h) w)
  | None => w
  end.

(** The module bytes an operation is given. *)
Definition op_bytes (op : InstantiateOp) : list Byte.byte :=
  match op with
  | OpNoImports bytes => bytes
  | OpWithImports bytes _ => bytes
  | OpMetered bytes _ _ _ => bytes
  | OpImportObject bytes _ _ _ => bytes
  end.

(** The closure [createExportedFunctionWrapper] builds for an export, when
    it builds one. *)
Definition wrapper_of (c_instance : option handle) (e : cWasmerExportT)
  : option ExportedFunction :=
  match createExportedFunctionWrapper c_instance (export_func e) (export_name e) with
  | inr f => Some f
  | inl _ => None
  end.

(** The function exports called [name], in the order the engine reports
    them. *)
Definition functions_named (name : string) (tbl : list cWasmerExportT) : list cWasmerExportT :=
  List.filter (fun e => is_function e && String.eqb (export_name e) name) tbl.

(** The registry an operation materialises on the caller's behalf. *)
Definition op_imports (op : InstantiateOp) : option addr :=
  match op with
  | OpWithImports _ imports_ => imports_
  | OpMetered _ imports_ _ _ => imports_
  | OpNoImports _ | OpImportObject _ _ _ _ => None
  end.

(** Events of the export table. *)
Definition table_event (ev : Event) : bool :=
  match ev with
  | EvInstanceExports _ | EvExportsLen | EvExportsGet _ | EvExportsDestroy => true
  | _ => false
  end.

(** The world an outcome ends in. *)
Definition final_world {A} (o : outcome A) : World :=
  match o with
  | Ret _ w => w
  | Panic _ w => w
  end.

Definition panics {A} (o : outcome A) : bool :=
  match o with
  | Ret _ _ => false
  | Panic _ _ => true
  end.

(* ===================================================================== *)
(** ** A small engine and registry to run the model on                   *)
(* ===================================================================== *)

Module Demo.

Definition no_func : cWasmerExportFuncT :=
  {| func_params := None; func_returns_arity := None |}.

(** A module exporting [sum : (i32, i32) -> i32], a global and two
    memories. *)
Definition exports : list cWasmerExportT :=
  [ {| export_kind := cWasmFunction; export_name := "sum";
       export_func := {| func_params := Some [cWasmI32; cWasmI32];
                         func_returns_arity := Some 1 |};
       export_memory := None |};
    {| export_kind := cWasmMemory; export_name := "memory";
       export_func := no_func; export_memory := Some 100 |};
    {| export_kind := cWasmGlobal; export_name := "counter";
       export_func := no_func; export_memory := None |};
    {| export_kind := cWasmMemory; export_name := "scratch";
       export_func := no_func; export_memory := Some 101 |} ].

(** Bytes starting with [0x00] instantiate; bytes starting with [0x01]
    fail without detail; all others fail with a detail. *)
Definition engine : Engine :=
  {| instantiate := fun bytes _ _ =>
       match bytes with
       | Byte.x00 :: _ => InstantiateOk exports
       | Byte.x01 :: _ => InstantiateFailed None
       | _ => InstantiateFailed (Some "validation error")
       end;
     new_import_object := fun _ => None;
     call := fun _ _ inputs points =>
       match inputs with
       | [I32 a; I32 b] => (cWasmerOk, [I32 (a + b)], (points + 1)%Z)
       | _ => (cWasmerError, [], points)
       end |}.

Definition sum : ImportFunction :=
  {| cgoPointer := 7; importedFunctionPointer := None;
     wasmInputs := [cWasmI32; cWasmI32]; wasmOutputs := [cWasmI32];
     namespace := "env" |}.

(** One registry, at address 0, holding [env.sum]; its map holds pointers. *)
Definition world : World :=
  set_elements_are_pointers true
    (set_heap (insert 0 {| imports := {[ "env" := {[ "sum" := sum ]} ]} |}) emptyWorld).

(** The same registry, its map holding structs. *)
Definition world_of_structs : World :=
  set_heap (insert 0 {| imports := {[ "env" := {[ "sum" := sum ]} ]} |}) emptyWorld.

Definition good : list Byte.byte := [Byte.x00; Byte.x61; Byte.x73; Byte.x6d].
Definition bad : list Byte.byte := [Byte.xff].
Definition bad_silent : list Byte.byte := [Byte.x01].

(** Host values: machine integers, converted to [i32] slots only. *)
Definition goToWasm (tag : cWasmerValueTag) (v : Z) : option Value :=
  match tag with
  | cWasmI32 => Some (I32 v)
  | _ => None
  end.

Definition goTypeName (v : Z) : string := "int32".

(** The closure for the export [sum] of instance 1. *)
Definition sum_wrapper : ExportedFunction :=
  {| wrapper_instance := Some 1; wrapper_name := "sum";
     wrapper_input_signatures := [cWasmI32; cWasmI32];
     wrapper_inputs_arity := 2; wrapper_outputs_arity := 1 |}.

(** The world once the engine has instantiated [good] with the registry
    at address 0: the import function has handle 0, the instance 1. *)
Definition instantiated : World :=
  match primitive engine (OpWithImports good (Some 0)) world with
  | Ret _ w => w
  | Panic _ w => w
  end.

(** The import object made from the registry at address 0: the import
    function has handle 0, the import object handle 1. *)
Definition import_object : ImportObject :=
  {| io_imports := Some 0; c_import_object := Some 1 |}.

Definition with_import_object : World :=
  match NewImportObject engine (Some 0) world with
  | Ret _ w => w
  | Panic _ w => w
  end.

(** An engine that refuses every import object, and whose modules export a
    function it cannot describe, after a memory. *)
Definition broken_exports : list cWasmerExportT :=
  [ {| export_kind := cWasmMemory; export_name := "memory";
       export_func := no_func; export_memory := Some 100 |};
    {| export_kind := cWasmFunction; export_name := "opaque";
       export_func := no_func; export_memory := None |};
    {| export_kind := cWasmFunction; export_name := "sum";
       export_func := {| func_params := Some [cWasmI32; cWasmI32];
                         func_returns_arity := Some 1 |};
       export_memory := None |} ].

Definition broken_engine : Engine :=
  {| instantiate := fun _ _ _ => InstantiateOk broken_exports;
     new_import_object := fun _ => Some (Some "out of memory");
     call := fun _ _ _ points => (cWasmerError, [], points) |}.

(** The outcome's world, the given one on a panic. *)
Definition world_of {A} (o : outcome A) : World :=
  match o with Ret _ w => w | Panic _ w => w end.

Definition value_of {A} (d : A) (o : outcome A) : A :=
  match o with Ret a _ => a | Panic _ _ => d end.

End Demo.

(* ===================================================================== *)
(** ** Basic facts                                                       *)
(* ===================================================================== *)

Lemma string_app_cons (c : ascii) (s t : string) : String c s ++ t = String c (s ++ t).
Proof. reflexivity. Qed.

Lemma string_app_nil_l (t : string) : "" ++ t = t.
Proof. reflexivity. Qed.

Lemma string_app_nil_r (s : string) : s ++ "" = s.
Proof.
  induction s as [|c s IH]; [reflexivity|].
  now rewrite string_app_cons, IH.
Qed.

Lemma string_app_assoc (a b c : string) : (a ++ b) ++ c = a ++ (b ++ c).
Proof.
  induction a as [|x a IH]; [reflexivity|].
  now rewrite !string_app_cons, IH.
Qed.

Lemma bind_Ret {A B} (m : M A) (k : A -> M B) w a w' :
  m w = Ret a w' -> bind m k w = k a w'.
Proof. intros H. unfold bind. now rewrite H. Qed.

Lemma bind_Panic {A B} (m : M A) (k : A -> M B) w reason w' :
  m w = Panic reason w' -> bind m k w = Panic reason w'.
Proof. intros H. unfold bind. now rewrite H. Qed.

Lemma bind_inv {A B} (m : M A) (k : A -> M B) w b w2 :
  bind m k w = Ret b w2 -> exists a w1, m w = Ret a w1 /\ k a w1 = Ret b w2.
Proof.
  unfold bind. destruct (m w) as [a w1|reason w1]; [eauto | discriminate].
Qed.

Lemma Ret_inj {A} (a b : A) (w1 w2 : World) : Ret a w1 = Ret b w2 -> a = b /\ w1 = w2.
Proof. intros H. injection H as -> ->. now split. Qed.

Lemma bind_assoc {A B C} (m : M A) (k : A -> M B) (k' : B -> M C) w :
  bind (bind m k) k' w = bind m (fun a => bind (k a) k') w.
Proof. unfold bind. destruct (m w); reflexivity. Qed.

(** Every constructor is its primitive followed by [finish]. *)
Lemma run_op_primitive E op w :
  run_op E op w = bind (primitive E op) finish w.
Proof.
  destruct op as [bytes|bytes p|bytes p g c|bytes io g c]; simpl.
  - unfold NewInstance, NewInstanceWithImports, bind.
    destruct (NewImports w) as [i w0|]; [|reflexivity].
    destruct (generateWasmerImports i w0) as [[q n] w1|]; [|reflexivity].
    destruct (index0 bytes w1) as [[] w2|]; [|reflexivity].
    destruct (cWasmerInstantiate E bytes q n w2) as [[[] h] w3|]; reflexivity.
  - unfold NewInstanceWithImports, bind.
    destruct (generateWasmerImports p w) as [[q n] w1|]; [|reflexivity].
    destruct (index0 bytes w1) as [[] w2|]; [|reflexivity].
    destruct (cWasmerInstantiate E bytes q n w2) as [[[] h] w3|]; reflexivity.
  - unfold NewMeteredInstanceWithImports, bind.
    destruct (generateWasmerImports p w) as [[q n] w1|]; [|reflexivity].
    destruct (index0 bytes w1) as [[] w2|]; [|reflexivity].
    destruct (cWasmerInstantiateWithMetering E bytes q n g c w2) as [[[] h] w3|]; reflexivity.
  - unfold NewMeteredInstanceWithImportObject, bind.
    destruct (index0 bytes w) as [[] w1|]; [|reflexivity].
    destruct io as [io|]; [|reflexivity].
    destruct (cWasmerInstantiateWithMeteringAndImportObject E bytes (c_import_object io) g c w1)
      as [[[] h] w2|]; reflexivity.
Qed.

Lemma failure_message_instantiate w :
  failure_message instantiate_format w =
    Ret ("Failed to instantiate the module:" ++ Fmt.LF ++ "    "
         ++ default "(unknown details)" (last_error w)) w.
Proof.
  unfold failure_message, GetLastError, gets, bind, ret.
  destruct (last_error w) as [s|]; simpl; [|reflexivity].
  now rewrite string_app_nil_r.
Qed.

Lemma finish_failed c p w :
  finish (cWasmerError, c, p) w =
    Ret (emptyInstance,
         Some (InstanceError ("Failed to instantiate the module:" ++ Fmt.LF ++ "    "
                              ++ default "(unknown details)" (last_error w)))) w.
Proof.
  unfold finish. erewrite bind_Ret by apply failure_message_instantiate. reflexivity.
Qed.

(* ===================================================================== *)
(** ** Failing instantiation (C5, C10) and the no-imports case (C9)      *)
(* ===================================================================== *)

(** C5. When the engine's instantiate primitive fails under
    [NewInstanceWithImports], the error returned is an [InstanceError] whose
    message is the fixed prefix followed by the engine's last-error string,
    or by "(unknown details)" when the engine has none. *)
Theorem NewInstanceWithImports_failure_message
    (E : Engine) (bytes : list Byte.byte) (imports_ : option addr)
    (w w' : World) (c : option handle) (p : option addr) :
  primitive E (OpWithImports bytes imports_) w = Ret (cWasmerError, c, p) w' ->
  exists err,
    NewInstanceWithImports E bytes imports_ w = Ret (emptyInstance, Some err) w' /\
    err = InstanceError ("Failed to instantiate the module:" ++ Fmt.LF ++ "    "
                         ++ default "(unknown details)" (last_error w')) /\
    Error err = "Failed to instantiate the module:" ++ Fmt.LF ++ "    "
                ++ match last_error w' with
                   | Some detail => detail
                   | None => "(unknown details)"
                   end.
Proof.
  intros Hprim.
  pose proof (run_op_primitive E (OpWithImports bytes imports_) w) as Hrun.
  simpl run_op in Hrun. rewrite Hrun.
  erewrite bind_Ret by exact Hprim.
  rewrite finish_failed.
  eexists; split; [reflexivity|]. split; [reflexivity|].
  destruct (last_error w'); reflexivity.
Qed.

Lemma NewInstanceWithImports_failure_message_witness :
  exists err,
    NewInstanceWithImports Demo.engine Demo.bad (Some 0) Demo.world
      = Ret (emptyInstance, Some err)
          (Demo.world_of (primitive Demo.engine (OpWithImports Demo.bad (Some 0)) Demo.world)) /\
    Error err = "Failed to instantiate the module:" ++ Fmt.LF ++ "    validation error".
Proof.
  destruct (NewInstanceWithImports_failure_message Demo.engine Demo.bad (Some 0) Demo.world
              (Demo.world_of (primitive Demo.engine (OpWithImports Demo.bad (Some 0)) Demo.world))
              None (Some 0))
    as (err & Hrun & _ & Herr).
  - vm_compute. reflexivity.
  - exists err. split; [exact Hrun|]. rewrite Herr. vm_compute. reflexivity.
Defined.

(** C10. Whichever instantiate operation fails at its engine primitive, the
    [Instance] returned next to the error is the empty one: engine handle,
    imports, [Exports] and [Memory] are all nil. *)
Theorem failed_instantiation_returns_empty_instance
    (E : Engine) (op : InstantiateOp) (w w' : World) (c : option handle) (p : option addr) :
  primitive E op w = Ret (cWasmerError, c, p) w' ->
  exists (i : Instance) (err : error),
    run_op E op w = Ret (i, Some err) w' /\
    instance i = None /\ instance_imports i = None /\ Exports i = None /\ Memory i = None.
Proof.
  intros Hprim.
  rewrite run_op_primitive. erewrite bind_Ret by exact Hprim.
  rewrite finish_failed.
  exists emptyInstance. eexists. split; [reflexivity|]. repeat split.
Qed.

Lemma failed_instantiation_returns_empty_instance_witness :
  exists (i : Instance) (err : error) (w' : World),
    run_op Demo.engine (OpMetered Demo.bad_silent (Some 0) 1000 None) Demo.world
      = Ret (i, Some err) w' /\
    instance i = None /\ instance_imports i = None /\ Exports i = None /\ Memory i = None.
Proof.
  destruct (failed_instantiation_returns_empty_instance Demo.engine
              (OpMetered Demo.bad_silent (Some 0) 1000 None) Demo.world
              (Demo.world_of
                 (primitive Demo.engine (OpMetered Demo.bad_silent (Some 0) 1000 None) Demo.world))
              None (Some 0))
    as (i & err & Hrun & Hi).
  - vm_compute. reflexivity.
  - exists i, err. eexists. split; [exact Hrun | exact Hi].
Defined.

(** C9. [NewInstance bytes] gives exactly the outcome of
    [NewInstanceWithImports] on the same bytes and a new, empty registry;
    materialising that registry creates no handle and hands the engine no
    import record. *)
Theorem NewInstance_is_NewInstanceWithImports_NewImports
    (E : Engine) (bytes : list Byte.byte) (w : World) :
  NewInstance E bytes w = NewInstance_spec E bytes w /\
  exists emptyImports w0,
    NewImports w = Ret emptyImports w0 /\
    generateWasmerImports emptyImports w0 = Ret (None, 0) w0.
Proof.
  split.
  - unfold NewInstance, NewInstance_spec, bind. reflexivity.
  - unfold NewImports. do 2 eexists. split; [reflexivity|].
    unfold generateWasmerImports, bind, deref. simpl.
    rewrite lookup_insert_eq. unfold Count, entries. simpl.
    rewrite map_to_list_empty. reflexivity.
Qed.

(* ===================================================================== *)
(** ** Walking the export table                                          *)
(* ===================================================================== *)

Lemma log_all_app (a b : list Event) (w : World) :
  log_all (a ++ b)%list w = log_all b (log_all a w).
Proof. unfold log_all. apply foldl_app. Qed.

Lemma log_all_cons (ev : Event) (evs : list Event) (w : World) :
  log_all (ev :: evs) w = log_all evs (log ev w).
Proof. reflexivity. Qed.

Lemma log_all_trace (evs : list Event) (w : World) :
  trace (log_all evs w) = (rev evs ++ trace w)%list.
Proof.
  revert w. induction evs as [|ev evs IH]; intros w; [reflexivity|].
  rewrite log_all_cons, IH. simpl. now rewrite <- app_assoc.
Qed.

Lemma log_all_frame (evs : list Event) (w : World) :
  heap (log_all evs w) = heap w /\ funcs (log_all evs w) = funcs w /\
  instances (log_all evs w) = instances w /\ next_handle (log_all evs w) = next_handle w /\
  import_objects (log_all evs w) = import_objects w /\ last_error (log_all evs w) = last_error w.
Proof.
  revert w. induction evs as [|ev evs IH]; intros w; [now repeat split|].
  rewrite log_all_cons. destruct (IH (log ev w)) as (?&?&?&?&?&?). now repeat split.
Qed.

Lemma cWasmerExportsGet_middle (pre suf : list cWasmerExportT) (e : cWasmerExportT) (w : World) :
  cWasmerExportsGet (pre ++ e :: suf)%list (length pre) w = Ret e (log (EvExportsGet (length pre)) w).
Proof. unfold cWasmerExportsGet. now rewrite list_lookup_middle. Qed.

Lemma last_filter_cons (e : cWasmerExportT) (l : list cWasmerExportT) :
  last (memory_exports (e :: l)) =
    match last (memory_exports l) with
    | Some e' => Some e'
    | None => if is_memory e then Some e else None
    end.
Proof.
  unfold memory_exports. simpl. destruct (is_memory e).
  - now rewrite last_cons.
  - now destruct (last (List.filter is_memory l)).
Qed.

(** The memory loop on a table whose memory exports all hand out their
    memory: every remaining index is fetched, and the last memory export
    wins. *)
Lemma retrieveExportedMemory_loop_ok (suf pre : list cWasmerExportT)
    (memory_ : MemoryT) (hasMemory : bool) (w : World) :
  forallb memory_ok suf = true ->
  retrieveExportedMemory_loop (pre ++ suf)%list (seq (length pre) (length suf)) memory_ hasMemory w =
    Ret (match last (memory_exports suf) with
         | Some e => (newMemory (export_memory e), true)
         | None => (memory_, hasMemory)
         end, None)
        (log_all (EvExportsGet <$> seq (length pre) (length suf)) w).
Proof.
  revert pre memory_ hasMemory w.
  induction suf as [|e suf IH]; intros pre memory_ hasMemory w Hok; [reflexivity|].
  simpl in Hok. apply andb_prop in Hok as [He Hok].
  change (seq (length pre) (length (e :: suf)))
    with (length pre :: seq (S (length pre)) (length suf)).
  cbn [retrieveExportedMemory_loop fmap list_fmap].
  erewrite bind_Ret by apply cWasmerExportsGet_middle.
  rewrite log_all_cons, last_filter_cons.
  specialize (IH (pre ++ [e])%list).
  rewrite <- app_assoc, length_app, Nat.add_1_r in IH. simpl app in IH.
  unfold cWasmerExportKind, cWasmerExportToMemory, memory_ok, is_memory in *.
  destruct (export_kind e); try (rewrite IH by exact Hok;
    destruct (last (memory_exports suf)); reflexivity).
  destruct (export_memory e) as [m|] eqn:Hm; [|discriminate].
  rewrite IH by exact Hok. destruct (last (memory_exports suf)); [reflexivity|].
  now rewrite Hm.
Qed.

(** If the memory loop returns without error, every memory export it was
    to visit handed out its memory. *)
Lemma retrieveExportedMemory_loop_inv (suf pre : list cWasmerExportT)
    (memory_ : MemoryT) (hasMemory : bool) (w w' : World) (r : MemoryT * bool) :
  retrieveExportedMemory_loop (pre ++ suf)%list (seq (length pre) (length suf)) memory_ hasMemory w
    = Ret (r, None) w' ->
  forallb memory_ok suf = true.
Proof.
  revert pre memory_ hasMemory w.
  induction suf as [|e suf IH]; intros pre memory_ hasMemory w Hrun; [reflexivity|].
  change (seq (length pre) (length (e :: suf)))
    with (length pre :: seq (S (length pre)) (length suf)) in Hrun.
  cbn [retrieveExportedMemory_loop] in Hrun.
  erewrite bind_Ret in Hrun by apply cWasmerExportsGet_middle.
  specialize (IH (pre ++ [e])%list).
  rewrite <- app_assoc, length_app, Nat.add_1_r in IH. simpl app in IH.
  simpl. apply andb_true_intro.
  unfold cWasmerExportKind, cWasmerExportToMemory, memory_ok in *.
  destruct (export_kind e); try (split; [reflexivity | eapply IH; exact Hrun]).
  destruct (export_memory e) as [m|]; [|discriminate].
  split; [reflexivity | eapply IH; exact Hrun].
Qed.

Lemma createExportedFunctionWrapper_ok (c : option handle) (e : cWasmerExportT) :
  is_function e = true -> function_ok e = true ->
  exists f, createExportedFunctionWrapper c (export_func e) (export_name e) = inr f.
Proof.
  unfold is_function, function_ok, createExportedFunctionWrapper,
    getExportedFunctionSignature, getExportedFunctionOutputArity.
  destruct (export_kind e); try discriminate. intros _.
  destruct (func_params (export_func e)); [|discriminate].
  destruct (func_returns_arity (export_func e)); [|discriminate].
  eauto.
Qed.

Lemma createExportedFunctionWrapper_inv (c : option handle) (e : cWasmerExportT)
    (f : ExportedFunction) :
  is_function e = true ->
  createExportedFunctionWrapper c (export_func e) (export_name e) = inr f ->
  function_ok e = true.
Proof.
  unfold is_function, function_ok, createExportedFunctionWrapper,
    getExportedFunctionSignature, getExportedFunctionOutputArity.
  destruct (export_kind e); try discriminate. intros _.
  destruct (func_params (export_func e)); [|discriminate].
  destruct (func_returns_arity (export_func e)); [|discriminate].
  reflexivity.
Qed.

(** The function loop on a table whose function exports all answer their
    signature queries: every remaining index is fetched and the map is
    filled entry by entry. *)
Lemma retrieveExportedFunctions_loop_ok (c : option handle) (suf pre : list cWasmerExportT)
    (exports : gmap string ExportedFunction) (w : World) :
  forallb function_ok suf = true ->
  retrieveExportedFunctions_loop c (pre ++ suf)%list (seq (length pre) (length suf)) exports w =
    Ret (Some (foldl (add_export c) exports suf), None)
        (log_all (EvExportsGet <$> seq (length pre) (length suf)) w).
Proof.
  revert pre exports w.
  induction suf as [|e suf IH]; intros pre exports w Hok; [reflexivity|].
  simpl in Hok. apply andb_prop in Hok as [He Hok].
  change (seq (length pre) (length (e :: suf)))
    with (length pre :: seq (S (length pre)) (length suf)).
  cbn [retrieveExportedFunctions_loop fmap list_fmap foldl].
  erewrite bind_Ret by apply cWasmerExportsGet_middle.
  rewrite log_all_cons.
  specialize (IH (pre ++ [e])%list).
  rewrite <- app_assoc, length_app, Nat.add_1_r in IH. simpl app in IH.
  destruct (is_function e) eqn:Hf.
  - destruct (createExportedFunctionWrapper_ok c e Hf He) as [f Hwr].
    unfold add_export, cWasmerExportKind, cWasmerExportName, cWasmerExportToFunc, is_function in *.
    destruct (export_kind e); try discriminate.
    rewrite Hwr. now rewrite IH.
  - unfold add_export, cWasmerExportKind, is_function in *.
    destruct (export_kind e); try discriminate; now rewrite IH.
Qed.

Lemma retrieveExportedFunctions_loop_inv (c : option handle) (suf pre : list cWasmerExportT)
    (exports : gmap string ExportedFunction) (w w' : World)
    (r : option (gmap string ExportedFunction)) :
  retrieveExportedFunctions_loop c (pre ++ suf)%list (seq (length pre) (length suf)) exports w
    = Ret (r, None) w' ->
  forallb function_ok suf = true.
Proof.
  revert pre exports w.
  induction suf as [|e suf IH]; intros pre exports w Hrun; [reflexivity|].
  change (seq (length pre) (length (e :: suf)))
    with (length pre :: seq (S (length pre)) (length suf)) in Hrun.
  cbn [retrieveExportedFunctions_loop] in Hrun.
  erewrite bind_Ret in Hrun by apply cWasmerExportsGet_middle.
  specialize (IH (pre ++ [e])%list).
  rewrite <- app_assoc, length_app, Nat.add_1_r in IH. simpl app in IH.
  simpl. apply andb_true_intro.
  destruct (is_function e) eqn:Hf.
  - unfold cWasmerExportKind, cWasmerExportName, cWasmerExportToFunc in Hrun.
    assert (export_kind e = cWasmFunction) as Hk
      by (unfold is_function in Hf; destruct (export_kind e); congruence).
    rewrite Hk in Hrun.
    destruct (createExportedFunctionWrapper c (export_func e) (export_name e)) as [err|f] eqn:Hwr;
      [discriminate|].
    split; [eapply createExportedFunctionWrapper_inv; eauto | eapply IH; exact Hrun].
  - split.
    + unfold function_ok, is_function in *. destruct (export_kind e); congruence.
    + unfold cWasmerExportKind, is_function in *.
      destruct (export_kind e); try discriminate; eapply IH; exact Hrun.
Qed.

Lemma retrieveExportedFunctions_ok (c : option handle) (tbl : list cWasmerExportT) (w : World) :
  forallb function_ok tbl = true ->
  retrieveExportedFunctions c tbl w =
    Ret (Some (callable_map c tbl), None) (log_all (walk (length tbl)) w).
Proof.
  intros Hok. unfold retrieveExportedFunctions, cWasmerExportsLen, bind, walk.
  rewrite log_all_cons.
  exact (retrieveExportedFunctions_loop_ok c tbl [] ∅ (log EvExportsLen w) Hok).
Qed.

Lemma retrieveExportedFunctions_inv (c : option handle) (tbl : list cWasmerExportT)
    (w w' : World) (r : option (gmap string ExportedFunction)) :
  retrieveExportedFunctions c tbl w = Ret (r, None) w' -> forallb function_ok tbl = true.
Proof.
  unfold retrieveExportedFunctions, cWasmerExportsLen, bind. intros Hrun.
  exact (retrieveExportedFunctions_loop_inv c tbl [] ∅ _ _ _ Hrun).
Qed.

Lemma retrieveExportedMemory_ok (tbl : list cWasmerExportT) (w : World) :
  forallb memory_ok tbl = true ->
  retrieveExportedMemory tbl w =
    Ret (match last (memory_exports tbl) with
         | Some e => (newMemory (export_memory e), true)
         | None => (zeroMemory, false)
         end, None) (log_all (walk (length tbl)) w).
Proof.
  intros Hok. unfold retrieveExportedMemory, cWasmerExportsLen, bind, walk.
  rewrite log_all_cons.
  exact (retrieveExportedMemory_loop_ok tbl [] zeroMemory false (log EvExportsLen w) Hok).
Qed.

Lemma retrieveExportedMemory_inv (tbl : list cWasmerExportT) (w w' : World) (r : MemoryT * bool) :
  retrieveExportedMemory tbl w = Ret (r, None) w' -> forallb memory_ok tbl = true.
Proof.
  unfold retrieveExportedMemory, cWasmerExportsLen, bind. intros Hrun.
  exact (retrieveExportedMemory_loop_inv tbl [] _ _ _ _ _ Hrun).
Qed.

(** The post-instantiation step on a table the engine answers for. *)
Lemma newInstanceWithImports_ok (h : handle) (p : option addr) (w : World) (st : InstanceState) :
  instances w !! h = Some st ->
  forallb function_ok (inst_exports st) = true ->
  forallb memory_ok (inst_exports st) = true ->
  newInstanceWithImports (Some h) p w =
    Ret ({| instance := Some h; instance_imports := p;
            Exports := Some (callable_map (Some h) (inst_exports st));
            Memory := last_memory (inst_exports st) |}, None)
        (log_all (EvInstanceExports h
                  :: walk (length (inst_exports st)) ++ walk (length (inst_exports st))
                  ++ [EvExportsDestroy])%list w).
Proof.
  intros Hh Hf Hm. unfold newInstanceWithImports.
  assert (cWasmerInstanceExports (Some h) w = Ret (inst_exports st) (log (EvInstanceExports h) w))
    as Hexp by (unfold cWasmerInstanceExports; now rewrite Hh).
  erewrite bind_Ret by exact Hexp.
  rewrite log_all_cons, !log_all_app.
  set (w1 := log (EvInstanceExports h) w).
  unfold defer.
  erewrite bind_Ret by (apply retrieveExportedFunctions_ok; exact Hf).
  cbv beta iota.
  erewrite bind_Ret by (apply retrieveExportedMemory_ok; exact Hm).
  unfold last_memory.
  destruct (last (memory_exports (inst_exports st))) as [e|]; reflexivity.
Qed.

(** Conversely, the step only succeeds on a live instance whose table the
    engine answers for. *)
Lemma newInstanceWithImports_inv (c : option handle) (p : option addr) (w w' : World)
    (i : Instance) :
  newInstanceWithImports c p w = Ret (i, None) w' ->
  exists h st, c = Some h /\ instances w !! h = Some st /\
    forallb function_ok (inst_exports st) = true /\
    forallb memory_ok (inst_exports st) = true.
Proof.
  unfold newInstanceWithImports. intros Hrun.
  apply bind_inv in Hrun as (tbl & w1 & Hexp & Hrun).
  unfold cWasmerInstanceExports in Hexp.
  destruct c as [h|]; [|discriminate].
  destruct (instances w !! h) as [st|] eqn:Hh; [|discriminate].
  injection Hexp as <- <-.
  exists h, st. split; [reflexivity|]. split; [exact Hh|].
  unfold defer in Hrun.
  match type of Hrun with
  | match ?body ?w0 with _ => _ end = _ =>
      destruct (body w0) as [[i0 e0] w2|reason w2] eqn:Hbody
  end.
  2:{ destruct (cWasmerExportsDestroy (inst_exports st) w2); discriminate. }
  assert (e0 = None) as -> by (unfold cWasmerExportsDestroy, modify in Hrun; congruence).
  apply bind_inv in Hbody as ([exports err] & w3 & Hfun & Hbody).
  destruct err as [e|]; [discriminate|].
  apply retrieveExportedFunctions_inv in Hfun. split; [exact Hfun|].
  apply bind_inv in Hbody as ([[m hm] err] & w4 & Hmem & Hbody).
  destruct err as [e|]; [discriminate|].
  now apply retrieveExportedMemory_inv in Hmem.
Qed.

Lemma HasMemory_last_memory (tbl : list cWasmerExportT) :
  match last_memory tbl with Some _ => true | None => false end = existsb is_memory tbl.
Proof.
  unfold last_memory.
  induction tbl as [|e tbl IH]; [reflexivity|].
  rewrite last_filter_cons. simpl existsb.
  destruct (last (memory_exports tbl)) as [e'|]; simpl in *.
  - rewrite <- IH. now destruct (is_memory e).
  - rewrite <- IH. now destruct (is_memory e).
Qed.

Lemma last_memory_split (pre post : list cWasmerExportT) (e : cWasmerExportT) :
  is_memory e = true -> existsb is_memory post = false ->
  last_memory (pre ++ e :: post)%list = Some (newMemory (export_memory e)).
Proof.
  intros He Hpost. unfold last_memory, memory_exports.
  rewrite List.filter_app. simpl. rewrite He.
  assert (List.filter is_memory post = []) as ->.
  { induction post as [|x post IH]; [reflexivity|].
    simpl in *. apply orb_false_elim in Hpost as [-> Hpost]. auto. }
  now rewrite last_snoc.
Qed.

(** A successful constructor went through the post-instantiation step on the
    handle and table the engine produced. *)
Lemma run_op_success (E : Engine) (op : InstantiateOp) (w w' : World) (i : Instance) :
  run_op E op w = Ret (i, None) w' ->
  exists c p w1,
    primitive E op w = Ret (cWasmerOk, c, p) w1 /\
    newInstanceWithImports c p w1 = Ret (i, None) w'.
Proof.
  rewrite run_op_primitive. intros Hrun.
  apply bind_inv in Hrun as ([[status c] p] & w1 & Hprim & Hfin).
  destruct status.
  - exists c, p, w1. split; [exact Hprim | exact Hfin].
  - rewrite finish_failed in Hfin. discriminate.
Qed.

Lemma events_between_log_all (evs : list Event) (w : World) :
  events_between w (log_all evs w) = evs.
Proof.
  unfold events_between. rewrite log_all_trace, length_app, length_rev.
  replace (length evs + length (trace w) - length (trace w)) with (length (rev evs))
    by (rewrite length_rev; lia).
  rewrite take_app_length. apply rev_involutive.
Qed.

Lemma fetches_app (nth : nat) (a b : list Event) :
  fetches nth (a ++ b)%list = fetches nth a + fetches nth b.
Proof. unfold fetches. now rewrite List.filter_app, length_app. Qed.

Lemma fetches_seq (nth k n : nat) :
  fetches nth (EvExportsGet <$> seq k n) = if decide (k <= nth < k + n) then 1 else 0.
Proof.
  revert k. induction n as [|n IH]; intros k.
  - simpl. case_decide; [lia | reflexivity].
  - change (EvExportsGet <$> seq k (S n))
      with ([EvExportsGet k] ++ (EvExportsGet <$> seq (S k) n))%list.
    rewrite fetches_app, IH. unfold fetches. simpl.
    destruct (Nat.eqb_spec k nth); repeat case_decide; simpl; lia.
Qed.

Lemma fetches_walk (nth n : nat) : nth < n -> fetches nth (walk n) = 1.
Proof.
  intros Hlt. unfold walk.
  change (EvExportsLen :: (EvExportsGet <$> seq 0 n))
    with ([EvExportsLen] ++ (EvExportsGet <$> seq 0 n))%list.
  rewrite fetches_app, fetches_seq. case_decide; [reflexivity | lia].
Qed.

Lemma retrievals_app (a b : list Event) :
  retrievals (a ++ b)%list = retrievals a + retrievals b.
Proof. unfold retrievals. now rewrite List.filter_app, length_app. Qed.

Lemma retrievals_walk (n : nat) : retrievals (walk n) = 0.
Proof.
  unfold walk, retrievals. simpl.
  assert (forall k, List.filter (fun ev => match ev with
                                           | EvInstanceExports _ => true
                                           | _ => false
                                           end) (EvExportsGet <$> seq k n) = []) as Hnone
    by (induction n as [|n IH]; intros k; [reflexivity | apply IH]).
  now rewrite Hnone.
Qed.

(** C4, as the code has it.  A successful post-instantiation step retrieves
    the export table once and destroys it once, and walks it twice, each
    time in the engine's order: [retrieveExportedFunctions] fills the
    callable map on the first walk, [retrieveExportedMemory] sets the memory
    wrapper on the second. *)
Theorem export_table_retrieved_once_walked_twice
    (c : option handle) (p : option addr) (w w' : World) (i : Instance) :
  newInstanceWithImports c p w = Ret (i, None) w' ->
  exists h st,
    c = Some h /\ instances w !! h = Some st /\
    events_between w w' =
      (EvInstanceExports h
       :: walk (length (inst_exports st)) ++ walk (length (inst_exports st))
       ++ [EvExportsDestroy])%list /\
    retrievals (events_between w w') = 1 /\
    (forall nth, nth < length (inst_exports st) -> fetches nth (events_between w w') = 2) /\
    Exports i = Some (callable_map c (inst_exports st)) /\
    Memory i = last_memory (inst_exports st).
Proof.
  intros Hrun.
  destruct (newInstanceWithImports_inv c p w w' i Hrun) as (h & st & -> & Hh & Hf & Hm).
  rewrite (newInstanceWithImports_ok h p w st Hh Hf Hm) in Hrun.
  apply Ret_inj in Hrun as [Hi <-]. injection Hi as <-.
  exists h, st. rewrite events_between_log_all.
  repeat split; try reflexivity; try exact Hh.
  - change (EvInstanceExports h
            :: walk (length (inst_exports st)) ++ walk (length (inst_exports st))
            ++ [EvExportsDestroy])%list
      with ([EvInstanceExports h] ++ walk (length (inst_exports st))
            ++ walk (length (inst_exports st)) ++ [EvExportsDestroy])%list.
    rewrite !retrievals_app, !retrievals_walk. reflexivity.
  - intros nth Hlt.
    change (EvInstanceExports h
            :: walk (length (inst_exports st)) ++ walk (length (inst_exports st))
            ++ [EvExportsDestroy])%list
      with ([EvInstanceExports h] ++ walk (length (inst_exports st))
            ++ walk (length (inst_exports st)) ++ [EvExportsDestroy])%list.
    rewrite !fetches_app, !fetches_walk by exact Hlt. reflexivity.
Qed.

Lemma export_table_retrieved_once_walked_twice_witness :
  exists i w',
    newInstanceWithImports (Some 1) (Some 0) Demo.instantiated = Ret (i, None) w' /\
    events_between Demo.instantiated w' =
      [EvInstanceExports 1;
       EvExportsLen; EvExportsGet 0; EvExportsGet 1; EvExportsGet 2; EvExportsGet 3;
       EvExportsLen; EvExportsGet 0; EvExportsGet 1; EvExportsGet 2; EvExportsGet 3;
       EvExportsDestroy].
Proof.
  eexists _, _.
  assert (newInstanceWithImports (Some 1) (Some 0) Demo.instantiated = Ret _ _) as Hrun
    by (vm_compute; reflexivity).
  split; [exact Hrun|].
  destruct (export_table_retrieved_once_walked_twice _ _ _ _ _ Hrun)
    as (h & st & Hc & Hst & Hev & _).
  injection Hc as <-.
  assert (st = {| inst_exports := Demo.exports; inst_metering := None;
                  inst_points := 0; inst_context := 0 |}) as ->
    by (vm_compute in Hst; injection Hst as <-; reflexivity).
  rewrite Hev. reflexivity.
Defined.

(** C4 as stated fails: every entry of the table is fetched twice, not
    once. *)
Lemma export_table_walked_once_counterexample :
  exists i w',
    newInstanceWithImports (Some 1) (Some 0) Demo.instantiated = Ret (i, None) w' /\
    fetches 0 (events_between Demo.instantiated w') = 2 /\
    events_between Demo.instantiated w' <>
      (EvInstanceExports 1 :: walk 4 ++ [EvExportsDestroy])%list.
Proof.
  eexists _, _. split; [vm_compute; reflexivity|].
  split; [vm_compute; reflexivity|].
  vm_compute. discriminate.
Qed.

(** C7. For every successfully constructed [Instance], [HasMemory] is true
    exactly when the export table of its module has a memory export, and
    [Memory] wraps the last memory export in the order the engine
    enumerates them. *)
Theorem HasMemory_iff_memory_export
    (E : Engine) (op : InstantiateOp) (w w' : World) (i : Instance) :
  run_op E op w = Ret (i, None) w' ->
  exists h st,
    instance i = Some h /\ instances w' !! h = Some st /\
    HasMemory i = existsb is_memory (inst_exports st) /\
    Memory i = last_memory (inst_exports st) /\
    forall pre e post,
      inst_exports st = (pre ++ e :: post)%list ->
      is_memory e = true -> existsb is_memory post = false ->
      Memory i = Some (newMemory (export_memory e)).
Proof.
  intros Hrun.
  destruct (run_op_success E op w w' i Hrun) as (c & p & w1 & _ & Hpost).
  destruct (newInstanceWithImports_inv c p w1 w' i Hpost) as (h & st & -> & Hh & Hf & Hm).
  rewrite (newInstanceWithImports_ok h p w1 st Hh Hf Hm) in Hpost.
  apply Ret_inj in Hpost as [Hi <-]. injection Hi as <-.
  exists h, st. split; [reflexivity|]. split.
  { destruct (log_all_frame
                (EvInstanceExports h :: walk (length (inst_exports st))
                 ++ walk (length (inst_exports st)) ++ [EvExportsDestroy])%list w1)
      as (_ & _ & -> & _). exact Hh. }
  split; [apply HasMemory_last_memory|]. split; [reflexivity|].
  intros pre e post -> He Hpost. simpl. now apply last_memory_split.
Qed.

Lemma HasMemory_iff_memory_export_witness :
  exists i w',
    run_op Demo.engine (OpWithImports Demo.good (Some 0)) Demo.world = Ret (i, None) w' /\
    HasMemory i = true /\ Memory i = Some (newMemory (Some 101)).
Proof.
  eexists _, _.
  assert (run_op Demo.engine (OpWithImports Demo.good (Some 0)) Demo.world = Ret _ _) as Hrun
    by (vm_compute; reflexivity).
  split; [exact Hrun|].
  destruct (HasMemory_iff_memory_export _ _ _ _ _ Hrun) as (h & st & Hi & Hst & Hhas & Hmem & _).
  split; vm_compute; reflexivity.
Defined.

(* ===================================================================== *)
(** ** Formatting lemmas                                                 *)
(* ===================================================================== *)

Lemma Sprintf_other (c : ascii) (s : string) (args : list string) :
  Ascii.eqb c "%" = false ->
  Fmt.Sprintf (String c s) args = String c (Fmt.Sprintf s args).
Proof.
  destruct c as [[] [] [] [] [] [] [] []]; intros Hc; try discriminate Hc; reflexivity.
Qed.

Lemma Sprintf_plain (lit rest : string) (args : list string) :
  Fmt.plain lit = true ->
  Fmt.Sprintf (lit ++ rest) args = lit ++ Fmt.Sprintf rest args.
Proof.
  induction lit as [|c lit IH]; intros Hlit; [reflexivity|].
  simpl in Hlit. apply andb_prop in Hlit as [Hc Hlit].
  apply negb_true_iff in Hc.
  rewrite !string_app_cons, Sprintf_other by exact Hc.
  now rewrite IH.
Qed.

Lemma Sprintf_verb_s (rest a : string) (args : list string) :
  Fmt.Sprintf ("%s" ++ rest) (a :: args) = a ++ Fmt.Sprintf rest args.
Proof. reflexivity. Qed.

Lemma plain_digits (d : Decimal.uint) : Fmt.plain (NilEmpty.string_of_uint d) = true.
Proof. induction d; simpl; auto. Qed.

Lemma plain_dec (n : nat) : Fmt.plain (Fmt.dec n) = true.
Proof.
  unfold Fmt.dec, NilZero.string_of_uint.
  destruct (Nat.to_uint n) eqn:Hd; try reflexivity; rewrite <- Hd; apply plain_digits.
Qed.

Lemma contains_intro (a s b : string) : Fmt.contains (a ++ s ++ b) s.
Proof. now exists a, b. Qed.

(** The text of the arity error. *)
Lemma validateGivenArguments_Error {A} (name : string) (arguments : list A) (n : nat) :
  length arguments <> n ->
  exists err,
    validateGivenArguments name arguments n = Some err /\
    Error err =
      "Wrong number of arguments when calling the `" ++ name
      ++ "` exported function; Expect " ++ Fmt.dec n ++ " argument(s), given "
      ++ Fmt.dec (length arguments) ++ ".".
Proof.
  intros Hne. unfold validateGivenArguments.
  case_decide; [contradiction|].
  eexists; split; [reflexivity|].
  unfold NewExportedFunctionError, Error.
  change ("Wrong number of arguments when calling the `%s` exported function; Expect "
          ++ Fmt.dec n ++ " argument(s), given " ++ Fmt.dec (length arguments) ++ ".")
    with ("Wrong number of arguments when calling the `"
          ++ "%s" ++ "` exported function; Expect "
          ++ Fmt.dec n ++ " argument(s), given " ++ Fmt.dec (length arguments) ++ ".").
  rewrite Sprintf_plain by reflexivity.
  rewrite Sprintf_verb_s.
  rewrite Sprintf_plain by reflexivity.
  rewrite Sprintf_plain by apply plain_dec.
  rewrite Sprintf_plain by reflexivity.
  rewrite Sprintf_plain by apply plain_dec.
  reflexivity.
Qed.

Lemma events_between_refl (w : World) : events_between w w = [].
Proof. unfold events_between. now rewrite Nat.sub_diag. Qed.

(* ===================================================================== *)
(** ** Calling an export with the wrong number of arguments (C6)         *)
(* ===================================================================== *)

(** C6. Calling the wrapper of a function of input arity [n] with [k <> n]
    arguments returns the void value and an error that names the function
    and both counts; the world is left as it was, so the engine's call
    primitive is not invoked. *)
Theorem wrapper_arity_mismatch
    (E : Engine) (GoValue : Type) (goToWasm : cWasmerValueTag -> GoValue -> option Value)
    (goTypeName : GoValue -> string)
    (f : ExportedFunction) (arguments : list GoValue) (w : World) :
  length arguments <> wrapper_inputs_arity f ->
  exists err w',
    wrapper E GoValue goToWasm goTypeName f arguments w = Ret (void, Some err) w' /\
    w' = w /\
    (forall h name inputs, EvFuncCall h name inputs ∉ events_between w w') /\
    Fmt.contains (Error err) (wrapper_name f) /\
    Fmt.contains (Error err) (Fmt.dec (wrapper_inputs_arity f)) /\
    Fmt.contains (Error err) (Fmt.dec (length arguments)).
Proof.
  intros Hne.
  destruct (validateGivenArguments_Error (wrapper_name f) arguments (wrapper_inputs_arity f) Hne)
    as (err & Hval & Herr).
  exists err, w. unfold wrapper. rewrite Hval.
  split; [reflexivity|]. split; [reflexivity|]. split.
  { intros h name inputs. rewrite events_between_refl. apply not_elem_of_nil. }
  rewrite Herr. split; [apply contains_intro|]. split.
  - rewrite <- !(string_app_assoc _ _ (Fmt.dec (wrapper_inputs_arity f) ++ _)).
    apply contains_intro.
  - rewrite <- !(string_app_assoc _ _ (Fmt.dec (length arguments) ++ _)).
    apply contains_intro.
Qed.

Lemma wrapper_arity_mismatch_witness :
  exists err,
    wrapper Demo.engine Z Demo.goToWasm Demo.goTypeName Demo.sum_wrapper [3%Z]
      Demo.instantiated = Ret (void, Some err) Demo.instantiated /\
    Error err = "Wrong number of arguments when calling the `sum` exported function; Expect 2 argument(s), given 1.".
Proof.
  destruct (wrapper_arity_mismatch Demo.engine Z Demo.goToWasm Demo.goTypeName
              Demo.sum_wrapper [3%Z] Demo.instantiated)
    as (err & w' & Hrun & -> & _).
  - simpl. lia.
  - exists err. split; [exact Hrun|].
    vm_compute in Hrun. injection Hrun as <-. vm_compute. reflexivity.
Defined.

(* ===================================================================== *)
(** ** Points used (C8)                                                  *)
(* ===================================================================== *)

(** C8. On a live metered instance, [SetPointsUsed v] followed at once by
    [GetPointsUsed] returns [v], for every [u64] value [v]. *)
Theorem SetPointsUsed_then_GetPointsUsed
    (i : Instance) (h : handle) (st : InstanceState) (v : Z) (w : World) :
  instance i = Some h ->
  instances w !! h = Some st ->
  is_Some (inst_metering st) ->
  (0 <= v < 2 ^ 64)%Z ->
  exists w1 w2,
    SetPointsUsed i v w = Ret tt w1 /\
    GetPointsUsed i w1 = Ret v w2.
Proof.
  intros Hi Hst [m Hm] Hv.
  unfold SetPointsUsed, GetPointsUsed, cWasmerInstanceSetPointsUsed,
    cWasmerInstanceGetPointsUsed, with_instance, modify.
  rewrite Hi, Hst, Hm. do 2 eexists. split; [reflexivity|].
  simpl. rewrite lookup_insert_eq. simpl.
  unfold u64. now rewrite Z.mod_small.
Qed.

Lemma SetPointsUsed_then_GetPointsUsed_witness :
  exists i w0 w1 w2,
    run_op Demo.engine (OpMetered Demo.good (Some 0) 1000 None) Demo.world = Ret (i, None) w0 /\
    SetPointsUsed i 42 w0 = Ret tt w1 /\
    GetPointsUsed i w1 = Ret 42%Z w2.
Proof.
  eexists _, _.
  assert (run_op Demo.engine (OpMetered Demo.good (Some 0) 1000 None) Demo.world = Ret _ _)
    as Hrun by (vm_compute; reflexivity).
  match type of Hrun with
  | _ = Ret (?i, _) ?w0 =>
      destruct (SetPointsUsed_then_GetPointsUsed i 1
                  {| inst_exports := Demo.exports; inst_metering := Some (1000%Z, None);
                     inst_points := 0; inst_context := 0 |} 42 w0)
        as (w1 & w2 & Hset & Hget)
  end.
  - reflexivity.
  - vm_compute. reflexivity.
  - eexists. reflexivity.
  - lia.
  - exists w1, w2. split; [exact Hrun|]. split; [exact Hset | exact Hget].
Defined.

(* ===================================================================== *)
(** ** The registry                                                      *)
(* ===================================================================== *)

Lemma events_between_trace (evs : list Event) (w w' : World) :
  trace w' = (rev evs ++ trace w)%list -> events_between w w' = evs.
Proof.
  intros Ht. unfold events_between. rewrite Ht, length_app, length_rev.
  replace (length evs + length (trace w) - length (trace w)) with (length (rev evs))
    by (rewrite length_rev; lia).
  rewrite take_app_length. apply rev_involutive.
Qed.

Lemma entries_elem_of (i : Imports) (ns name : string) (f : ImportFunction) :
  (ns, name, f) ∈ entries i <-> lookup_import i ns name = Some f.
Proof.
  unfold entries, lookup_import. rewrite list_elem_of_bind. split.
  - intros ([ns' m] & Hin & Hm). apply elem_of_map_to_list in Hm. simpl in Hin.
    apply list_elem_of_bind in Hin as ([name' f'] & Hin & Hf).
    apply elem_of_map_to_list in Hf. apply list_elem_of_singleton in Hin.
    injection Hin as -> -> ->. rewrite Hm. exact Hf.
  - intros Hl. destruct (imports i !! ns) as [m|] eqn:Hm; [|discriminate].
    simpl in Hl. exists (ns, m). split; [|now apply elem_of_map_to_list].
    simpl. apply list_elem_of_bind. exists (name, f).
    split; [apply list_elem_of_singleton; reflexivity | now apply elem_of_map_to_list].
Qed.

Lemma Count_entries (i : Imports) : length (entries i) = Count i.
Proof.
  unfold entries, Count.
  induction (map_to_list (imports i)) as [|[ns m] l IH]; [reflexivity|].
  rewrite bind_cons, length_app, IH, fmap_cons. simpl. f_equal.
  rewrite <- length_map_to_list.
  induction (map_to_list m) as [|[name f] l' IH']; [reflexivity|].
  rewrite bind_cons. simpl. now rewrite IH'.
Qed.

Lemma cache_lookup_eq (i : Imports) (ns name : string) (h : handle) :
  lookup_import (cache i (ns, name, h)) ns name = set_pointer (Some h) <$> lookup_import i ns name.
Proof.
  unfold lookup_import, cache. simpl. rewrite lookup_alter_eq.
  destruct (imports i !! ns) as [m|]; [|reflexivity].
  simpl. apply lookup_alter_eq.
Qed.

Lemma cache_lookup_ne (i : Imports) (ns0 name0 ns name : string) (h : handle) :
  (ns0, name0) <> (ns, name) ->
  lookup_import (cache i (ns0, name0, h)) ns name = lookup_import i ns name.
Proof.
  intros Hne. unfold lookup_import, cache. simpl.
  destruct (decide (ns0 = ns)) as [->|Hns].
  - rewrite lookup_alter_eq. destruct (imports i !! ns) as [m|]; [|reflexivity].
    simpl. apply lookup_alter_ne. congruence.
  - now rewrite lookup_alter_ne.
Qed.

(** After a run of stores, a function either holds the handle of a store
    made under its key, or no store was made under its key and it is as it
    was. *)
Lemma cache_all_lookup (steps : list (string * string * handle)) (i : Imports)
    (ns name : string) (f' : ImportFunction) :
  lookup_import (foldl cache i steps) ns name = Some f' ->
  (exists h, (ns, name, h) ∈ steps /\ importedFunctionPointer f' = Some h) \/
  ((forall h, (ns, name, h) ∉ steps) /\ lookup_import i ns name = Some f').
Proof.
  revert i. induction steps as [|[[ns0 name0] h0] steps IH]; intros i Hl.
  - right. split; [intros h; apply not_elem_of_nil | exact Hl].
  - cbn [foldl] in Hl. destruct (IH _ Hl) as [(h & Hin & Hp)|[Hnot Hl']].
    + left. exists h. split; [now apply list_elem_of_further | exact Hp].
    + destruct (decide ((ns0, name0) = (ns, name))) as [Heq|Hne].
      * injection Heq as -> ->. rewrite cache_lookup_eq in Hl'.
        destruct (lookup_import i ns name) as [f0|]; [|discriminate].
        injection Hl' as <-. left. exists h0. split; [apply list_elem_of_here | reflexivity].
      * rewrite cache_lookup_ne in Hl' by exact Hne. right. split; [|exact Hl'].
        intros h Hin. apply elem_of_cons in Hin as [Heq|Hin]; [congruence | now apply (Hnot h)].
Qed.

Lemma assign_elem_of (todo : list (string * string * ImportFunction)) (h0 : handle)
    (ns name : string) (h : handle) :
  (ns, name, h) ∈ assign h0 todo -> h0 <= h < h0 + length todo.
Proof.
  revert h0. induction todo as [|[[ns0 name0] f0] todo IH]; intros h0 Hin.
  - now apply elem_of_nil in Hin.
  - simpl in Hin. apply elem_of_cons in Hin as [Heq|Hin].
    + injection Heq as -> -> ->. simpl. lia.
    + apply IH in Hin. simpl. lia.
Qed.

Lemma assign_covers (todo : list (string * string * ImportFunction)) (h0 : handle)
    (ns name : string) (f : ImportFunction) :
  (ns, name, f) ∈ todo -> exists h, (ns, name, h) ∈ assign h0 todo.
Proof.
  revert h0. induction todo as [|[[ns0 name0] f0] todo IH]; intros h0 Hin.
  - now apply elem_of_nil in Hin.
  - apply elem_of_cons in Hin as [Heq|Hin].
    + injection Heq as -> -> ->. exists h0. apply list_elem_of_here.
    + destruct (IH (S h0) Hin) as [h Hh]. exists h. simpl. now apply list_elem_of_further.
Qed.

Lemma NoDup_entries (i : Imports) : NoDup (entries i).
Proof.
  unfold entries. apply NoDup_bind; [| |apply NoDup_map_to_list].
  - intros [ns1 m1] [ns2 m2] [[ns name] f] H1 H2 Hy1 Hy2.
    apply list_elem_of_bind in Hy1 as ([n1 f1] & Hy1 & _).
    apply list_elem_of_bind in Hy2 as ([n2 f2] & Hy2 & _).
    apply list_elem_of_singleton in Hy1. apply list_elem_of_singleton in Hy2.
    injection Hy1 as -> _ _. injection Hy2 as -> _ _.
    apply elem_of_map_to_list in H1. apply elem_of_map_to_list in H2. congruence.
  - intros [ns m] _. apply NoDup_bind; [| |apply NoDup_map_to_list].
    + intros [n1 f1] [n2 f2] y _ _ Hy1 Hy2.
      apply list_elem_of_singleton in Hy1. apply list_elem_of_singleton in Hy2. congruence.
    + intros [n f] _. apply NoDup_singleton.
Qed.

Lemma entries_key_unique (i : Imports) (k k' : nat) (ns name : string)
    (f f' : ImportFunction) :
  entries i !! k = Some (ns, name, f) -> entries i !! k' = Some (ns, name, f') -> k = k'.
Proof.
  intros Hk Hk'.
  assert (f = f') as <-.
  { apply list_elem_of_lookup_2, entries_elem_of in Hk.
    apply list_elem_of_lookup_2, entries_elem_of in Hk'. congruence. }
  exact (proj1 (NoDup_alt (entries i)) (NoDup_entries i) k k' _ Hk Hk').
Qed.

Lemma cache_presence (i : Imports) (t : string * string * handle) (ns name : string) :
  is_Some (lookup_import (cache i t) ns name) <-> is_Some (lookup_import i ns name).
Proof.
  destruct t as [[ns0 name0] h].
  destruct (decide ((ns0, name0) = (ns, name))) as [Heq|Hne].
  - injection Heq as -> ->. rewrite cache_lookup_eq. apply fmap_is_Some.
  - now rewrite cache_lookup_ne.
Qed.

Lemma cache_all_presence (steps : list (string * string * handle)) (i : Imports)
    (ns name : string) :
  is_Some (lookup_import (foldl cache i steps) ns name) <-> is_Some (lookup_import i ns name).
Proof.
  revert i. induction steps as [|t steps IH]; intros i; [reflexivity|].
  cbn [foldl]. rewrite IH. apply cache_presence.
Qed.

Lemma assign_lookup (todo : list (string * string * ImportFunction)) (h0 k : nat)
    (ns name : string) (f : ImportFunction) :
  todo !! k = Some (ns, name, f) -> assign h0 todo !! k = Some (ns, name, h0 + k).
Proof.
  revert h0 k. induction todo as [|[[ns0 name0] f0] todo IH]; intros h0 k Hk; [discriminate|].
  destruct k as [|k].
  - simpl in Hk. injection Hk as -> -> ->. simpl. now rewrite Nat.add_0_r.
  - change (todo !! k = Some (ns, name, f)) in Hk.
    change (assign (S h0) todo !! k = Some (ns, name, h0 + S k)).
    rewrite (IH (S h0) k Hk). do 2 f_equal. lia.
Qed.

Lemma assign_elem_inv (todo : list (string * string * ImportFunction)) (h0 : nat)
    (ns name : string) (h : handle) :
  (ns, name, h) ∈ assign h0 todo ->
  exists k f, todo !! k = Some (ns, name, f) /\ h = h0 + k.
Proof.
  revert h0. induction todo as [|[[ns0 name0] f0] todo IH]; intros h0 Hin.
  - now apply elem_of_nil in Hin.
  - simpl in Hin. apply elem_of_cons in Hin as [Heq|Hin].
    + injection Heq as -> -> ->. exists 0, f0. split; [reflexivity | lia].
    + destruct (IH (S h0) Hin) as (k & f & Hk & ->). exists (S k), f. split; [exact Hk | lia].
Qed.

(** After materialising, the function visited [k]-th holds the [k]-th
    handle created. *)
Lemma materialised_pointer (i : Imports) (h0 k : nat) (ns name : string) (f : ImportFunction) :
  entries i !! k = Some (ns, name, f) ->
  exists f', lookup_import (foldl cache i (assign h0 (entries i))) ns name = Some f' /\
             importedFunctionPointer f' = Some (h0 + k).
Proof.
  intros Hk.
  assert (is_Some (lookup_import (foldl cache i (assign h0 (entries i))) ns name)) as [f' Hf'].
  { apply cache_all_presence. apply list_elem_of_lookup_2, entries_elem_of in Hk.
    rewrite Hk. eauto. }
  exists f'. split; [exact Hf'|].
  destruct (cache_all_lookup _ _ _ _ _ Hf') as [(h & Hin & Hp)|[Hnot _]].
  - apply assign_elem_inv in Hin as (k' & f'' & Hk' & ->).
    now rewrite (entries_key_unique i k k' ns name f f'' Hk Hk').
  - exfalso. apply (Hnot (h0 + k)).
    eapply list_elem_of_lookup_2, assign_lookup, Hk.
Qed.

(** The handles the registry holds after materialising are exactly the
    handles that run created. *)
Lemma materialised_held_handles (i : Imports) (h0 : nat) (x : handle) :
  x ∈ held_handles (foldl cache i (assign h0 (entries i))) <-> h0 <= x < h0 + Count i.
Proof.
  unfold held_handles. rewrite list_elem_of_omap. split.
  - intros ([[ns name] f'] & Hin & Hp). simpl in Hp.
    apply entries_elem_of in Hin.
    destruct (cache_all_lookup _ _ _ _ _ Hin) as [(h & Hin' & Hp')|[Hnot Hl]].
    + apply assign_elem_of in Hin'. rewrite Count_entries in Hin'. congruence.
    + apply entries_elem_of in Hl.
      destruct (assign_covers _ h0 _ _ _ Hl) as [h Hh]. now destruct (Hnot h).
  - intros Hx.
    assert (x - h0 < length (entries i)) as Hlt by (rewrite Count_entries; lia).
    destruct (lookup_lt_is_Some_2 _ _ Hlt) as [[[ns name] f] Hk].
    destruct (materialised_pointer i h0 (x - h0) ns name f Hk) as (f' & Hl & Hp).
    exists (ns, name, f'). split; [now apply entries_elem_of|].
    simpl. rewrite Hp. f_equal. lia.
Qed.

(* ===================================================================== *)
(** ** Materialising the registry (C3)                                   *)
(* ===================================================================== *)

Lemma materialize_one_eq (a : addr) (ns name : string) (f : ImportFunction)
    (wasmImports : list cWasmerImportT) (nth : nat) (w : World) :
  nth < length wasmImports ->
  materialize_one a (ns, name, f) wasmImports nth w =
    Ret (<[nth := cNewWasmerImportT (namespace f) name (Some (next_handle w))]> wasmImports,
         S nth)
        (created a w (ns, name, f)).
Proof.
  intros Hlt. unfold materialize_one, bind, cWasmerImportFuncNew, store_pointer, created.
  simpl. destruct (elements_are_pointers w);
    (case_decide; [reflexivity | contradiction]).
Qed.

Lemma next_handle_created (a : addr) (w : World) (e : string * string * ImportFunction) :
  next_handle (created a w e) = S (next_handle w).
Proof.
  destruct e as [[ns name] f]. unfold created. now destruct (elements_are_pointers w).
Qed.

Lemma elements_are_pointers_created (a : addr) (w : World)
    (e : string * string * ImportFunction) :
  elements_are_pointers (created a w e) = elements_are_pointers w.
Proof.
  destruct e as [[ns name] f]. unfold created.
  destruct (elements_are_pointers w) eqn:Hk; exact Hk.
Qed.

(** The loop never indexes out of range when the slice has room for the
    entries still to visit; it returns the records filled in and leaves the
    world as [created] describes, entry after entry. *)
Lemma materialize_eq (a : addr) (todo : list (string * string * ImportFunction))
    (wasmImports : list cWasmerImportT) (nth : nat) (w : World) :
  nth + length todo <= length wasmImports ->
  exists wasmImports',
    materialize a todo wasmImports nth w =
      Ret (wasmImports', nth + length todo) (foldl (created a) w todo) /\
    length wasmImports' = length wasmImports /\
    (forall j, j < nth -> wasmImports' !! j = wasmImports !! j) /\
    (forall k ns name f, todo !! k = Some (ns, name, f) ->
       wasmImports' !! (nth + k) =
         Some (cNewWasmerImportT (namespace f) name (Some (next_handle w + k)))).
Proof.
  revert wasmImports nth w.
  induction todo as [|[[ns name] f] todo IH]; intros wasmImports nth w Hroom.
  - exists wasmImports. simpl. rewrite Nat.add_0_r.
    split; [reflexivity|]. split; [reflexivity|]. split; [now intros|].
    intros k ? ? ? Hk. discriminate Hk.
  - simpl in Hroom.
    destruct (IH (<[nth := cNewWasmerImportT (namespace f) name (Some (next_handle w))]>
                    wasmImports) (S nth) (created a w (ns, name, f)))
      as (wi' & Hrun & Hlen & Hlow & Hrec).
    { rewrite length_insert. lia. }
    exists wi'. split; [|split; [|split]].
    + cbn [materialize foldl length].
      erewrite bind_Ret by (apply materialize_one_eq; lia).
      cbv beta iota. rewrite Hrun. f_equal. f_equal. lia.
    + now rewrite Hlen, length_insert.
    + intros j Hj. rewrite Hlow by lia. apply list_lookup_insert_ne. lia.
    + intros [|k] ns' name' f' Hk.
      * injection Hk as <- <- <-. rewrite !Nat.add_0_r, Hlow by lia.
        apply list_lookup_insert_eq. lia.
      * simpl in Hk. rewrite next_handle_created in Hrec.
        replace (nth + S k) with (S nth + k) by lia.
        replace (next_handle w + S k) with (S (next_handle w) + k) by lia.
        exact (Hrec k ns' name' f' Hk).
Qed.

Lemma created_all (a : addr) (todo : list (string * string * ImportFunction))
    (w : World) (i : Imports) :
  heap w !! a = Some i ->
  next_handle (foldl (created a) w todo) = next_handle w + length todo /\
  trace (foldl (created a) w todo) =
    (rev (EvImportFuncNew <$> seq (next_handle w) (length todo)) ++ trace w)%list /\
  heap (foldl (created a) w todo) !! a =
    Some (if elements_are_pointers w
          then foldl cache i (assign (next_handle w) todo) else i) /\
  (forall h, h < next_handle w -> funcs (foldl (created a) w todo) !! h = funcs w !! h).
Proof.
  revert w i. induction todo as [|[[ns name] f] todo IH]; intros w i Hi.
  - simpl. rewrite Nat.add_0_r. split; [reflexivity|]. split; [reflexivity|].
    split; [|reflexivity]. now destruct (elements_are_pointers w).
  - cbn [foldl assign length].
    destruct (IH (created a w (ns, name, f))
                (if elements_are_pointers w then cache i (ns, name, next_handle w) else i))
      as (Hn & Ht & Hh & Hf).
    { unfold created. destruct (elements_are_pointers w); simpl; [|exact Hi].
      rewrite lookup_alter_eq, Hi. reflexivity. }
    rewrite elements_are_pointers_created in Hh.
    rewrite next_handle_created in *.
    assert (trace (created a w (ns, name, f)) = EvImportFuncNew (next_handle w) :: trace w)
      as Ht1 by (unfold created; now destruct (elements_are_pointers w)).
    assert (forall h, h <> next_handle w ->
              funcs (created a w (ns, name, f)) !! h = funcs w !! h) as Hf1.
    { intros h Hne. unfold created. destruct (elements_are_pointers w); simpl;
        now apply lookup_insert_ne. }
    split; [lia|]. split; [|split].
    + rewrite Ht, Ht1. simpl. now rewrite <- app_assoc.
    + rewrite Hh. now destruct (elements_are_pointers w).
    + intros h Hlt. rewrite Hf by lia. apply Hf1. lia.
Qed.

(** When the map holds structs, materialising leaves every registry as it
    was. *)
Lemma created_all_structs (a : addr) (todo : list (string * string * ImportFunction))
    (w : World) :
  elements_are_pointers (foldl (created a) w todo) = elements_are_pointers w /\
  (elements_are_pointers w = false -> heap (foldl (created a) w todo) = heap w).
Proof.
  revert w. induction todo as [|e todo IH]; intros w; [now split|].
  cbn [foldl]. destruct (IH (created a w e)) as (Hk & Hh).
  rewrite elements_are_pointers_created in *. split; [exact Hk|].
  intros Hv. rewrite (Hh Hv). destruct e as [[ns name] f]. unfold created. now rewrite Hv.
Qed.

(** Materialising the registry at [a] leaves every other registry as it
    was. *)
Lemma created_all_other (a b : addr) (todo : list (string * string * ImportFunction))
    (w : World) :
  b <> a -> heap (foldl (created a) w todo) !! b = heap w !! b.
Proof.
  intros Hne. revert w. induction todo as [|[[ns name] f] todo IH]; intros w; [reflexivity|].
  cbn [foldl]. rewrite IH. unfold created.
  destruct (elements_are_pointers w); simpl; [|reflexivity].
  now apply lookup_alter_ne.
Qed.

(** The handles a registry holds after a materialisation: the handles of
    that run with pointers in the map, the handles it held before with
    structs. *)
Lemma held_handles_materialised (pointers : bool) (h0 : handle) (i : Imports) (x : handle) :
  x ∈ held_handles (materialised pointers h0 i) <->
  if pointers then h0 <= x < h0 + Count i else x ∈ held_handles i.
Proof.
  destruct pointers; simpl; [apply materialised_held_handles | reflexivity].
Qed.

Lemma funcs_created (a : addr) (w : World) (e : string * string * ImportFunction) (h : handle) :
  is_Some (funcs w !! h) \/ h = next_handle w -> is_Some (funcs (created a w e) !! h).
Proof.
  destruct e as [[ns name] f]. intros Hcase.
  assert (funcs (created a w (ns, name, f)) =
            <[next_handle w := {| if_cgoPointer := cgoPointer f; if_params := wasmInputs f;
                                  if_returns := wasmOutputs f |}]> (funcs w)) as ->
    by (unfold created; now destruct (elements_are_pointers w)).
  destruct Hcase as [Hs| ->].
  - destruct (decide (next_handle w = h)) as [Heq|Hne].
    + rewrite Heq. rewrite lookup_insert_eq. eauto.
    + now rewrite lookup_insert_ne.
  - rewrite lookup_insert_eq. eauto.
Qed.

(** Handles that were live, and the handles of the entries visited, are
    live after the loop. *)
Lemma created_live (a : addr) (todo : list (string * string * ImportFunction))
    (w : World) (h : handle) :
  is_Some (funcs w !! h) \/ (next_handle w <= h < next_handle w + length todo) ->
  is_Some (funcs (foldl (created a) w todo) !! h).
Proof.
  revert w. induction todo as [|e todo IH]; intros w [Hs|Hr].
  - exact Hs.
  - simpl in Hr. lia.
  - cbn [foldl]. apply IH. left. apply funcs_created. now left.
  - cbn [foldl]. apply IH. cbn [length] in Hr.
    destruct (decide (h = next_handle w)) as [Heq|Hne].
    + left. apply funcs_created. now right.
    + right. rewrite next_handle_created. lia.
Qed.

(** C3, as the code has it.  Each run of [generateWasmerImports] on a
    registry calls [cWasmerImportFuncNew] once per [ImportFunction] and puts
    the handle just created in the record handed to the engine; the handles
    are new ones every time (a later run never reuses one), and older
    handles stay live.  The handle is also assigned to the loop's
    [ImportFunction].  When the map holds pointers, the registry is then the
    one before with, on every registered function, the handle just created
    for it in place of whatever it held: the handles it holds are those of
    this run and no other.  When the map holds structs, the registry is left
    as it was.  Other registries are not touched. *)
Theorem generateWasmerImports_creates_a_handle_per_function_each_time
    (a : addr) (i : Imports) (w : World) :
  heap w !! a = Some i ->
  exists p w',
    generateWasmerImports (Some a) w = Ret (p, Count i) w' /\
    events_between w w' = EvImportFuncNew <$> seq (next_handle w) (Count i) /\
    next_handle w' = next_handle w + Count i /\
    (forall k ns name f, entries i !! k = Some (ns, name, f) ->
       p ≫= (fun records : list cWasmerImportT => records !! k) =
         Some (cNewWasmerImportT (namespace f) name (Some (next_handle w + k))) /\
       is_Some (funcs w' !! (next_handle w + k))) /\
    (forall h, h < next_handle w -> funcs w' !! h = funcs w !! h) /\
    (elements_are_pointers w = true ->
       exists i', heap w' !! a = Some i' /\
         i' = foldl cache i (assign (next_handle w) (entries i)) /\
         (forall k ns name f, entries i !! k = Some (ns, name, f) ->
            exists f', lookup_import i' ns name = Some f' /\
                       importedFunctionPointer f' = Some (next_handle w + k)) /\
         (forall x, x ∈ held_handles i' <->
                    next_handle w <= x < next_handle w + Count i)) /\
    (elements_are_pointers w = false -> heap w' = heap w) /\
    (forall b, b <> a -> heap w' !! b = heap w !! b).
Proof.
  intros Hi.
  destruct (materialize_eq a (entries i) (replicate (Count i) zeroImportT) 0 w)
    as (wi' & Hrun & Hlen & _ & Hrec).
  { rewrite length_replicate, Count_entries. lia. }
  destruct (created_all a (entries i) w i Hi) as (Hn & Ht & Hh & Hf).
  destruct (created_all_structs a (entries i) w) as (_ & Hstructs).
  rewrite Count_entries in *.
  eexists _, _. split; [|split; [|split; [|split; [|split; [|split; [|split]]]]]].
  - unfold generateWasmerImports, deref, bind at 1. rewrite Hi.
    erewrite bind_Ret by exact Hrun. reflexivity.
  - now apply events_between_trace.
  - exact Hn.
  - intros k ns name f Hk.
    assert (k < Count i) as Hlt
      by (apply lookup_lt_Some in Hk; now rewrite Count_entries in Hk).
    split.
    + case_decide; [|lia]. simpl. exact (Hrec k ns name f Hk).
    + apply created_live. right. rewrite Count_entries. lia.
  - exact Hf.
  - intros Hp. rewrite Hp in Hh. eexists. split; [exact Hh|]. split; [reflexivity|]. split.
    + intros k ns name f Hk. exact (materialised_pointer i (next_handle w) k ns name f Hk).
    + intros x. apply materialised_held_handles.
  - exact Hstructs.
  - intros b Hne. now apply created_all_other.
Qed.

Lemma generateWasmerImports_creates_a_handle_per_function_each_time_witness :
  exists p w',
    generateWasmerImports (Some 0) Demo.world = Ret (p, 1) w' /\
    events_between Demo.world w' = [EvImportFuncNew 0].
Proof.
  destruct (generateWasmerImports_creates_a_handle_per_function_each_time 0
              {| imports := {[ "env" := {[ "sum" := Demo.sum ]} ]} |} Demo.world)
    as (p & w' & Hrun & Hev & _).
  - vm_compute. reflexivity.
  - exists p, w'. split; [exact Hrun | exact Hev].
Defined.

(** C3 as stated fails, whichever the map holds: materialising the same
    registry again creates a new handle and hands that one to the engine;
    the handle the first run created is not reused (and stays live).  With
    pointers the registry holds the handle of the latest run; with structs
    it holds none, before and after. *)
Lemma second_materialisation_counterexample :
  (exists w1 w2,
     generateWasmerImports (Some 0) Demo.world =
       Ret (Some [cNewWasmerImportT "env" "sum" (Some 0)], 1) w1 /\
     generateWasmerImports (Some 0) w1 =
       Ret (Some [cNewWasmerImportT "env" "sum" (Some 1)], 1) w2 /\
     events_between w1 w2 = [EvImportFuncNew 1] /\
     cached_handle w1 0 "env" "sum" = Some 0 /\
     cached_handle w2 0 "env" "sum" = Some 1 /\
     is_Some (funcs w2 !! 0)) /\
  (exists w1 w2,
     generateWasmerImports (Some 0) Demo.world_of_structs =
       Ret (Some [cNewWasmerImportT "env" "sum" (Some 0)], 1) w1 /\
     generateWasmerImports (Some 0) w1 =
       Ret (Some [cNewWasmerImportT "env" "sum" (Some 1)], 1) w2 /\
     events_between w1 w2 = [EvImportFuncNew 1] /\
     cached_handle w1 0 "env" "sum" = None /\
     cached_handle w2 0 "env" "sum" = None /\
     is_Some (funcs w2 !! 0)).
Proof.
  split; eexists _, _;
    (split; [vm_compute; reflexivity|]);
    (split; [vm_compute; reflexivity|]);
    (split; [vm_compute; reflexivity|]);
    (split; [vm_compute; reflexivity|]);
    (split; [vm_compute; reflexivity|]);
    vm_compute; eexists; reflexivity.
Qed.

(* ===================================================================== *)
(** ** Closing (C2)                                                      *)
(* ===================================================================== *)

Lemma destroyed_frame (hs : list handle) (w : World) :
  heap (destroyed hs w) = heap w /\ instances (destroyed hs w) = instances w /\
  trace (destroyed hs w) = (rev (EvImportFuncDestroy <$> hs) ++ trace w)%list.
Proof.
  revert w. induction hs as [|h hs IH]; intros w; [now repeat split|].
  unfold destroyed in *. cbn [foldl].
  destruct (IH (log (EvImportFuncDestroy h) (set_funcs (delete h) w))) as (Hh & Hi & Ht).
  rewrite Hh, Hi, Ht. repeat split. simpl. now rewrite <- app_assoc.
Qed.

Lemma destroyed_funcs_None (hs : list handle) (w : World) (h : handle) :
  funcs w !! h = None -> funcs (destroyed hs w) !! h = None.
Proof.
  revert w. induction hs as [|h0 hs IH]; intros w Hnone; [exact Hnone|].
  unfold destroyed in *. cbn [foldl]. apply IH. simpl.
  rewrite lookup_delete. now case_decide.
Qed.

Lemma destroyed_funcs_in (hs : list handle) (w : World) (h : handle) :
  h ∈ hs -> funcs (destroyed hs w) !! h = None.
Proof.
  revert w. induction hs as [|h0 hs IH]; intros w Hin; [now apply elem_of_nil in Hin|].
  apply elem_of_cons in Hin as [->|Hin].
  - unfold destroyed. cbn [foldl]. apply (destroyed_funcs_None hs). simpl.
    apply lookup_delete_eq.
  - unfold destroyed. cbn [foldl]. now apply IH.
Qed.

Lemma omap_all_None {A B} (f : A -> option B) (l : list A) :
  (forall x, x ∈ l -> f x = None) -> omap f l = [].
Proof.
  induction l as [|x l IH]; intros Hall; [reflexivity|].
  simpl. rewrite (Hall x) by apply list_elem_of_here.
  apply IH. intros y Hy. apply Hall. now apply list_elem_of_further.
Qed.

Lemma held_handles_clear (i : Imports) : held_handles (clear_pointers i) = [].
Proof.
  unfold held_handles. apply omap_all_None. intros [[ns name] f] Hin.
  apply entries_elem_of in Hin. unfold lookup_import, clear_pointers in Hin.
  simpl in *. rewrite lookup_fmap in Hin.
  destruct (imports i !! ns) as [m|]; [|discriminate].
  simpl in Hin. rewrite lookup_fmap in Hin.
  destruct (m !! name) as [f0|]; [|discriminate].
  now injection Hin as <-.
Qed.

Lemma clear_pointers_idem (i : Imports) :
  clear_pointers (clear_pointers i) = clear_pointers i.
Proof.
  unfold clear_pointers. simpl. f_equal.
  rewrite <- map_fmap_compose. apply map_fmap_ext. intros ns m _. simpl.
  rewrite <- map_fmap_compose. now apply map_fmap_ext.
Qed.

Lemma set_heap_insert_id (a : addr) (i : Imports) (w : World) :
  heap w !! a = Some i -> set_heap (insert a i) w = w.
Proof.
  intros Hi. destruct w. unfold set_heap. simpl in *. f_equal. now apply insert_id.
Qed.

Lemma Imports_Close_eq (a : addr) (i : Imports) (w : World) :
  heap w !! a = Some i ->
  Imports_Close (Some a) w =
    Ret tt (set_heap (insert a (clear_pointers i)) (destroyed (held_handles i) w)).
Proof. intros Hi. unfold Imports_Close, deref, bind at 1. now rewrite Hi. Qed.

Lemma Imports_Close_inv (p : option addr) (w w' : World) :
  Imports_Close p w = Ret tt w' ->
  exists a i, p = Some a /\ heap w !! a = Some i /\ heap w' !! a = Some (clear_pointers i).
Proof.
  intros Hrun. destruct p as [a|]; [|discriminate].
  destruct (heap w !! a) as [i|] eqn:Hi.
  - rewrite (Imports_Close_eq a i w Hi) in Hrun. apply Ret_inj in Hrun as [_ <-].
    exists a, i. repeat split; [exact Hi|]. simpl. apply lookup_insert_eq.
  - unfold Imports_Close, deref, bind in Hrun. rewrite Hi in Hrun. discriminate.
Qed.

(** Closing a registry a second time changes nothing. *)
Lemma Imports_Close_again (a : addr) (i : Imports) (w : World) :
  heap w !! a = Some (clear_pointers i) -> Imports_Close (Some a) w = Ret tt w.
Proof.
  intros Hi. rewrite (Imports_Close_eq a _ w Hi).
  rewrite held_handles_clear, clear_pointers_idem. unfold destroyed. simpl.
  now rewrite set_heap_insert_id.
Qed.

Lemma Clean_eq (i : Instance) (w : World) : Clean i w = Ret tt (after_destroy i w).
Proof. unfold Clean, after_destroy. now destruct (instance i). Qed.

Lemma after_destroy_frame (i : Instance) (w : World) :
  heap (after_destroy i w) = heap w /\ funcs (after_destroy i w) = funcs w /\
  events_between w (after_destroy i w) =
    match instance i with Some h => [EvInstanceDestroy h] | None => [] end.
Proof.
  unfold after_destroy. destruct (instance i) as [h|].
  - repeat split. now apply events_between_trace.
  - repeat split. apply events_between_refl.
Qed.

(** C2, as the code has it.  [Close] on an [Instance] whose instance handle
    and imports are nil, or [Close] right after a [Close] of the same
    [Instance], returns without fault and releases no import handle; with a
    nil instance handle it changes nothing at all. *)
Theorem Close_on_nil_or_again_releases_no_import
    (i : Instance) (w : World) :
  (instance i = None /\ instance_imports i = None) \/ (exists w0, Close i w0 = Ret tt w) ->
  exists w',
    Close i w = Ret tt w' /\
    funcs w' = funcs w /\ heap w' = heap w /\
    (forall h, EvImportFuncDestroy h ∉ events_between w w') /\
    (instance i = None -> w' = w).
Proof.
  intros Hcase.
  assert (Close i w = Ret tt (after_destroy i w)) as Hrun.
  { destruct Hcase as [[Hi Hp]|[w0 Hfirst]].
    - unfold Close. rewrite Hp. rewrite <- Clean_eq. reflexivity.
    - unfold Close in *. destruct (instance_imports i) as [a|] eqn:Hp.
      + apply bind_inv in Hfirst as ([] & wa & Hclose & Hdestroy).
        apply Imports_Close_inv in Hclose as (a' & reg & Ha & _ & Hreg).
        injection Ha as <-.
        assert (heap w = heap wa) as Hheap.
        { destruct (instance i); unfold cWasmerInstanceDestroy, modify, ret in Hdestroy;
            apply Ret_inj in Hdestroy as [_ <-]; reflexivity. }
        rewrite <- Hheap in Hreg.
        erewrite bind_Ret by (eapply Imports_Close_again; exact Hreg).
        rewrite <- Clean_eq. reflexivity.
      + rewrite <- Clean_eq. reflexivity. }
  exists (after_destroy i w). split; [exact Hrun|].
  destruct (after_destroy_frame i w) as (Hh & Hf & Hev).
  split; [exact Hf|]. split; [exact Hh|]. split.
  - intros h. rewrite Hev. destruct (instance i).
    + intros Hin. apply list_elem_of_singleton in Hin. discriminate.
    + apply not_elem_of_nil.
  - intros Hi. unfold after_destroy. now rewrite Hi.
Qed.

Lemma Close_on_nil_or_again_releases_no_import_witness :
  exists i w1 w2 w3,
    run_op Demo.engine (OpWithImports Demo.good (Some 0)) Demo.world = Ret (i, None) w1 /\
    Close i w1 = Ret tt w2 /\
    Close i w2 = Ret tt w3 /\ funcs w3 = funcs w2 /\ heap w3 = heap w2.
Proof.
  eexists _, _, _.
  assert (run_op Demo.engine (OpWithImports Demo.good (Some 0)) Demo.world = Ret _ _) as Hrun
    by (vm_compute; reflexivity).
  match type of Hrun with
  | _ = Ret (?i, _) ?w1 =>
      assert (Close i w1 = Ret tt _) as Hfirst by (vm_compute; reflexivity);
      match type of Hfirst with
      | _ = Ret tt ?w2 =>
          destruct (Close_on_nil_or_again_releases_no_import i w2) as (w3 & Hsecond & Hf & Hh & _)
      end
  end.
  - right. eexists. exact Hfirst.
  - exists w3. split; [exact Hrun|]. split; [exact Hfirst|].
    split; [exact Hsecond|]. split; [exact Hf | exact Hh].
Defined.

(** C2 as stated fails: the second [Close] of a live [Instance] invokes the
    engine's instance-destroy primitive on the same handle again; it is not
    a no-op.  So it is whether the registry's map holds pointers or
    structs. *)
Lemma second_Close_counterexample :
  (exists i w1 w2 w3,
     run_op Demo.engine (OpWithImports Demo.good (Some 0)) Demo.world = Ret (i, None) w1 /\
     Close i w1 = Ret tt w2 /\
     events_between w1 w2 = [EvImportFuncDestroy 0; EvInstanceDestroy 1] /\
     Close i w2 = Ret tt w3 /\
     events_between w2 w3 = [EvInstanceDestroy 1] /\
     w3 <> w2) /\
  (exists i w1 w2 w3,
     run_op Demo.engine (OpWithImports Demo.good (Some 0)) Demo.world_of_structs
       = Ret (i, None) w1 /\
     Close i w1 = Ret tt w2 /\
     events_between w1 w2 = [EvInstanceDestroy 1] /\
     Close i w2 = Ret tt w3 /\
     events_between w2 w3 = [EvInstanceDestroy 1] /\
     w3 <> w2).
Proof.
  split; eexists _, _, _, _;
    (split; [vm_compute; reflexivity|]);
    (split; [vm_compute; reflexivity|]);
    (split; [vm_compute; reflexivity|]);
    (split; [vm_compute; reflexivity|]);
    (split; [vm_compute; reflexivity|]);
    intros Heq; apply (f_equal trace) in Heq; vm_compute in Heq; discriminate Heq.
Qed.

Lemma primitive_import_object (E : Engine) (bytes : list Byte.byte) (io : ImportObject)
    (g : Z) (costs : OpcodeCosts) (w w' : World)
    (status : cWasmerResultT) (c : option handle) (p : option addr) :
  primitive E (OpImportObject bytes (Some io) g costs) w = Ret (status, c, p) w' ->
  p = io_imports io.
Proof.
  simpl. intros Hrun.
  apply bind_inv in Hrun as ([] & w1 & _ & Hrun).
  apply bind_inv in Hrun as ([status' c'] & w2 & _ & Hrun).
  apply Ret_inj in Hrun as [Hrun _]. congruence.
Qed.

(** X18. An [Instance] built by [NewMeteredInstanceWithImportObject]
    refers to the very registry of the [ImportObject].  [Clean] destroys
    only the engine handle of the [Instance] and leaves the import function
    handles as they are; [Close] first closes that shared registry whenever
    the reference is not nil, which releases every handle the registry holds
    at that time, and then does what [Clean] does. *)
Theorem Clean_keeps_shared_import_handles_Close_releases_them
    (E : Engine) (bytes : list Byte.byte) (io : ImportObject) (g : Z) (costs : OpcodeCosts)
    (w w1 : World) (i : Instance) :
  NewMeteredInstanceWithImportObject E bytes (Some io) g costs w = Ret (i, None) w1 ->
  exists h,
    instance i = Some h /\
    instance_imports i = io_imports io /\
    (exists w2, Clean i w1 = Ret tt w2 /\
                heap w2 = heap w1 /\ funcs w2 = funcs w1 /\
                events_between w1 w2 = [EvInstanceDestroy h]) /\
    Close i w1 =
      bind (match io_imports io with
            | Some _ => Imports_Close (io_imports io)
            | None => ret tt
            end) (fun _ => Clean i) w1 /\
    (forall a registry,
       io_imports io = Some a -> heap w1 !! a = Some registry ->
       exists w2, Close i w1 = Ret tt w2 /\
                  forall h', h' ∈ held_handles registry -> funcs w2 !! h' = None).
Proof.
  intros Hrun.
  destruct (run_op_success E (OpImportObject bytes (Some io) g costs) w w1 i Hrun)
    as (c & p & w0 & Hprim & Hpost).
  apply primitive_import_object in Hprim as ->.
  destruct (newInstanceWithImports_inv _ _ _ _ _ Hpost) as (h & st & -> & Hh & Hf & Hm).
  rewrite (newInstanceWithImports_ok h _ w0 st Hh Hf Hm) in Hpost.
  apply Ret_inj in Hpost as [Hi _]. injection Hi as <-.
  exists h. split; [reflexivity|]. split; [reflexivity|]. split; [|split].
  - eexists. split; [apply Clean_eq|].
    match goal with
    | |- context [after_destroy ?i w1] => destruct (after_destroy_frame i w1) as (Hheap & Hfuncs & Hev)
    end.
    split; [exact Hheap|]. split; [exact Hfuncs | exact Hev].
  - reflexivity.
  - intros a registry Ha Hreg. unfold Close. simpl. rewrite Ha.
    erewrite bind_Ret by (apply Imports_Close_eq; exact Hreg).
    eexists. split; [reflexivity|].
    intros h' Hin. simpl. now apply destroyed_funcs_in.
Qed.

Lemma Clean_keeps_shared_import_handles_Close_releases_them_witness :
  exists i w1 w2,
    NewMeteredInstanceWithImportObject Demo.engine Demo.good (Some Demo.import_object)
      1000 None Demo.with_import_object = Ret (i, None) w1 /\
    Clean i w1 = Ret tt w2 /\
    funcs w2 = funcs w1 /\
    events_between w1 w2 = [EvInstanceDestroy 2].
Proof.
  eexists _, _.
  assert (NewMeteredInstanceWithImportObject Demo.engine Demo.good (Some Demo.import_object)
            1000 None Demo.with_import_object = Ret _ _) as Hrun
    by (vm_compute; reflexivity).
  destruct (Clean_keeps_shared_import_handles_Close_releases_them _ _ _ _ _ _ _ _ Hrun)
    as (h & Hh & _ & (w2 & Hclean & _ & Hfuncs & Hev) & _).
  injection Hh as <-.
  exists w2. split; [exact Hrun|]. split; [exact Hclean|]. split; [exact Hfuncs | exact Hev].
Defined.

(* ===================================================================== *)
(** ** Further properties: the text of an [ExportedFunctionError]        *)
(* ===================================================================== *)

Lemma Sprintf_plain_end (lit : string) :
  Fmt.plain lit = true -> Fmt.Sprintf lit [] = lit.
Proof.
  intros Hlit. rewrite <- (string_app_nil_r lit) at 1.
  rewrite Sprintf_plain by exact Hlit. simpl. apply string_app_nil_r.
Qed.

Lemma Error_one_verb (functionName pre post : string) :
  Fmt.plain pre = true -> Fmt.plain post = true ->
  Error (ExportedFunctionError functionName (pre ++ "%s" ++ post)) = pre ++ functionName ++ post.
Proof.
  intros Hpre Hpost. unfold Error.
  rewrite Sprintf_plain by exact Hpre. rewrite Sprintf_verb_s.
  now rewrite Sprintf_plain_end.
Qed.

(** X1. [Error()] of an [ExportedFunctionError] puts the function name in
    place of the one [%s] of the message, as it is (a [%] in the name is not
    read as a verb); when the message has no verb at all, the name is
    appended in [fmt]'s [EXTRA] form. *)
Theorem ExportedFunctionError_Error_text (functionName pre post : string) :
  Fmt.plain pre = true -> Fmt.plain post = true ->
  Error (NewExportedFunctionError functionName (pre ++ "%s" ++ post))
    = pre ++ functionName ++ post /\
  Error (NewExportedFunctionError functionName pre)
    = pre ++ "%!(EXTRA string=" ++ functionName ++ ")".
Proof.
  intros Hpre Hpost. unfold NewExportedFunctionError. split.
  - now apply Error_one_verb.
  - unfold Error. rewrite <- (string_app_nil_r pre) at 1.
    rewrite Sprintf_plain by exact Hpre. reflexivity.
Qed.

Lemma ExportedFunctionError_Error_text_witness :
  Error (NewExportedFunctionError "100%sure" "Failed to call the `%s` exported function.")
    = "Failed to call the `100%sure` exported function." /\
  Error (NewExportedFunctionError "sum" "Bad call.") = "Bad call.%!(EXTRA string=sum)".
Proof.
  destruct (ExportedFunctionError_Error_text "100%sure" "Failed to call the `"
              "` exported function.") as [Hsubst _]; [reflexivity | reflexivity |].
  destruct (ExportedFunctionError_Error_text "sum" "Bad call." "")
    as [_ Hextra]; [reflexivity | reflexivity |].
  split; [exact Hsubst | exact Hextra].
Defined.

(* ===================================================================== *)
(** ** Further properties: the wrapper of an exported function           *)
(* ===================================================================== *)

Lemma validateGivenArguments_same {A} (name : string) (arguments : list A) :
  validateGivenArguments name arguments (length arguments) = None.
Proof. unfold validateGivenArguments. now case_decide. Qed.

(** X2. When the argument count is right and the arguments convert, but the
    engine's call fails, the wrapper returns the void value and an
    [ExportedFunctionError] whose text names the function and nothing of the
    engine's reason; the world is the one the engine call left. *)
Theorem wrapper_engine_failure
    (E : Engine) (GoValue : Type) (goToWasm : cWasmerValueTag -> GoValue -> option Value)
    (goTypeName : GoValue -> string)
    (f : ExportedFunction) (arguments : list GoValue) (w w' : World)
    (wasmInputs wasmOutputs : list Value) :
  length arguments = wrapper_inputs_arity f ->
  createWasmInputsFromArguments GoValue goToWasm goTypeName arguments
    (wrapper_inputs_arity f) (wrapper_input_signatures f) (wrapper_name f)
    = (wasmInputs, None) ->
  callWasmFunction E (wrapper_instance f) (wrapper_name f) (wrapper_inputs_arity f)
    (wrapper_outputs_arity f) wasmInputs w = Ret (wasmOutputs, cWasmerError) w' ->
  exists err,
    wrapper E GoValue goToWasm goTypeName f arguments w = Ret (void, Some err) w' /\
    err = ExportedFunctionError (wrapper_name f) "Failed to call the `%s` exported function." /\
    Error err = "Failed to call the `" ++ wrapper_name f ++ "` exported function.".
Proof.
  intros Hlen Hin Hcall.
  assert (validateGivenArguments (wrapper_name f) arguments (wrapper_inputs_arity f) = None)
    as Hval by (rewrite <- Hlen; apply validateGivenArguments_same).
  eexists. split; [|split; [reflexivity|]].
  - unfold wrapper. rewrite Hval, Hin. erewrite bind_Ret by exact Hcall. reflexivity.
  - exact (Error_one_verb (wrapper_name f) "Failed to call the `"
             "` exported function." eq_refl eq_refl).
Qed.

Lemma wrapper_engine_failure_witness :
  exists err w',
    wrapper Demo.engine Z Demo.goToWasm Demo.goTypeName
      {| wrapper_instance := Some 1; wrapper_name := "sum";
         wrapper_input_signatures := [cWasmI32]; wrapper_inputs_arity := 1;
         wrapper_outputs_arity := 1 |} [5%Z] Demo.instantiated = Ret (void, Some err) w' /\
    Error err = "Failed to call the `sum` exported function.".
Proof.
  destruct (wrapper_engine_failure Demo.engine Z Demo.goToWasm Demo.goTypeName
              {| wrapper_instance := Some 1; wrapper_name := "sum";
                 wrapper_input_signatures := [cWasmI32]; wrapper_inputs_arity := 1;
                 wrapper_outputs_arity := 1 |} [5%Z] Demo.instantiated
              (final_world (callWasmFunction Demo.engine (Some 1) "sum" 1 1 [I32 5]
                              Demo.instantiated))
              [I32 5] [])
    as (err & Hrun & _ & Herr).
  - reflexivity.
  - reflexivity.
  - vm_compute. reflexivity.
  - exists err. eexists. split; [exact Hrun | exact Herr].
Defined.

Lemma createWasmInputs_from_fails
    (GoValue : Type) (goToWasm : cWasmerValueTag -> GoValue -> option Value)
    (goTypeName : GoValue -> string) (name : string)
    (arguments : list GoValue) (signatures : list cWasmerValueTag) (nth k : nat)
    (value : GoValue) (tag : cWasmerValueTag) :
  arguments !! k = Some value -> signatures !! k = Some tag -> goToWasm tag value = None ->
  exists vs err,
    createWasmInputs_from GoValue goToWasm goTypeName nth arguments signatures name
      = (vs, Some err).
Proof.
  revert signatures nth k.
  induction arguments as [|a arguments IH]; intros signatures nth k Ha Hs Hconv;
    [discriminate|].
  destruct signatures as [|t signatures]; [discriminate|].
  cbn [createWasmInputs_from].
  destruct k as [|k].
  - injection Ha as ->. injection Hs as ->. rewrite Hconv. eauto.
  - destruct (goToWasm t a) as [v|]; [|eauto].
    destruct (IH signatures (S nth) k Ha Hs Hconv) as (vs & err & ->). eauto.
Qed.

(** X3. When the argument count is right but converting the arguments
    fails, the wrapper returns the void value and the conversion's error,
    and leaves the world as it was: the engine is not called.  So it is for
    an argument that does not convert to the kind declared at its
    position. *)
Theorem wrapper_conversion_failure
    (E : Engine) (GoValue : Type) (goToWasm : cWasmerValueTag -> GoValue -> option Value)
    (goTypeName : GoValue -> string)
    (f : ExportedFunction) (arguments : list GoValue) (w : World) :
  length arguments = wrapper_inputs_arity f ->
  (exists wasmInputs err,
     createWasmInputsFromArguments GoValue goToWasm goTypeName arguments
       (wrapper_inputs_arity f) (wrapper_input_signatures f) (wrapper_name f)
       = (wasmInputs, Some err)) \/
  (exists k value tag,
     arguments !! k = Some value /\ wrapper_input_signatures f !! k = Some tag /\
     goToWasm tag value = None) ->
  exists wasmInputs err,
    createWasmInputsFromArguments GoValue goToWasm goTypeName arguments
      (wrapper_inputs_arity f) (wrapper_input_signatures f) (wrapper_name f)
      = (wasmInputs, Some err) /\
    wrapper E GoValue goToWasm goTypeName f arguments w = Ret (void, Some err) w.
Proof.
  intros Hlen Hfail.
  assert (exists wasmInputs err,
            createWasmInputsFromArguments GoValue goToWasm goTypeName arguments
              (wrapper_inputs_arity f) (wrapper_input_signatures f) (wrapper_name f)
              = (wasmInputs, Some err)) as (vs & err & Hin).
  { destruct Hfail as [Hgiven|(k & value & tag & Ha & Hs & Hconv)]; [exact Hgiven|].
    unfold createWasmInputsFromArguments. rewrite <- Hlen, firstn_all.
    exact (createWasmInputs_from_fails GoValue goToWasm goTypeName (wrapper_name f)
             arguments (wrapper_input_signatures f) 0 k value tag Ha Hs Hconv). }
  assert (validateGivenArguments (wrapper_name f) arguments (wrapper_inputs_arity f) = None)
    as Hval by (rewrite <- Hlen; apply validateGivenArguments_same).
  exists vs, err. split; [exact Hin|].
  unfold wrapper. rewrite Hval, Hin. reflexivity.
Qed.

Lemma wrapper_conversion_failure_witness :
  exists err,
    wrapper Demo.engine Z Demo.goToWasm Demo.goTypeName
      {| wrapper_instance := Some 1; wrapper_name := "mix";
         wrapper_input_signatures := [cWasmI32; cWasmF64]; wrapper_inputs_arity := 2;
         wrapper_outputs_arity := 1 |} [5%Z; 6%Z] Demo.instantiated
      = Ret (void, Some err) Demo.instantiated.
Proof.
  destruct (wrapper_conversion_failure Demo.engine Z Demo.goToWasm Demo.goTypeName
              {| wrapper_instance := Some 1; wrapper_name := "mix";
                 wrapper_input_signatures := [cWasmI32; cWasmF64]; wrapper_inputs_arity := 2;
                 wrapper_outputs_arity := 1 |} [5%Z; 6%Z] Demo.instantiated)
    as (vs & err & _ & Hrun).
  - reflexivity.
  - right. exists 1, 6%Z, cWasmF64. repeat split.
  - exists err. exact Hrun.
Defined.

(* ===================================================================== *)
(** ** Further properties: [NewImportObject]                             *)
(* ===================================================================== *)

Lemma failure_message_cached (w : World) :
  failure_message "Failed to create cached imports: %s" w =
    Ret ("Failed to create cached imports: " ++ default "(unknown details)" (last_error w)) w.
Proof.
  unfold failure_message, GetLastError, gets, bind, ret.
  destruct (last_error w) as [s|]; simpl; [|reflexivity].
  now rewrite string_app_nil_r.
Qed.

(** X4. When the engine refuses to build the import object,
    [NewImportObject] returns the empty [ImportObject] (both fields nil)
    and a plain error whose text is "Failed to create cached imports: "
    followed by the engine's last-error string, or by "(unknown details)"
    when there is none.  The import function handles that materialising
    created on the way stay live. *)
Theorem NewImportObject_failure
    (E : Engine) (a : addr) (i : Imports) (w w' : World) (io : ImportObject) (err : error) :
  heap w !! a = Some i ->
  NewImportObject E (Some a) w = Ret (io, Some err) w' ->
  io = {| io_imports := None; c_import_object := None |} /\
  err = errorString ("Failed to create cached imports: "
                     ++ default "(unknown details)" (last_error w')) /\
  events_between w w' =
    ((EvImportFuncNew <$> seq (next_handle w) (Count i))
     ++ [EvNewImportObject cWasmerError])%list /\
  forall k, k < Count i -> is_Some (funcs w' !! (next_handle w + k)).
Proof.
  intros Hi Hrun.
  destruct (materialize_eq a (entries i) (replicate (Count i) zeroImportT) 0 w)
    as (wi' & Hmat & _).
  { rewrite length_replicate, Count_entries. lia. }
  assert (generateWasmerImports (Some a) w =
            Ret (if decide (0 < Count i) then Some wi' else None, Count i)
                (foldl (created a) w (entries i))) as Hgen.
  { unfold generateWasmerImports, deref, bind at 1. rewrite Hi.
    erewrite bind_Ret by exact Hmat. reflexivity. }
  destruct (created_all a (entries i) w i Hi) as (Hn & Ht & _ & _).
  rewrite Count_entries in *.
  unfold NewImportObject in Hrun.
  erewrite bind_Ret in Hrun by exact Hgen. cbv beta iota in Hrun.
  set (w1 := foldl (created a) w (entries i)) in *.
  unfold cWasmerNewImportObjectFromImports, bind at 1 in Hrun.
  destruct (new_import_object E _) as [detail|] eqn:Hnew.
  - erewrite bind_Ret in Hrun by apply failure_message_cached.
    apply Ret_inj in Hrun as [Hr <-]. injection Hr as <- <-.
    split; [reflexivity|]. split; [reflexivity|]. split.
    + apply events_between_trace. simpl. rewrite Ht, rev_app_distr. reflexivity.
    + intros k Hk. simpl. fold w1.
      apply created_live. right. rewrite Count_entries. lia.
  - discriminate Hrun.
Qed.

(* ===================================================================== *)
(** ** Further properties: failures after instantiation                  *)
(* ===================================================================== *)

Lemma forallb_false_split {A} (f : A -> bool) (l : list A) :
  forallb f l = false ->
  exists good e post, l = (good ++ e :: post)%list /\ forallb f good = true /\ f e = false.
Proof.
  induction l as [|x l IH]; intros Hl; [discriminate|].
  simpl in Hl. destruct (f x) eqn:Hx.
  - destruct (IH Hl) as (good & e & post & -> & Hgood & He).
    exists (x :: good), e, post. simpl. rewrite Hx. auto.
  - exists [], x, l. auto.
Qed.

Lemma function_not_ok (c : option handle) (e : cWasmerExportT) :
  function_ok e = false ->
  export_kind e = cWasmFunction /\
  exists err, createExportedFunctionWrapper c (export_func e) (export_name e) = inl err.
Proof.
  unfold function_ok, createExportedFunctionWrapper, getExportedFunctionSignature,
    getExportedFunctionOutputArity.
  destruct (export_kind e); try discriminate. intros Hno. split; [reflexivity|].
  destruct (func_params (export_func e)); [|eauto].
  destruct (func_returns_arity (export_func e)); [discriminate | eauto].
Qed.

Lemma memory_not_ok (e : cWasmerExportT) :
  memory_ok e = false -> export_kind e = cWasmMemory /\ export_memory e = None.
Proof.
  unfold memory_ok. destruct (export_kind e); try discriminate.
  destruct (export_memory e); [discriminate | auto].
Qed.

(** The function loop stops at the first function export whose signature
    the engine does not answer for: nothing after it is fetched. *)
Lemma retrieveExportedFunctions_loop_fail (c : option handle)
    (good : list cWasmerExportT) (e : cWasmerExportT) (post pre : list cWasmerExportT)
    (exports : gmap string ExportedFunction) (w : World) (err : error) :
  forallb function_ok good = true ->
  export_kind e = cWasmFunction ->
  createExportedFunctionWrapper c (export_func e) (export_name e) = inl err ->
  retrieveExportedFunctions_loop c (pre ++ good ++ e :: post)%list
    (seq (length pre) (length (good ++ e :: post)%list)) exports w =
    Ret (None, Some err) (log_all (EvExportsGet <$> seq (length pre) (S (length good))) w).
Proof.
  intros Hgood Hk Hwr. revert pre exports w.
  induction good as [|x good IH]; intros pre exports w.
  - simpl app. change (seq (length pre) (length (e :: post)))
      with (length pre :: seq (S (length pre)) (length post)).
    cbn [retrieveExportedFunctions_loop].
    erewrite bind_Ret by apply cWasmerExportsGet_middle.
    unfold cWasmerExportKind, cWasmerExportName, cWasmerExportToFunc.
    rewrite Hk, Hwr. reflexivity.
  - simpl in Hgood. apply andb_prop in Hgood as [Hx Hgood].
    change (seq (length pre) (length ((x :: good) ++ e :: post)%list))
      with (length pre :: seq (S (length pre)) (length (good ++ e :: post)%list)).
    change (pre ++ (x :: good) ++ e :: post)%list
      with (pre ++ x :: (good ++ e :: post))%list.
    cbn [retrieveExportedFunctions_loop].
    erewrite bind_Ret by apply cWasmerExportsGet_middle.
    specialize (IH Hgood (pre ++ [x])%list).
    rewrite <- app_assoc, length_app, Nat.add_1_r in IH. simpl app in IH.
    change (EvExportsGet <$> seq (length pre) (S (length (x :: good))))
      with (EvExportsGet (length pre) :: (EvExportsGet <$> seq (S (length pre)) (S (length good)))).
    rewrite log_all_cons.
    destruct (is_function x) eqn:Hf.
    + destruct (createExportedFunctionWrapper_ok c x Hf Hx) as [f Hf'].
      unfold cWasmerExportKind, cWasmerExportName, cWasmerExportToFunc, is_function in *.
      destruct (export_kind x); try discriminate. rewrite Hf'. apply IH.
    + unfold cWasmerExportKind, is_function in *.
      destruct (export_kind x); try discriminate; apply IH.
Qed.

(** The memory loop stops at the first memory export the engine does not
    hand out. *)
Lemma retrieveExportedMemory_loop_fail
    (good : list cWasmerExportT) (e : cWasmerExportT) (post pre : list cWasmerExportT)
    (memory_ : MemoryT) (hasMemory : bool) (w : World) :
  forallb memory_ok good = true ->
  export_kind e = cWasmMemory -> export_memory e = None ->
  retrieveExportedMemory_loop (pre ++ good ++ e :: post)%list
    (seq (length pre) (length (good ++ e :: post)%list)) memory_ hasMemory w =
    Ret (zeroMemory, false, Some (InstanceError "Failed to extract the exported memory."))
        (log_all (EvExportsGet <$> seq (length pre) (S (length good))) w).
Proof.
  intros Hgood Hk Hm. revert pre memory_ hasMemory w.
  induction good as [|x good IH]; intros pre memory_ hasMemory w.
  - simpl app. change (seq (length pre) (length (e :: post)))
      with (length pre :: seq (S (length pre)) (length post)).
    cbn [retrieveExportedMemory_loop].
    erewrite bind_Ret by apply cWasmerExportsGet_middle.
    unfold cWasmerExportKind, cWasmerExportToMemory.
    rewrite Hk, Hm. reflexivity.
  - simpl in Hgood. apply andb_prop in Hgood as [Hx Hgood].
    change (seq (length pre) (length ((x :: good) ++ e :: post)%list))
      with (length pre :: seq (S (length pre)) (length (good ++ e :: post)%list)).
    change (pre ++ (x :: good) ++ e :: post)%list
      with (pre ++ x :: (good ++ e :: post))%list.
    cbn [retrieveExportedMemory_loop].
    erewrite bind_Ret by apply cWasmerExportsGet_middle.
    specialize (IH Hgood (pre ++ [x])%list).
    rewrite <- app_assoc, length_app, Nat.add_1_r in IH. simpl app in IH.
    change (EvExportsGet <$> seq (length pre) (S (length (x :: good))))
      with (EvExportsGet (length pre) :: (EvExportsGet <$> seq (S (length pre)) (S (length good)))).
    rewrite log_all_cons.
    unfold cWasmerExportKind, cWasmerExportToMemory, memory_ok in *.
    destruct (export_kind x); try apply IH.
    destruct (export_memory x); [apply IH | discriminate].
Qed.

Lemma cWasmerInstanceExports_live (h : handle) (st : InstanceState) (w : World) :
  instances w !! h = Some st ->
  cWasmerInstanceExports (Some h) w = Ret (inst_exports st) (log (EvInstanceExports h) w).
Proof. intros Hh. unfold cWasmerInstanceExports. now rewrite Hh. Qed.

(** X5. If the engine does not answer a signature query for some function
    export, the post-instantiation step fails with that query's error and
    the empty instance: the table is walked only up to that export, it is
    not walked for memory at all, and it is still destroyed. *)
Theorem newInstanceWithImports_function_failure
    (h : handle) (p : option addr) (w : World) (st : InstanceState)
    (good : list cWasmerExportT) (e : cWasmerExportT) (post : list cWasmerExportT) :
  instances w !! h = Some st ->
  inst_exports st = (good ++ e :: post)%list ->
  forallb function_ok good = true ->
  function_ok e = false ->
  exists err,
    createExportedFunctionWrapper (Some h) (export_func e) (export_name e) = inl err /\
    newInstanceWithImports (Some h) p w =
      Ret (emptyInstance, Some err)
          (log_all (EvInstanceExports h :: EvExportsLen
                    :: (EvExportsGet <$> seq 0 (S (length good))) ++ [EvExportsDestroy])%list w).
Proof.
  intros Hh Htbl Hgood He.
  destruct (function_not_ok (Some h) e He) as [Hk [err Hwr]].
  exists err. split; [exact Hwr|].
  unfold newInstanceWithImports.
  erewrite bind_Ret by (apply cWasmerInstanceExports_live; exact Hh).
  rewrite !log_all_cons, log_all_app. unfold defer.
  assert (retrieveExportedFunctions (Some h) (inst_exports st) (log (EvInstanceExports h) w) =
            Ret (None, Some err)
                (log_all (EvExportsGet <$> seq 0 (S (length good)))
                   (log EvExportsLen (log (EvInstanceExports h) w)))) as Hfun.
  { unfold retrieveExportedFunctions, cWasmerExportsLen, bind. rewrite Htbl.
    exact (retrieveExportedFunctions_loop_fail (Some h) good e post [] ∅ _ err Hgood Hk Hwr). }
  erewrite bind_Ret by exact Hfun. reflexivity.
Qed.

(** X6. If every function export is answered for but the engine does not
    hand out the memory of some memory export, the step fails with the
    [InstanceError] "Failed to extract the exported memory." and the empty
    instance, whatever memory exports came before; the second walk stops at
    that export and the table is still destroyed. *)
Theorem newInstanceWithImports_memory_failure
    (h : handle) (p : option addr) (w : World) (st : InstanceState)
    (good : list cWasmerExportT) (e : cWasmerExportT) (post : list cWasmerExportT) :
  instances w !! h = Some st ->
  inst_exports st = (good ++ e :: post)%list ->
  forallb function_ok (inst_exports st) = true ->
  forallb memory_ok good = true ->
  memory_ok e = false ->
  newInstanceWithImports (Some h) p w =
    Ret (emptyInstance, Some (InstanceError "Failed to extract the exported memory."))
        (log_all (EvInstanceExports h :: walk (length (inst_exports st))
                  ++ EvExportsLen :: (EvExportsGet <$> seq 0 (S (length good)))
                  ++ [EvExportsDestroy])%list w).
Proof.
  intros Hh Htbl Hfun Hgood He.
  destruct (memory_not_ok e He) as [Hk Hm].
  unfold newInstanceWithImports.
  erewrite bind_Ret by (apply cWasmerInstanceExports_live; exact Hh).
  rewrite log_all_cons, log_all_app, log_all_cons, log_all_app. unfold defer.
  erewrite bind_Ret by (apply retrieveExportedFunctions_ok; exact Hfun).
  cbv beta iota.
  assert (forall w0, retrieveExportedMemory (inst_exports st) w0 =
            Ret (zeroMemory, false, Some (InstanceError "Failed to extract the exported memory."))
                (log_all (EvExportsGet <$> seq 0 (S (length good))) (log EvExportsLen w0)))
    as Hmem.
  { intros w0. unfold retrieveExportedMemory, cWasmerExportsLen, bind. rewrite Htbl.
    exact (retrieveExportedMemory_loop_fail good e post [] zeroMemory false _ Hgood Hk Hm). }
  erewrite bind_Ret by apply Hmem. reflexivity.
Qed.

Lemma NewImportObject_failure_witness :
  exists w',
    NewImportObject Demo.broken_engine (Some 0) Demo.world =
      Ret ({| io_imports := None; c_import_object := None |},
           Some (errorString "Failed to create cached imports: out of memory")) w' /\
    events_between Demo.world w' = [EvImportFuncNew 0; EvNewImportObject cWasmerError] /\
    is_Some (funcs w' !! 0).
Proof.
  exists (final_world (NewImportObject Demo.broken_engine (Some 0) Demo.world)).
  assert (heap Demo.world !! 0 = Some {| imports := {[ "env" := {[ "sum" := Demo.sum ]} ]} |})
    as Hheap by (vm_compute; reflexivity).
  assert (NewImportObject Demo.broken_engine (Some 0) Demo.world =
            Ret ({| io_imports := None; c_import_object := None |},
                 Some (errorString "Failed to create cached imports: out of memory"))
                (final_world (NewImportObject Demo.broken_engine (Some 0) Demo.world))) as Hrun
    by (vm_compute; reflexivity).
  destruct (NewImportObject_failure Demo.broken_engine 0 _ _ _ _ _ Hheap Hrun)
    as (_ & _ & Hev & Hlive).
  split; [exact Hrun|]. split; [exact Hev|]. apply (Hlive 0). vm_compute. lia.
Defined.

Lemma table_event_gets (k n : nat) : forallb table_event (EvExportsGet <$> seq k n) = true.
Proof. revert k. induction n as [|n IH]; intros k; [reflexivity | apply IH]. Qed.

Lemma table_event_walk (n : nat) : forallb table_event (walk n) = true.
Proof. unfold walk. simpl. apply table_event_gets. Qed.

Ltac table_events :=
  repeat first [progress simpl | rewrite forallb_app | rewrite table_event_gets];
  reflexivity.

(** On a live instance the post-instantiation step always returns; all it
    asks of the engine concerns the export table; an error comes with the
    empty instance, success with the handle it was given. *)
Lemma newInstanceWithImports_total (h : handle) (p : option addr) (w : World)
    (st : InstanceState) :
  instances w !! h = Some st ->
  exists i r evs,
    newInstanceWithImports (Some h) p w = Ret (i, r) (log_all evs w) /\
    forallb table_event evs = true /\
    match r with
    | Some _ => i = emptyInstance
    | None => instance i = Some h /\ instance_imports i = p
    end.
Proof.
  intros Hh.
  destruct (forallb function_ok (inst_exports st)) eqn:Hf.
  - destruct (forallb memory_ok (inst_exports st)) eqn:Hm.
    + eexists _, None, _. split; [apply (newInstanceWithImports_ok h p w st Hh Hf Hm)|].
      split; [|split; reflexivity].
      table_events.
    + destruct (forallb_false_split _ _ Hm) as (good & e & post & Htbl & Hgood & He).
      eexists _, (Some _), _.
      split; [apply (newInstanceWithImports_memory_failure h p w st good e post);
              assumption|].
      split; [|reflexivity].
      table_events.
  - destruct (forallb_false_split _ _ Hf) as (good & e & post & Htbl & Hgood & He).
    destruct (newInstanceWithImports_function_failure h p w st good e post Hh Htbl Hgood He)
      as (err & _ & Hrun).
    eexists _, (Some _), _. split; [exact Hrun|]. split; [|reflexivity].
    table_events.
Qed.

Lemma newInstanceWithImports_returns_live (c : option handle) (p : option addr)
    (w w' : World) (r : Instance * option error) :
  newInstanceWithImports c p w = Ret r w' ->
  exists h st, c = Some h /\ instances w !! h = Some st.
Proof.
  unfold newInstanceWithImports, bind, cWasmerInstanceExports.
  destruct c as [h|]; [|discriminate].
  destruct (instances w !! h) as [st|] eqn:Hh; [|discriminate].
  intros _. exists h, st. split; [reflexivity | exact Hh].
Qed.

(** X7. Whatever makes an instantiate operation return an error (the
    engine's primitive, a signature query or the extraction of a memory),
    the [Instance] returned with it is the empty one. *)
Theorem error_comes_with_empty_instance
    (E : Engine) (op : InstantiateOp) (w w' : World) (i : Instance) (err : error) :
  run_op E op w = Ret (i, Some err) w' ->
  i = emptyInstance /\ HasMemory i = false.
Proof.
  rewrite run_op_primitive. intros Hrun.
  apply bind_inv in Hrun as ([[status c] p] & w1 & _ & Hfin).
  assert (i = emptyInstance) as ->; [|split; reflexivity].
  destruct status.
  - simpl in Hfin.
    destruct (newInstanceWithImports_returns_live _ _ _ _ _ Hfin) as (h & st & -> & Hh).
    destruct (newInstanceWithImports_total h p w1 st Hh) as (i0 & r & evs & Hrun & _ & Hr).
    rewrite Hrun in Hfin. apply Ret_inj in Hfin as [Heq _].
    injection Heq as -> ->. exact Hr.
  - rewrite finish_failed in Hfin. apply Ret_inj in Hfin as [Heq _]. congruence.
Qed.

Lemma error_comes_with_empty_instance_witness :
  exists err w',
    run_op Demo.broken_engine (OpWithImports Demo.good (Some 0)) Demo.world
      = Ret (emptyInstance, Some err) w'.
Proof.
  assert (exists i err w',
            run_op Demo.broken_engine (OpWithImports Demo.good (Some 0)) Demo.world
              = Ret (i, Some err) w') as (i & err & w' & Hrun)
    by (eexists _, _, _; vm_compute; reflexivity).
  destruct (error_comes_with_empty_instance _ _ _ _ _ _ Hrun) as [Hi _].
  exists err, w'. rewrite <- Hi. exact Hrun.
Defined.

(** X8. When the engine's primitive succeeded but the post-instantiation
    step fails, the engine instance just created is never destroyed: it is
    still live in the world returned, while the caller holds the empty
    instance and so no handle to destroy it with. *)
Theorem failure_after_instantiation_leaves_instance_live
    (E : Engine) (op : InstantiateOp) (w w1 w' : World)
    (c : option handle) (p : option addr) (i : Instance) (err : error) :
  primitive E op w = Ret (cWasmerOk, c, p) w1 ->
  run_op E op w = Ret (i, Some err) w' ->
  exists h,
    c = Some h /\ instance i = None /\
    is_Some (instances w' !! h) /\
    forall h', EvInstanceDestroy h' ∉ events_between w1 w'.
Proof.
  intros Hprim Hrun. rewrite run_op_primitive in Hrun.
  erewrite bind_Ret in Hrun by exact Hprim. simpl in Hrun.
  destruct (newInstanceWithImports_returns_live _ _ _ _ _ Hrun) as (h & st & -> & Hh).
  destruct (newInstanceWithImports_total h p w1 st Hh) as (i0 & r & evs & Hpost & Hevs & Hr).
  rewrite Hpost in Hrun. apply Ret_inj in Hrun as [Heq <-].
  injection Heq as -> ->. subst i.
  exists h. split; [reflexivity|]. split; [reflexivity|]. split.
  - destruct (log_all_frame evs w1) as (_ & _ & -> & _). rewrite Hh. eauto.
  - intros h' Hin. rewrite events_between_log_all in Hin.
    rewrite forallb_forall in Hevs. apply list_elem_of_In in Hin.
    specialize (Hevs _ Hin). discriminate Hevs.
Qed.

Lemma failure_after_instantiation_leaves_instance_live_witness :
  exists err w',
    run_op Demo.broken_engine (OpWithImports Demo.good (Some 0)) Demo.world
      = Ret (emptyInstance, Some err) w' /\
    is_Some (instances w' !! 1).
Proof.
  assert (exists w1, primitive Demo.broken_engine (OpWithImports Demo.good (Some 0)) Demo.world
                     = Ret (cWasmerOk, Some 1, Some 0) w1) as (w1 & Hprim)
    by (eexists; vm_compute; reflexivity).
  assert (exists err w',
            run_op Demo.broken_engine (OpWithImports Demo.good (Some 0)) Demo.world
              = Ret (emptyInstance, Some err) w') as (err & w' & Hrun)
    by (eexists _, _; vm_compute; reflexivity).
  destruct (failure_after_instantiation_leaves_instance_live _ _ _ _ _ _ _ _ _ Hprim Hrun)
    as (h & Hc & _ & Hlive & _).
  injection Hc as <-. exists err, w'. split; [exact Hrun | exact Hlive].
Defined.

Lemma newInstanceWithImports_function_failure_witness :
  exists err w',
    newInstanceWithImports (Some 1) (Some 0)
      (final_world (primitive Demo.broken_engine (OpWithImports Demo.good (Some 0)) Demo.world))
      = Ret (emptyInstance, Some err) w' /\
    events_between
      (final_world (primitive Demo.broken_engine (OpWithImports Demo.good (Some 0)) Demo.world))
      w' = [EvInstanceExports 1; EvExportsLen; EvExportsGet 0; EvExportsGet 1; EvExportsDestroy].
Proof.
  set (w1 := final_world (primitive Demo.broken_engine (OpWithImports Demo.good (Some 0))
                            Demo.world)).
  destruct (newInstanceWithImports_function_failure 1 (Some 0) w1
              {| inst_exports := Demo.broken_exports; inst_metering := None;
                 inst_points := 0; inst_context := 0 |}
              [ {| export_kind := cWasmMemory; export_name := "memory";
                   export_func := Demo.no_func; export_memory := Some 100 |} ]
              {| export_kind := cWasmFunction; export_name := "opaque";
                 export_func := Demo.no_func; export_memory := None |}
              [ {| export_kind := cWasmFunction; export_name := "sum";
                   export_func := {| func_params := Some [cWasmI32; cWasmI32];
                                     func_returns_arity := Some 1 |};
                   export_memory := None |} ])
    as (err & _ & Hrun); try (vm_compute; reflexivity).
  exists err. eexists. split; [exact Hrun|]. now rewrite events_between_log_all.
Defined.

Lemma newInstanceWithImports_memory_failure_witness :
  exists w',
    newInstanceWithImports (Some 7) None
      (set_instances (insert 7 {| inst_exports :=
                                    [ {| export_kind := cWasmMemory; export_name := "lost";
                                         export_func := Demo.no_func; export_memory := None |} ];
                                  inst_metering := None; inst_points := 0; inst_context := 0 |})
         emptyWorld)
      = Ret (emptyInstance, Some (InstanceError "Failed to extract the exported memory.")) w'.
Proof.
  eexists.
  apply (newInstanceWithImports_memory_failure 7 None _
           {| inst_exports :=
                [ {| export_kind := cWasmMemory; export_name := "lost";
                     export_func := Demo.no_func; export_memory := None |} ];
              inst_metering := None; inst_points := 0; inst_context := 0 |}
           [] {| export_kind := cWasmMemory; export_name := "lost";
                 export_func := Demo.no_func; export_memory := None |} []);
    vm_compute; reflexivity.
Defined.

(* ===================================================================== *)
(** ** Further properties: what materialising leaves behind              *)
(* ===================================================================== *)

Lemma generateWasmerImports_eq (a : addr) (i : Imports) (w : World) :
  heap w !! a = Some i ->
  exists wasmImports,
    generateWasmerImports (Some a) w =
      Ret (if decide (0 < Count i) then Some wasmImports else None, Count i)
          (foldl (created a) w (entries i)) /\
    length wasmImports = Count i /\
    forall k ns name f, entries i !! k = Some (ns, name, f) ->
      wasmImports !! k = Some (cNewWasmerImportT (namespace f) name (Some (next_handle w + k))).
Proof.
  intros Hi.
  destruct (materialize_eq a (entries i) (replicate (Count i) zeroImportT) 0 w)
    as (wi' & Hmat & Hlen & _ & Hrec).
  { rewrite length_replicate, Count_entries. lia. }
  exists wi'. split; [|split].
  - unfold generateWasmerImports, deref, bind at 1. rewrite Hi.
    erewrite bind_Ret by exact Hmat. reflexivity.
  - now rewrite Hlen, length_replicate.
  - intros k ns name f Hk. exact (Hrec k ns name f Hk).
Qed.

Lemma generateWasmerImports_invalid (p : option addr) (w : World) :
  (p ≫= fun a => heap w !! a) = None ->
  generateWasmerImports p w =
    Panic "runtime error: invalid memory address or nil pointer dereference" w.
Proof.
  intros Hp. unfold generateWasmerImports, deref, bind.
  destruct p as [a|]; [|reflexivity]. simpl in Hp. now rewrite Hp.
Qed.

Lemma created_all_frame (a : addr) (todo : list (string * string * ImportFunction)) (w : World) :
  instances (foldl (created a) w todo) = instances w /\
  import_objects (foldl (created a) w todo) = import_objects w /\
  last_error (foldl (created a) w todo) = last_error w.
Proof.
  revert w. induction todo as [|[[ns name] f] todo IH]; intros w; [now repeat split|].
  cbn [foldl]. destruct (IH (created a w (ns, name, f))) as (-> & -> & ->).
  unfold created. now destruct (elements_are_pointers w).
Qed.

Lemma records_have_live_handles (a : addr) (i : Imports) (w : World)
    (wasmImports : list cWasmerImportT) :
  length wasmImports = Count i ->
  (forall k ns name f, entries i !! k = Some (ns, name, f) ->
     wasmImports !! k = Some (cNewWasmerImportT (namespace f) name (Some (next_handle w + k)))) ->
  forall r, r ∈ wasmImports ->
    exists h, import_func r = Some h /\
              is_Some (funcs (foldl (created a) w (entries i)) !! h).
Proof.
  intros Hlen Hrec r Hr.
  apply list_elem_of_lookup in Hr as [k Hk].
  assert (k < length (entries i)) as Hlt
    by (apply lookup_lt_Some in Hk; rewrite Count_entries; lia).
  destruct (lookup_lt_is_Some_2 _ _ Hlt) as [[[ns name] f] He].
  rewrite (Hrec k ns name f He) in Hk. injection Hk as <-.
  exists (next_handle w + k). split; [reflexivity|].
  apply created_live. right. lia.
Qed.

(** X9. When [generateWasmerImports] returns, the table it hands to the
    engine has exactly [Count] records, none left at the zero value: each
    carries a handle that is live in the world returned. *)
Theorem generateWasmerImports_records_are_live
    (p : option addr) (w w' : World) (ptr : option (list cWasmerImportT)) (n : nat) :
  generateWasmerImports p w = Ret (ptr, n) w' ->
  length (records ptr n) = n /\
  (ptr = None <-> n = 0) /\
  forall r, r ∈ records ptr n ->
    exists h, import_func r = Some h /\ is_Some (funcs w' !! h).
Proof.
  intros Hrun.
  destruct (p ≫= fun a => heap w !! a) as [i|] eqn:Hp;
    [|rewrite (generateWasmerImports_invalid p w Hp) in Hrun; discriminate].
  destruct p as [a|]; [|discriminate]. simpl in Hp.
  destruct (generateWasmerImports_eq a i w Hp) as (wi & Hgen & Hlen & Hrec).
  rewrite Hgen in Hrun. apply Ret_inj in Hrun as [Heq <-].
  injection Heq as <- <-.
  unfold records. case_decide as Hpos.
  - simpl. split; [rewrite length_take; lia|]. split; [split; [discriminate | lia]|].
    intros r Hr. rewrite <- Hlen, firstn_all in Hr.
    exact (records_have_live_handles a i w wi Hlen Hrec r Hr).
  - simpl. assert (Count i = 0) as -> by lia.
    split; [reflexivity|]. split; [tauto|].
    intros r Hr. now apply elem_of_nil in Hr.
Qed.

Lemma generateWasmerImports_records_are_live_witness :
  exists ptr w',
    generateWasmerImports (Some 0) Demo.world = Ret (ptr, 1) w' /\
    length (records ptr 1) = 1.
Proof.
  exists (Some [cNewWasmerImportT "env" "sum" (Some 0)]).
  exists (final_world (generateWasmerImports (Some 0) Demo.world)).
  assert (generateWasmerImports (Some 0) Demo.world =
            Ret (Some [cNewWasmerImportT "env" "sum" (Some 0)], 1)
                (final_world (generateWasmerImports (Some 0) Demo.world))) as Hrun
    by (vm_compute; reflexivity).
  split; [exact Hrun|].
  exact (proj1 (generateWasmerImports_records_are_live _ _ _ _ _ Hrun)).
Defined.

(* ===================================================================== *)
(** ** Further properties: empty module bytes                            *)
(* ===================================================================== *)

Lemma NewImports_generate (w : World) :
  exists a,
    NewImports w = Ret (Some a) (set_heap (insert a {| imports := ∅ |}) w) /\
    generateWasmerImports (Some a) (set_heap (insert a {| imports := ∅ |}) w) =
      Ret (None, 0) (set_heap (insert a {| imports := ∅ |}) w).
Proof.
  exists (fresh (dom (heap w))). split; [reflexivity|].
  unfold generateWasmerImports, bind, deref. simpl.
  rewrite lookup_insert_eq. unfold Count, entries. simpl.
  rewrite map_to_list_empty. reflexivity.
Qed.

Lemma not_instantiate_in_creations (s : cWasmerResultT) (k n : nat) :
  EvInstantiate s ∉ EvImportFuncNew <$> seq k n.
Proof. intros Hin. apply list_elem_of_fmap in Hin as (h & Hh & _). discriminate Hh. Qed.

(** X10. With empty module bytes every constructor panics (on [&bytes[0]],
    if not earlier on a nil pointer) before the engine's instantiate
    primitive is reached: no instance is created. *)
Theorem empty_bytes_panic (E : Engine) (op : InstantiateOp) (w : World) :
  op_bytes op = [] ->
  panics (run_op E op w) = true /\
  instances (final_world (run_op E op w)) = instances w /\
  forall s, EvInstantiate s ∉ events_between w (final_world (run_op E op w)).
Proof.
  intros Hbytes.
  assert (forall p (k : option (list cWasmerImportT) * nat -> M (Instance * option error)),
            (forall ptr n w1, k (ptr, n) w1 = Panic "runtime error: index out of range [0] with length 0" w1) ->
            let o := bind (generateWasmerImports p) k w in
            panics o = true /\ instances (final_world o) = instances w /\
            forall s, EvInstantiate s ∉ events_between w (final_world o)) as Hwith.
  { intros p k Hk o. subst o.
    destruct (p ≫= fun a => heap w !! a) as [i|] eqn:Hp.
    - destruct p as [a|]; [|discriminate]. simpl in Hp.
      destruct (generateWasmerImports_eq a i w Hp) as (wi & Hgen & _).
      erewrite bind_Ret by exact Hgen. rewrite Hk. simpl.
      destruct (created_all a (entries i) w i Hp) as (_ & Ht & _).
      destruct (created_all_frame a (entries i) w) as (Hinst & _).
      split; [reflexivity|]. split; [exact Hinst|].
      intros s. rewrite (events_between_trace _ _ _ Ht). apply not_instantiate_in_creations.
    - erewrite bind_Panic by (apply generateWasmerImports_invalid; exact Hp). simpl.
      split; [reflexivity|]. split; [reflexivity|].
      intros s. rewrite events_between_refl. apply not_elem_of_nil. }
  destruct op as [bytes|bytes p|bytes p g c|bytes io g c]; simpl in Hbytes; subst bytes; simpl.
  - unfold NewInstance. destruct (NewImports_generate w) as (a & Hnew & Hgen).
    erewrite bind_Ret by exact Hnew. unfold NewInstanceWithImports.
    erewrite bind_Ret by exact Hgen. simpl.
    split; [reflexivity|]. split; [reflexivity|].
    intros s. unfold events_between. simpl. rewrite Nat.sub_diag. apply not_elem_of_nil.
  - apply Hwith. reflexivity.
  - apply Hwith. reflexivity.
  - split; [reflexivity|]. split; [reflexivity|].
    intros s. rewrite events_between_refl. apply not_elem_of_nil.
Qed.

Lemma empty_bytes_panic_witness :
  panics (run_op Demo.engine (OpMetered [] (Some 0) 1000 None) Demo.world) = true /\
  events_between Demo.world
    (final_world (run_op Demo.engine (OpMetered [] (Some 0) 1000 None) Demo.world))
    = [EvImportFuncNew 0].
Proof.
  destruct (empty_bytes_panic Demo.engine (OpMetered [] (Some 0) 1000 None) Demo.world)
    as (Hpanic & _); [reflexivity|].
  split; [exact Hpanic|]. vm_compute. reflexivity.
Defined.

(** X11. [NewInstanceWithImports] and [NewMeteredInstanceWithImports]
    materialise the registry before they look at the bytes: with empty bytes
    they panic after one import function handle per registered function has
    been created, and those handles stay live. *)
Theorem empty_bytes_panic_after_materialising
    (E : Engine) (a : addr) (i : Imports) (g : Z) (costs : OpcodeCosts) (w : World) :
  heap w !! a = Some i ->
  exists w',
    NewInstanceWithImports E [] (Some a) w =
      Panic "runtime error: index out of range [0] with length 0" w' /\
    NewMeteredInstanceWithImports E [] (Some a) g costs w =
      Panic "runtime error: index out of range [0] with length 0" w' /\
    events_between w w' = EvImportFuncNew <$> seq (next_handle w) (Count i) /\
    forall k, k < Count i -> is_Some (funcs w' !! (next_handle w + k)).
Proof.
  intros Hi.
  destruct (generateWasmerImports_eq a i w Hi) as (wi & Hgen & _).
  destruct (created_all a (entries i) w i Hi) as (_ & Ht & _).
  exists (foldl (created a) w (entries i)).
  split; [|split; [|split]].
  - unfold NewInstanceWithImports. erewrite bind_Ret by exact Hgen. reflexivity.
  - unfold NewMeteredInstanceWithImports. erewrite bind_Ret by exact Hgen. reflexivity.
  - rewrite <- Count_entries. exact (events_between_trace _ _ _ Ht).
  - intros k Hk. apply created_live. right. rewrite Count_entries. lia.
Qed.

Lemma empty_bytes_panic_after_materialising_witness :
  exists w',
    NewInstanceWithImports Demo.engine [] (Some 0) Demo.world =
      Panic "runtime error: index out of range [0] with length 0" w' /\
    events_between Demo.world w' = [EvImportFuncNew 0].
Proof.
  destruct (empty_bytes_panic_after_materialising Demo.engine 0
              {| imports := {[ "env" := {[ "sum" := Demo.sum ]} ]} |} 0 None Demo.world)
    as (w' & Hrun & _ & Hev & _); [vm_compute; reflexivity|].
  exists w'. split; [exact Hrun | exact Hev].
Defined.

(* ===================================================================== *)
(** ** Further properties: import objects                                *)
(* ===================================================================== *)

(** X12. When [NewImportObject] succeeds, the [ImportObject] refers to the
    caller's registry itself and to a new engine handle; the engine holds,
    under that handle, one resolved import per registered function, each
    backed by a live import function handle; the registry was materialised
    exactly once on the way. *)
Theorem NewImportObject_success
    (E : Engine) (a : addr) (i : Imports) (w w' : World) (io : ImportObject) :
  heap w !! a = Some i ->
  NewImportObject E (Some a) w = Ret (io, None) w' ->
  io_imports io = Some a /\
  c_import_object io = Some (next_handle w + Count i) /\
  (exists resolved,
     import_objects w' !! (next_handle w + Count i) = Some resolved /\
     length resolved = Count i /\
     forall r, r ∈ resolved -> is_Some r.2) /\
  events_between w w' =
    ((EvImportFuncNew <$> seq (next_handle w) (Count i))
     ++ [EvNewImportObject cWasmerOk])%list.
Proof.
  intros Hi Hrun.
  destruct (generateWasmerImports_eq a i w Hi) as (wi & Hgen & Hlen & Hrec).
  destruct (created_all a (entries i) w i Hi) as (Hn & Ht & _ & _).
  rewrite Count_entries in *.
  unfold NewImportObject in Hrun.
  erewrite bind_Ret in Hrun by exact Hgen. cbv beta iota in Hrun.
  set (w1 := foldl (created a) w (entries i)) in *.
  unfold cWasmerNewImportObjectFromImports, bind at 1 in Hrun.
  destruct (new_import_object E _) as [detail|] eqn:Hnew.
  { erewrite bind_Ret in Hrun by apply failure_message_cached. discriminate Hrun. }
  apply Ret_inj in Hrun as [Hr <-]. injection Hr as <-.
  rewrite Hn. split; [reflexivity|]. split; [reflexivity|]. split.
  - eexists. split; [simpl; apply lookup_insert_eq|]. split.
    + unfold resolve, records. rewrite length_fmap, length_take.
      case_decide; simpl; lia.
    + intros r Hr. unfold resolve in Hr.
      apply list_elem_of_fmap in Hr as (rec & -> & Hrec').
      unfold records in Hrec'. case_decide; simpl in Hrec';
        [|rewrite take_nil in Hrec'; now apply elem_of_nil in Hrec'].
      rewrite <- Hlen, firstn_all in Hrec'.
      destruct (records_have_live_handles a i w wi Hlen Hrec rec Hrec') as (h & -> & Hlive).
      exact Hlive.
  - apply events_between_trace. simpl. fold w1. rewrite Ht, rev_app_distr. reflexivity.
Qed.

Lemma NewImportObject_success_witness :
  NewImportObject Demo.engine (Some 0) Demo.world =
    Ret (Demo.import_object, None) Demo.with_import_object /\
  events_between Demo.world Demo.with_import_object =
    [EvImportFuncNew 0; EvNewImportObject cWasmerOk].
Proof.
  assert (NewImportObject Demo.engine (Some 0) Demo.world =
            Ret (Demo.import_object, None) Demo.with_import_object) as Hrun
    by (vm_compute; reflexivity).
  assert (heap Demo.world !! 0 = Some {| imports := {[ "env" := {[ "sum" := Demo.sum ]} ]} |})
    as Hheap by (vm_compute; reflexivity).
  destruct (NewImportObject_success Demo.engine 0 _ _ _ _ Hheap Hrun) as (_ & _ & _ & Hev).
  split; [exact Hrun | exact Hev].
Defined.

Lemma engine_instantiate_frame (E : Engine) (bytes : list Byte.byte)
    (resolved : list ResolvedImport) (metering : option (Z * OpcodeCosts))
    (w w' : World) (r : cWasmerResultT * option handle) :
  engine_instantiate E bytes resolved metering w = Ret r w' ->
  heap w' = heap w /\ funcs w' = funcs w /\
  events_between w w' = [EvInstantiate r.1].
Proof.
  unfold engine_instantiate.
  destruct (instantiate E bytes resolved metering); intros Hrun;
    apply Ret_inj in Hrun as [<- <-]; repeat split;
    now apply events_between_trace.
Qed.

(** X13. Instantiating from an [ImportObject] does not materialise
    anything: whatever it returns, it has created and destroyed no import
    function handle and left every registry as it was; all it asked of the
    engine is one instantiation and, after that, the export table. *)
Theorem NewMeteredInstanceWithImportObject_creates_no_import_handle
    (E : Engine) (bytes : list Byte.byte) (io : option ImportObject) (g : Z)
    (costs : OpcodeCosts) (w w' : World) (r : Instance * option error) :
  NewMeteredInstanceWithImportObject E bytes io g costs w = Ret r w' ->
  heap w' = heap w /\ funcs w' = funcs w /\
  exists status evs,
    events_between w w' = EvInstantiate status :: evs /\
    forallb table_event evs = true.
Proof.
  intros Hrun.
  pose proof (run_op_primitive E (OpImportObject bytes io g costs) w) as Heq.
  simpl run_op in Heq. rewrite Heq in Hrun. clear Heq.
  apply bind_inv in Hrun as ([[status c] p] & w1 & Hprim & Hfin).
  simpl in Hprim.
  apply bind_inv in Hprim as ([] & w0 & Hidx & Hprim).
  assert (w0 = w) as -> by (destruct bytes; [discriminate | now apply Ret_inj in Hidx]).
  destruct io as [io|]; [|discriminate].
  apply bind_inv in Hprim as ([status' c'] & w2 & Hinst & Hret).
  apply Ret_inj in Hret as [Hret <-]. injection Hret as -> -> <-.
  unfold cWasmerInstantiateWithMeteringAndImportObject in Hinst.
  destruct (c_import_object io ≫= _) as [resolved|]; [|discriminate].
  assert (trace w2 = EvInstantiate status :: trace w) as Ht2.
  { unfold engine_instantiate in Hinst.
    destruct (instantiate E bytes resolved _); apply Ret_inj in Hinst as [Hs <-];
      injection Hs as <- _; reflexivity. }
  destruct (engine_instantiate_frame _ _ _ _ _ _ _ Hinst) as (Hh & Hf & _).
  destruct status.
  - simpl in Hfin.
    destruct (newInstanceWithImports_returns_live _ _ _ _ _ Hfin) as (h & st & -> & Hst).
    destruct (newInstanceWithImports_total h (io_imports io) w2 st Hst)
      as (i0 & r0 & evs & Hpost & Hevs & _).
    rewrite Hpost in Hfin. apply Ret_inj in Hfin as [_ <-].
    destruct (log_all_frame evs w2) as (-> & -> & _).
    split; [exact Hh|]. split; [exact Hf|].
    exists cWasmerOk, evs. split; [|exact Hevs].
    apply (events_between_trace (EvInstantiate cWasmerOk :: evs)).
    rewrite log_all_trace, Ht2. simpl. now rewrite <- app_assoc.
  - rewrite finish_failed in Hfin. apply Ret_inj in Hfin as [_ <-].
    split; [exact Hh|]. split; [exact Hf|].
    exists cWasmerError, []. split; [|reflexivity].
    now apply (events_between_trace [EvInstantiate cWasmerError]).
Qed.

Lemma NewMeteredInstanceWithImportObject_creates_no_import_handle_witness :
  exists r w',
    NewMeteredInstanceWithImportObject Demo.engine Demo.good (Some Demo.import_object)
      1000 None Demo.with_import_object = Ret r w' /\
    funcs w' = funcs Demo.with_import_object.
Proof.
  eexists _, _.
  assert (NewMeteredInstanceWithImportObject Demo.engine Demo.good (Some Demo.import_object)
            1000 None Demo.with_import_object = Ret _ _) as Hrun
    by (vm_compute; reflexivity).
  split; [exact Hrun|].
  exact (proj1 (proj2
    (NewMeteredInstanceWithImportObject_creates_no_import_handle _ _ _ _ _ _ _ _ Hrun))).
Defined.

(* ===================================================================== *)
(** ** Further properties: the callable map                              *)
(* ===================================================================== *)

Lemma functions_named_cons (name : string) (e : cWasmerExportT) (tbl : list cWasmerExportT) :
  last (functions_named name (e :: tbl)) =
    match last (functions_named name tbl) with
    | Some e' => Some e'
    | None => if is_function e && String.eqb (export_name e) name then Some e else None
    end.
Proof.
  unfold functions_named. simpl.
  destruct (is_function e && String.eqb (export_name e) name).
  - now rewrite last_cons.
  - now destruct (last (List.filter _ tbl)).
Qed.

Lemma callable_lookup (c : option handle) (tbl : list cWasmerExportT)
    (exports : gmap string ExportedFunction) (name : string) :
  forallb function_ok tbl = true ->
  foldl (add_export c) exports tbl !! name =
    match last (functions_named name tbl) with
    | Some e => wrapper_of c e
    | None => exports !! name
    end.
Proof.
  revert exports. induction tbl as [|e tbl IH]; intros exports Hok; [reflexivity|].
  simpl in Hok. apply andb_prop in Hok as [He Hok].
  cbn [foldl]. rewrite (IH _ Hok), functions_named_cons.
  destruct (last (functions_named name tbl)) as [e'|]; [reflexivity|].
  unfold add_export, wrapper_of.
  destruct (is_function e) eqn:Hf; simpl.
  - destruct (createExportedFunctionWrapper_ok c e Hf He) as [f Hwr].
    unfold is_function in Hf. destruct (export_kind e); try discriminate.
    destruct (String.eqb_spec (export_name e) name) as [Heq|Hne]; rewrite Hwr.
    + rewrite Heq. apply lookup_insert_eq.
    + now apply lookup_insert_ne.
  - unfold is_function in Hf. destruct (export_kind e); try discriminate; reflexivity.
Qed.

Lemma wrapper_of_fields (c : option handle) (e : cWasmerExportT) (f : ExportedFunction) :
  wrapper_of c e = Some f ->
  wrapper_instance f = c /\ wrapper_name f = export_name e /\
  func_params (export_func e) = Some (wrapper_input_signatures f) /\
  wrapper_inputs_arity f = length (wrapper_input_signatures f) /\
  func_returns_arity (export_func e) = Some (wrapper_outputs_arity f).
Proof.
  unfold wrapper_of, createExportedFunctionWrapper, getExportedFunctionSignature,
    getExportedFunctionOutputArity.
  destruct (func_params (export_func e)) as [params|]; [|discriminate].
  destruct (func_returns_arity (export_func e)) as [n|]; [|discriminate].
  intros Hf. injection Hf as <-. now repeat split.
Qed.

(** X14. In a successfully constructed [Instance], [Exports] has an entry
    for a name exactly when the module exports a function under that name;
    exports of other kinds never appear.  When several function exports
    share a name the last one in the engine's order is the one kept.  The
    entry is a closure over the instance's own handle, named after its
    key, whose input arity is the length of its input signature. *)
Theorem Exports_holds_last_function_per_name
    (E : Engine) (op : InstantiateOp) (w w' : World) (i : Instance) :
  run_op E op w = Ret (i, None) w' ->
  exists h st exports,
    instance i = Some h /\ instances w' !! h = Some st /\ Exports i = Some exports /\
    forall name,
      (is_Some (exports !! name) <->
       exists e, e ∈ inst_exports st /\ export_kind e = cWasmFunction /\ export_name e = name) /\
      (forall f, exports !! name = Some f ->
         exists e, last (functions_named name (inst_exports st)) = Some e /\
                   wrapper_of (Some h) e = Some f /\
                   wrapper_instance f = Some h /\ wrapper_name f = name /\
                   wrapper_inputs_arity f = length (wrapper_input_signatures f)).
Proof.
  intros Hrun.
  destruct (run_op_success E op w w' i Hrun) as (c & p & w1 & _ & Hpost).
  destruct (newInstanceWithImports_inv c p w1 w' i Hpost) as (h & st & -> & Hh & Hf & Hm).
  rewrite (newInstanceWithImports_ok h p w1 st Hh Hf Hm) in Hpost.
  apply Ret_inj in Hpost as [Hi <-]. injection Hi as <-.
  exists h, st, (callable_map (Some h) (inst_exports st)).
  split; [reflexivity|]. split.
  { destruct (log_all_frame
                (EvInstanceExports h :: walk (length (inst_exports st))
                 ++ walk (length (inst_exports st)) ++ [EvExportsDestroy])%list w1)
      as (_ & _ & -> & _). exact Hh. }
  split; [reflexivity|].
  intros name. unfold callable_map. rewrite (callable_lookup _ _ _ _ Hf), lookup_empty.
  assert (forall e, last (functions_named name (inst_exports st)) = Some e ->
            e ∈ inst_exports st /\ export_kind e = cWasmFunction /\ export_name e = name /\
            function_ok e = true) as Hlast.
  { intros e He. apply last_Some_elem_of in He.
    unfold functions_named in He. apply list_elem_of_In, List.filter_In in He as [Hin Hp].
    apply andb_prop in Hp as [Hk Hn]. apply String.eqb_eq in Hn.
    unfold is_function in Hk.
    split; [now apply list_elem_of_In|]. split; [destruct (export_kind e); congruence|].
    split; [exact Hn|]. rewrite forallb_forall in Hf. now apply Hf. }
  split; [split|].
  - intros [f Hsome].
    destruct (last (functions_named name (inst_exports st))) as [e|] eqn:He; [|discriminate].
    destruct (Hlast e eq_refl) as (Hin & Hk & Hn & _). eauto.
  - intros (e & Hin & Hk & Hn).
    destruct (last (functions_named name (inst_exports st))) as [e'|] eqn:He.
    + destruct (Hlast e' eq_refl) as (_ & Hk' & _ & Hok').
      assert (is_function e' = true) as Hf' by (unfold is_function; now rewrite Hk').
      destruct (createExportedFunctionWrapper_ok (Some h) e' Hf' Hok') as [f Hwr].
      unfold wrapper_of. rewrite Hwr. eauto.
    + exfalso. apply last_None in He.
      assert (e ∈ functions_named name (inst_exports st)) as Hmem.
      { unfold functions_named. apply list_elem_of_In, List.filter_In.
        split; [now apply list_elem_of_In|].
        unfold is_function. rewrite Hk, Hn. simpl. apply String.eqb_refl. }
      rewrite He in Hmem. now apply elem_of_nil in Hmem.
  - intros f Hlook.
    destruct (last (functions_named name (inst_exports st))) as [e|] eqn:He; [|discriminate].
    destruct (Hlast e eq_refl) as (_ & _ & Hn & _).
    destruct (wrapper_of_fields _ _ _ Hlook) as (Hc & Hname & _ & Har & _).
    exists e. split; [reflexivity|]. split; [exact Hlook|].
    split; [exact Hc|]. split; [congruence | exact Har].
Qed.

Lemma Exports_holds_last_function_per_name_witness :
  exists i w' exports,
    run_op Demo.engine (OpWithImports Demo.good (Some 0)) Demo.world = Ret (i, None) w' /\
    Exports i = Some exports /\
    is_Some (exports !! "sum") /\ exports !! "memory" = None.
Proof.
  assert (exists i w',
            run_op Demo.engine (OpWithImports Demo.good (Some 0)) Demo.world = Ret (i, None) w')
    as (i & w' & Hrun) by (eexists _, _; vm_compute; reflexivity).
  destruct (Exports_holds_last_function_per_name _ _ _ _ _ Hrun)
    as (h & st & exports & Hi & Hst & Hexp & Hall).
  exists i, w', exports. split; [exact Hrun|]. split; [exact Hexp|].
  pose proof Hrun as Hrun'. vm_compute in Hrun'.
  apply Ret_inj in Hrun' as [Hi' Hw']. injection Hi' as Hi'.
  subst i. simpl in Hexp. injection Hexp as <-.
  split; vm_compute; [eexists|]; reflexivity.
Defined.

(* ===================================================================== *)
(** ** Further properties: constructing, then closing                    *)
(* ===================================================================== *)

Lemma index0_inv (bytes : list Byte.byte) (w w' : World) (u : unit) :
  index0 bytes w = Ret u w' -> w' = w.
Proof. destruct bytes; [discriminate|]. intros H. now apply Ret_inj in H. Qed.

Lemma destroyed_funcs_notin (hs : list handle) (w : World) (h : handle) :
  h ∉ hs -> funcs (destroyed hs w) !! h = funcs w !! h.
Proof.
  revert w. induction hs as [|h0 hs IH]; intros w Hnot; [reflexivity|].
  apply not_elem_of_cons in Hnot as [Hne Hnot].
  unfold destroyed in *. cbn [foldl]. rewrite IH by exact Hnot. simpl.
  now apply lookup_delete_ne.
Qed.

Lemma engine_instantiate_kind (E : Engine) (bytes : list Byte.byte)
    (resolved : list ResolvedImport) (metering : option (Z * OpcodeCosts))
    (w w' : World) (r : cWasmerResultT * option handle) :
  engine_instantiate E bytes resolved metering w = Ret r w' ->
  elements_are_pointers w' = elements_are_pointers w /\
  next_handle w <= next_handle w'.
Proof.
  unfold engine_instantiate.
  destruct (instantiate E bytes resolved metering); intros Hrun;
    apply Ret_inj in Hrun as [_ <-]; simpl; split; [reflexivity | lia | reflexivity | lia].
Qed.

Lemma log_all_kind (evs : list Event) (w : World) :
  elements_are_pointers (log_all evs w) = elements_are_pointers w.
Proof.
  revert w. induction evs as [|ev evs IH]; intros w; [reflexivity|].
  rewrite log_all_cons. now rewrite IH.
Qed.

(** The primitive of an operation that materialises the registry at [a]
    runs in the world materialising left, and changes neither heap nor
    import function handles. *)
Lemma primitive_materialises (E : Engine) (op : InstantiateOp) (a : addr) (reg : Imports)
    (w w1 : World) (status : cWasmerResultT) (c : option handle) (p : option addr) :
  op_imports op = Some a -> heap w !! a = Some reg ->
  primitive E op w = Ret (status, c, p) w1 ->
  p = Some a /\
  heap w1 = heap (foldl (created a) w (entries reg)) /\
  funcs w1 = funcs (foldl (created a) w (entries reg)) /\
  elements_are_pointers w1 = elements_are_pointers w /\
  next_handle w + Count reg <= next_handle w1.
Proof.
  intros Hop Hreg Hprim.
  destruct (generateWasmerImports_eq a reg w Hreg) as (wi & Hgen & _).
  destruct (created_all a (entries reg) w reg Hreg) as (Hn & _).
  destruct (created_all_structs a (entries reg) w) as (Hk & _).
  rewrite Count_entries in Hn.
  destruct op as [bytes|bytes p0|bytes p0 g costs|bytes io g costs];
    simpl in Hop; try discriminate; subst p0; simpl in Hprim;
    erewrite bind_Ret in Hprim by exact Hgen; cbv beta iota in Hprim;
    apply bind_inv in Hprim as ([] & w0 & Hidx & Hprim);
    apply index0_inv in Hidx as ->;
    apply bind_inv in Hprim as (r & w2 & Hinst & Hret);
    apply Ret_inj in Hret as [Hret <-]; injection Hret as _ <-;
    destruct (engine_instantiate_frame _ _ _ _ _ _ _ Hinst) as (Hh & Hf & _);
    destruct (engine_instantiate_kind _ _ _ _ _ _ _ Hinst) as (Hk' & Hn');
    repeat split; first [reflexivity | assumption | congruence | lia].
Qed.

(** What a successful constructor leaves for the registry at [a] it
    materialised. *)
Lemma constructed_facts (E : Engine) (op : InstantiateOp) (a : addr) (reg : Imports)
    (w w1 : World) (i : Instance) :
  op_imports op = Some a -> heap w !! a = Some reg ->
  run_op E op w = Ret (i, None) w1 ->
  exists h,
    instance i = Some h /\ instance_imports i = Some a /\
    heap w1 !! a = Some (materialised (elements_are_pointers w) (next_handle w) reg) /\
    elements_are_pointers w1 = elements_are_pointers w /\
    next_handle w + Count reg <= next_handle w1 /\
    funcs w1 = funcs (foldl (created a) w (entries reg)) /\
    (forall x, x < next_handle w -> funcs w1 !! x = funcs w !! x) /\
    (forall x, next_handle w <= x < next_handle w + Count reg -> is_Some (funcs w1 !! x)).
Proof.
  intros Hop Hreg Hrun.
  destruct (run_op_success E op w w1 i Hrun) as (c & p & w0 & Hprim & Hpost).
  destruct (primitive_materialises E op a reg w w0 _ _ _ Hop Hreg Hprim)
    as (-> & Hh & Hf & Hk & Hnext).
  destruct (newInstanceWithImports_inv _ _ _ _ _ Hpost) as (h & st & -> & Hst & Hfo & Hmo).
  rewrite (newInstanceWithImports_ok h _ w0 st Hst Hfo Hmo) in Hpost.
  apply Ret_inj in Hpost as [Hi <-]. injection Hi as <-.
  match goal with
  | |- context [log_all ?evs w0] =>
      destruct (log_all_frame evs w0) as (Hh' & Hf' & _ & Hn' & _);
      pose proof (log_all_kind evs w0) as Hk'
  end.
  destruct (created_all a (entries reg) w reg Hreg) as (_ & _ & Hheap & Hold).
  exists h. split; [reflexivity|]. split; [reflexivity|].
  split; [rewrite Hh', Hh; exact Hheap|].
  split; [now rewrite Hk'|].
  split; [rewrite Hn'; lia|].
  split; [now rewrite Hf'|]. split.
  - intros x Hx. rewrite Hf', Hf. now apply Hold.
  - intros x Hx. rewrite Hf', Hf. apply created_live. right. rewrite Count_entries. lia.
Qed.

Lemma Close_eq (i : Instance) (a : addr) (h : handle) (reg : Imports) (w : World) :
  instance i = Some h -> instance_imports i = Some a -> heap w !! a = Some reg ->
  Close i w =
    Ret tt (log (EvInstanceDestroy h)
              (set_instances (delete h)
                 (set_heap (insert a (clear_pointers reg))
                    (destroyed (held_handles reg) w)))).
Proof.
  intros Hi Hp Hreg. unfold Close. rewrite Hp, Hi.
  erewrite bind_Ret by (apply Imports_Close_eq; exact Hreg). reflexivity.
Qed.

(** What [Close] does, given the registry the [Instance] refers to: it
    releases the handles that registry holds, and no other, then destroys
    the engine instance. *)
Lemma Close_facts (i : Instance) (a : addr) (h : handle) (reg : Imports) (w : World) :
  instance i = Some h -> instance_imports i = Some a -> heap w !! a = Some reg ->
  exists w',
    Close i w = Ret tt w' /\
    events_between w w' =
      ((EvImportFuncDestroy <$> held_handles reg) ++ [EvInstanceDestroy h])%list /\
    (forall x, x ∈ held_handles reg -> funcs w' !! x = None) /\
    (forall x, x ∉ held_handles reg -> funcs w' !! x = funcs w !! x) /\
    instances w' !! h = None.
Proof.
  intros Hi Hp Hreg. eexists. split; [exact (Close_eq i a h reg w Hi Hp Hreg)|].
  destruct (destroyed_frame (held_handles reg) w) as (_ & _ & Ht).
  split; [|split; [|split]].
  - apply events_between_trace. simpl. rewrite Ht, rev_app_distr. reflexivity.
  - intros x Hx. simpl. now apply destroyed_funcs_in.
  - intros x Hx. simpl. now apply destroyed_funcs_notin.
  - simpl. apply lookup_delete_eq.
Qed.

(** X15. Closing an [Instance] built by [NewInstanceWithImports] or
    [NewMeteredInstanceWithImports] releases the import function handles
    its registry holds at that time, and then destroys the engine instance.
    Which handles these are depends on what the registry's map holds.  With
    pointers they are the handles the constructor created, all of them and
    only them.  With structs the registry is as it was before the
    constructor ran: they are the handles it held then, and a handle the
    constructor created that is not among them stays live. *)
Theorem Close_after_construction
    (E : Engine) (op : InstantiateOp) (a : addr) (reg : Imports)
    (w w1 : World) (i : Instance) :
  op_imports op = Some a -> heap w !! a = Some reg ->
  run_op E op w = Ret (i, None) w1 ->
  exists h hs w2,
    instance i = Some h /\
    Close i w1 = Ret tt w2 /\
    events_between w1 w2 = ((EvImportFuncDestroy <$> hs) ++ [EvInstanceDestroy h])%list /\
    (forall x, x ∈ hs -> funcs w2 !! x = None) /\
    instances w2 !! h = None /\
    (elements_are_pointers w = true ->
       forall x, x ∈ hs <-> next_handle w <= x < next_handle w + Count reg) /\
    (elements_are_pointers w = false ->
       hs = held_handles reg /\
       forall x, next_handle w <= x < next_handle w + Count reg -> x ∉ hs ->
         is_Some (funcs w2 !! x)).
Proof.
  intros Hop Hreg Hrun.
  destruct (constructed_facts E op a reg w w1 i Hop Hreg Hrun)
    as (h & Hi & Hp & Hheap & _ & _ & _ & _ & Hlive).
  destruct (Close_facts i a h _ w1 Hi Hp Hheap) as (w2 & Hclose & Hev & Hgone & Hkept & Hinst).
  exists h, (held_handles (materialised (elements_are_pointers w) (next_handle w) reg)), w2.
  split; [exact Hi|]. split; [exact Hclose|]. split; [exact Hev|].
  split; [exact Hgone|]. split; [exact Hinst|]. split.
  - intros Hk x. rewrite Hk. apply (held_handles_materialised true).
  - intros Hk. rewrite Hk in *. split; [reflexivity|].
    intros x Hx Hnot. rewrite Hkept by exact Hnot. now apply Hlive.
Qed.

Lemma Close_after_construction_witness :
  (exists i w1 w2,
     run_op Demo.engine (OpWithImports Demo.good (Some 0)) Demo.world = Ret (i, None) w1 /\
     Close i w1 = Ret tt w2 /\
     funcs w2 !! 0 = None) /\
  (exists i w1 w2,
     run_op Demo.engine (OpWithImports Demo.good (Some 0)) Demo.world_of_structs
       = Ret (i, None) w1 /\
     Close i w1 = Ret tt w2 /\
     is_Some (funcs w2 !! 0)).
Proof.
  split.
  - assert (exists i w1,
              run_op Demo.engine (OpWithImports Demo.good (Some 0)) Demo.world
                = Ret (i, None) w1)
      as (i & w1 & Hrun) by (eexists _, _; vm_compute; reflexivity).
    assert (heap Demo.world !! 0 = Some {| imports := {[ "env" := {[ "sum" := Demo.sum ]} ]} |})
      as Hheap by (vm_compute; reflexivity).
    destruct (Close_after_construction Demo.engine
                (OpWithImports Demo.good (Some 0)) 0 _ _ _ _ eq_refl Hheap Hrun)
      as (h & hs & w2 & _ & Hclose & _ & Hgone & _ & Hpointers & _).
    exists i, w1, w2. split; [exact Hrun|]. split; [exact Hclose|].
    apply Hgone, Hpointers; [reflexivity|]. vm_compute. lia.
  - assert (exists i w1,
              run_op Demo.engine (OpWithImports Demo.good (Some 0)) Demo.world_of_structs
                = Ret (i, None) w1)
      as (i & w1 & Hrun) by (eexists _, _; vm_compute; reflexivity).
    assert (heap Demo.world_of_structs !! 0 =
              Some {| imports := {[ "env" := {[ "sum" := Demo.sum ]} ]} |})
      as Hheap by (vm_compute; reflexivity).
    destruct (Close_after_construction Demo.engine
                (OpWithImports Demo.good (Some 0)) 0 _ _ _ _ eq_refl Hheap Hrun)
      as (h & hs & w2 & _ & Hclose & _ & _ & _ & _ & Hstructs).
    destruct (Hstructs eq_refl) as [Hhs Hlive].
    exists i, w1, w2. split; [exact Hrun|]. split; [exact Hclose|].
    apply Hlive; [vm_compute; lia|].
    rewrite Hhs.
    assert (held_handles {| imports := {[ "env" := {[ "sum" := Demo.sum ]} ]} |} = []) as ->
      by (vm_compute; reflexivity).
    apply not_elem_of_nil.
Defined.

(** X16. Closing an [Instance] built by [NewInstance] destroys the engine
    instance and nothing else: the registry [NewInstance] made for it is
    empty, so no import function handle is touched. *)
Theorem NewInstance_then_Close
    (E : Engine) (bytes : list Byte.byte) (w w1 : World) (i : Instance) :
  NewInstance E bytes w = Ret (i, None) w1 ->
  exists h w2,
    instance i = Some h /\
    Close i w1 = Ret tt w2 /\
    events_between w1 w2 = [EvInstanceDestroy h] /\
    funcs w2 = funcs w1 /\ funcs w1 = funcs w /\
    instances w2 !! h = None.
Proof.
  intros Hrun.
  destruct (NewImports_generate w) as (a & Hnew & _).
  unfold NewInstance in Hrun. erewrite bind_Ret in Hrun by exact Hnew.
  set (w0 := set_heap (insert a {| imports := ∅ |}) w) in *.
  assert (heap w0 !! a = Some {| imports := ∅ |}) as Hreg by (simpl; apply lookup_insert_eq).
  destruct (constructed_facts E (OpWithImports bytes (Some a)) a _ w0 w1 i eq_refl Hreg Hrun)
    as (h & Hi & Hp & Hheap & _ & _ & Hf & _).
  assert (entries {| imports := ∅ |} = []) as Hent
    by (unfold entries; simpl; now rewrite map_to_list_empty).
  assert (materialised (elements_are_pointers w0) (next_handle w0) {| imports := ∅ |}
            = {| imports := ∅ |}) as Hmat
    by (unfold materialised; rewrite Hent; now destruct (elements_are_pointers w0)).
  rewrite Hmat in Hheap. rewrite Hent in Hf.
  assert (held_handles {| imports := ∅ |} = []) as Hheld
    by (unfold held_handles; now rewrite Hent).
  destruct (Close_facts i a h _ w1 Hi Hp Hheap) as (w2 & Hclose & Hev & _ & Hkept & Hinst).
  rewrite Hheld in Hev, Hkept.
  exists h, w2. split; [exact Hi|]. split; [exact Hclose|]. split; [exact Hev|].
  split; [|split; [exact Hf | exact Hinst]].
  apply map_eq. intros x. apply Hkept, not_elem_of_nil.
Qed.

Lemma NewInstance_then_Close_witness :
  exists i w1 w2,
    NewInstance Demo.engine Demo.good emptyWorld = Ret (i, None) w1 /\
    Close i w1 = Ret tt w2 /\
    events_between w1 w2 = [EvInstanceDestroy 0].
Proof.
  assert (exists i w1, NewInstance Demo.engine Demo.good emptyWorld = Ret (i, None) w1)
    as (i & w1 & Hrun) by (eexists _, _; vm_compute; reflexivity).
  destruct (NewInstance_then_Close _ _ _ _ _ Hrun) as (h & w2 & Hi & Hclose & Hev & _).
  assert (h = 0) as ->.
  { pose proof Hrun as Hrun'. vm_compute in Hrun'.
    apply Ret_inj in Hrun' as [Hi' _]. injection Hi' as Hi'. subst i.
    simpl in Hi. congruence. }
  exists i, w1, w2. split; [exact Hrun|]. split; [exact Hclose | exact Hev].
Defined.

(* ===================================================================== *)
(** ** Further properties: one registry, two instances                   *)
(* ===================================================================== *)

(** X17. When two instances are built, one after the other, on the same
    registry, each construction creates handles of its own, and both
    instances refer to that one registry.  With pointers in the registry's
    map, the registry ends up holding the handles of the second
    construction only: closing the first instance releases those, while the
    handles created for the first stay live for good.  With structs the
    registry is never written: closing the first instance releases only
    what the registry held from the start, and the handles of both
    constructions stay live. *)
Theorem two_instances_on_one_registry
    (E : Engine) (op1 op2 : InstantiateOp) (a : addr) (reg reg1 : Imports)
    (w w1 w2 : World) (i1 i2 : Instance) :
  op_imports op1 = Some a -> op_imports op2 = Some a ->
  heap w !! a = Some reg ->
  run_op E op1 w = Ret (i1, None) w1 ->
  heap w1 !! a = Some reg1 ->
  run_op E op2 w1 = Ret (i2, None) w2 ->
  exists w3,
    Close i1 w2 = Ret tt w3 /\
    instance_imports i2 = instance_imports i1 /\
    next_handle w + Count reg <= next_handle w1 /\
    (forall x, next_handle w <= x < next_handle w + Count reg -> is_Some (funcs w2 !! x)) /\
    (forall x, next_handle w1 <= x < next_handle w1 + Count reg1 -> is_Some (funcs w2 !! x)) /\
    (elements_are_pointers w = true ->
       (forall x, next_handle w1 <= x < next_handle w1 + Count reg1 -> funcs w3 !! x = None) /\
       (forall x, next_handle w <= x < next_handle w + Count reg -> is_Some (funcs w3 !! x))) /\
    (elements_are_pointers w = false ->
       reg1 = reg /\
       forall x, next_handle w <= x < next_handle w + Count reg \/
                 next_handle w1 <= x < next_handle w1 + Count reg1 ->
         x ∉ held_handles reg -> is_Some (funcs w3 !! x)).
Proof.
  intros Hop1 Hop2 Hreg Hrun1 Hreg1 Hrun2.
  destruct (constructed_facts E op1 a reg w w1 i1 Hop1 Hreg Hrun1)
    as (h1 & Hi1 & Hp1 & Hheap1 & Hk1 & Hnext1 & _ & _ & Hlive1).
  destruct (constructed_facts E op2 a reg1 w1 w2 i2 Hop2 Hreg1 Hrun2)
    as (h2 & Hi2 & Hp2 & Hheap2 & _ & _ & _ & Hold2 & Hlive2).
  rewrite Hk1 in Hheap2.
  destruct (Close_facts i1 a h1 _ w2 Hi1 Hp1 Hheap2) as (w3 & Hclose & _ & Hgone & Hkept & _).
  assert (forall x, next_handle w <= x < next_handle w + Count reg -> is_Some (funcs w2 !! x))
    as Hlive12 by (intros x Hx; rewrite Hold2 by lia; now apply Hlive1).
  exists w3. split; [exact Hclose|]. split; [now rewrite Hp1, Hp2|].
  split; [exact Hnext1|]. split; [exact Hlive12|]. split; [exact Hlive2|]. split.
  - intros Hk. rewrite Hk in Hgone, Hkept. split.
    + intros x Hx. apply Hgone. now apply (held_handles_materialised true).
    + intros x Hx. rewrite Hkept; [now apply Hlive12|].
      intros Hin. apply (held_handles_materialised true) in Hin. lia.
  - intros Hk. rewrite Hk in Hheap1, Hgone, Hkept.
    assert (reg1 = reg) as Heq
      by (unfold materialised in Hheap1; rewrite Hreg1 in Hheap1; now injection Hheap1).
    split; [exact Heq|]. intros x Hx Hnot.
    rewrite Hkept by (unfold materialised; now rewrite Heq).
    destruct Hx as [Hx|Hx]; [now apply Hlive12 | now apply Hlive2].
Qed.

Lemma two_instances_on_one_registry_witness :
  (exists i1 w1 i2 w2 w3,
     run_op Demo.engine (OpWithImports Demo.good (Some 0)) Demo.world = Ret (i1, None) w1 /\
     run_op Demo.engine (OpMetered Demo.good (Some 0) 1000 None) w1 = Ret (i2, None) w2 /\
     Close i1 w2 = Ret tt w3 /\
     funcs w3 !! 2 = None /\ is_Some (funcs w3 !! 0)) /\
  (exists i1 w1 i2 w2 w3,
     run_op Demo.engine (OpWithImports Demo.good (Some 0)) Demo.world_of_structs
       = Ret (i1, None) w1 /\
     run_op Demo.engine (OpMetered Demo.good (Some 0) 1000 None) w1 = Ret (i2, None) w2 /\
     Close i1 w2 = Ret tt w3 /\
     is_Some (funcs w3 !! 2) /\ is_Some (funcs w3 !! 0)).
Proof.
  split.
  - assert (heap Demo.world !! 0 = Some {| imports := {[ "env" := {[ "sum" := Demo.sum ]} ]} |})
      as Hheap by (vm_compute; reflexivity).
    assert (run_op Demo.engine (OpWithImports Demo.good (Some 0)) Demo.world = Ret (_, None) _)
      as Hrun1 by (vm_compute; reflexivity).
    match type of Hrun1 with
    | _ = Ret (?i1, _) ?w1 =>
        assert (heap w1 !! 0 = Some _) as Hreg1 by (vm_compute; reflexivity);
        assert (run_op Demo.engine (OpMetered Demo.good (Some 0) 1000 None) w1 = Ret (_, None) _)
          as Hrun2 by (vm_compute; reflexivity)
    end.
    destruct (two_instances_on_one_registry Demo.engine
                (OpWithImports Demo.good (Some 0)) (OpMetered Demo.good (Some 0) 1000 None)
                0 _ _ _ _ _ _ _ eq_refl eq_refl Hheap Hrun1 Hreg1 Hrun2)
      as (w3 & Hclose & _ & _ & _ & _ & Hpointers & _).
    destruct (Hpointers eq_refl) as [Hnone Hlive].
    eexists _, _, _, _, w3. split; [exact Hrun1|]. split; [exact Hrun2|].
    split; [exact Hclose|]. split.
    + apply Hnone. vm_compute. lia.
    + apply Hlive. vm_compute. lia.
  - assert (heap Demo.world_of_structs !! 0 =
              Some {| imports := {[ "env" := {[ "sum" := Demo.sum ]} ]} |})
      as Hheap by (vm_compute; reflexivity).
    assert (run_op Demo.engine (OpWithImports Demo.good (Some 0)) Demo.world_of_structs
              = Ret (_, None) _)
      as Hrun1 by (vm_compute; reflexivity).
    match type of Hrun1 with
    | _ = Ret (?i1, _) ?w1 =>
        assert (heap w1 !! 0 = Some _) as Hreg1 by (vm_compute; reflexivity);
        assert (run_op Demo.engine (OpMetered Demo.good (Some 0) 1000 None) w1 = Ret (_, None) _)
          as Hrun2 by (vm_compute; reflexivity)
    end.
    destruct (two_instances_on_one_registry Demo.engine
                (OpWithImports Demo.good (Some 0)) (OpMetered Demo.good (Some 0) 1000 None)
                0 _ _ _ _ _ _ _ eq_refl eq_refl Hheap Hrun1 Hreg1 Hrun2)
      as (w3 & Hclose & _ & _ & _ & _ & _ & Hstructs).
    destruct (Hstructs eq_refl) as [_ Hlive].
    assert (held_handles {| imports := {[ "env" := {[ "sum" := Demo.sum ]} ]} |} = []) as Hheld
      by (vm_compute; reflexivity).
    eexists _, _, _, _, w3. split; [exact Hrun1|]. split; [exact Hrun2|].
    split; [exact Hclose|]. split.
    + apply Hlive; [right; vm_compute; lia|]. rewrite Hheld. apply not_elem_of_nil.
    + apply Hlive; [left; vm_compute; lia|]. rewrite Hheld. apply not_elem_of_nil.
Defined.

(* ===================================================================== *)
(** ** Further properties: closing an instance built from an import object *)
(* ===================================================================== *)

Lemma NewImportObject_world (E : Engine) (a : addr) (i : Imports) (w w' : World)
    (io : ImportObject) :
  heap w !! a = Some i ->
  NewImportObject E (Some a) w = Ret (io, None) w' ->
  io_imports io = Some a /\
  heap w' = heap (foldl (created a) w (entries i)) /\
  funcs w' = funcs (foldl (created a) w (entries i)).
Proof.
  intros Hi Hrun.
  destruct (generateWasmerImports_eq a i w Hi) as (wi & Hgen & _).
  unfold NewImportObject in Hrun.
  erewrite bind_Ret in Hrun by exact Hgen. cbv beta iota in Hrun.
  unfold cWasmerNewImportObjectFromImports, bind at 1 in Hrun.
  destruct (new_import_object E _) as [detail|] eqn:Hnew.
  { erewrite bind_Ret in Hrun by apply failure_message_cached. discriminate Hrun. }
  apply Ret_inj in Hrun as [Hr <-]. injection Hr as <-.
  now repeat split.
Qed.

Lemma import_object_instance_frame (E : Engine) (bytes : list Byte.byte) (io : ImportObject)
    (g : Z) (costs : OpcodeCosts) (w w' : World) (i : Instance) :
  NewMeteredInstanceWithImportObject E bytes (Some io) g costs w = Ret (i, None) w' ->
  exists h,
    instance i = Some h /\ instance_imports i = io_imports io /\
    heap w' = heap w /\ funcs w' = funcs w.
Proof.
  intros Hrun.
  destruct (run_op_success E (OpImportObject bytes (Some io) g costs) w w' i Hrun)
    as (c & p & w0 & Hprim & Hpost).
  pose proof (primitive_import_object _ _ _ _ _ _ _ _ _ _ Hprim) as ->.
  assert (heap w0 = heap w /\ funcs w0 = funcs w) as [Hh Hf].
  { simpl in Hprim.
    apply bind_inv in Hprim as ([] & w1 & Hidx & Hprim).
    apply index0_inv in Hidx as ->.
    apply bind_inv in Hprim as ([status' c'] & w2 & Hinst & Hret).
    apply Ret_inj in Hret as [_ <-].
    unfold cWasmerInstantiateWithMeteringAndImportObject in Hinst.
    destruct (c_import_object io ≫= _) as [resolved|]; [|discriminate].
    destruct (engine_instantiate_frame _ _ _ _ _ _ _ Hinst) as (? & ? & _). now split. }
  destruct (newInstanceWithImports_inv _ _ _ _ _ Hpost) as (h & st & -> & Hst & Hfo & Hmo).
  rewrite (newInstanceWithImports_ok h _ w0 st Hst Hfo Hmo) in Hpost.
  apply Ret_inj in Hpost as [Hi <-]. injection Hi as <-.
  match goal with
  | |- context [log_all ?evs w0] => destruct (log_all_frame evs w0) as (Hh' & Hf' & _)
  end.
  exists h. repeat split; congruence.
Qed.

(** X19. What [Close] of an [Instance] built from a shared [ImportObject]
    does to the import function handles [NewImportObject] created depends
    on what the registry's map holds.  [Close] releases the handles the
    shared registry holds at that time, and then destroys the engine
    instance.  With pointers these are the handles [NewImportObject]
    created, all live until then.  With structs the registry is as it was
    before [NewImportObject]: [Close] releases the handles it held then, and
    a handle [NewImportObject] created that is not among them stays
    live. *)
Theorem Close_after_shared_import_object
    (E : Engine) (a : addr) (reg : Imports) (bytes : list Byte.byte) (g : Z)
    (costs : OpcodeCosts) (io : ImportObject) (i : Instance) (w w1 w2 : World) :
  heap w !! a = Some reg ->
  NewImportObject E (Some a) w = Ret (io, None) w1 ->
  NewMeteredInstanceWithImportObject E bytes (Some io) g costs w1 = Ret (i, None) w2 ->
  exists h hs w3,
    instance i = Some h /\
    Close i w2 = Ret tt w3 /\
    events_between w2 w3 = ((EvImportFuncDestroy <$> hs) ++ [EvInstanceDestroy h])%list /\
    (forall x, x ∈ hs -> funcs w3 !! x = None) /\
    (forall x, next_handle w <= x < next_handle w + Count reg -> is_Some (funcs w2 !! x)) /\
    (elements_are_pointers w = true ->
       forall x, x ∈ hs <-> next_handle w <= x < next_handle w + Count reg) /\
    (elements_are_pointers w = false ->
       hs = held_handles reg /\
       forall x, next_handle w <= x < next_handle w + Count reg -> x ∉ hs ->
         is_Some (funcs w3 !! x)).
Proof.
  intros Hreg Hio Hrun.
  destruct (NewImportObject_world E a reg w w1 io Hreg Hio) as (Ha & Hh1 & Hf1).
  destruct (import_object_instance_frame E bytes io g costs w1 w2 i Hrun)
    as (h & Hi & Hp & Hh2 & Hf2).
  rewrite Ha in Hp.
  destruct (created_all a (entries reg) w reg Hreg) as (_ & _ & Hheap & _).
  assert (heap w2 !! a = Some (materialised (elements_are_pointers w) (next_handle w) reg))
    as Hheap2 by (rewrite Hh2, Hh1; exact Hheap).
  assert (forall x, next_handle w <= x < next_handle w + Count reg -> is_Some (funcs w2 !! x))
    as Hlive.
  { intros x Hx. rewrite Hf2, Hf1. apply created_live. right. rewrite Count_entries. lia. }
  destruct (Close_facts i a h _ w2 Hi Hp Hheap2) as (w3 & Hclose & Hev & Hgone & Hkept & _).
  exists h, (held_handles (materialised (elements_are_pointers w) (next_handle w) reg)), w3.
  split; [exact Hi|]. split; [exact Hclose|]. split; [exact Hev|].
  split; [exact Hgone|]. split; [exact Hlive|]. split.
  - intros Hk x. rewrite Hk. apply (held_handles_materialised true).
  - intros Hk. rewrite Hk in *. split; [reflexivity|].
    intros x Hx Hnot. rewrite Hkept by exact Hnot. now apply Hlive.
Qed.

Lemma Close_after_shared_import_object_witness :
  (exists io w1 i w2 w3,
     NewImportObject Demo.engine (Some 0) Demo.world = Ret (io, None) w1 /\
     NewMeteredInstanceWithImportObject Demo.engine Demo.good (Some io) 1000 None w1
       = Ret (i, None) w2 /\
     Close i w2 = Ret tt w3 /\
     is_Some (funcs w2 !! 0) /\ funcs w3 !! 0 = None) /\
  (exists io w1 i w2 w3,
     NewImportObject Demo.engine (Some 0) Demo.world_of_structs = Ret (io, None) w1 /\
     NewMeteredInstanceWithImportObject Demo.engine Demo.good (Some io) 1000 None w1
       = Ret (i, None) w2 /\
     Close i w2 = Ret tt w3 /\
     is_Some (funcs w2 !! 0) /\ is_Some (funcs w3 !! 0) /\
     events_between w2 w3 = [EvInstanceDestroy 2]).
Proof.
  split.
  - assert (heap Demo.world !! 0 = Some {| imports := {[ "env" := {[ "sum" := Demo.sum ]} ]} |})
      as Hheap by (vm_compute; reflexivity).
    assert (NewImportObject Demo.engine (Some 0) Demo.world = Ret (_, None) _)
      as Hio by (vm_compute; reflexivity).
    match type of Hio with
    | _ = Ret (?io, _) ?w1 =>
        assert (NewMeteredInstanceWithImportObject Demo.engine Demo.good (Some io) 1000 None w1
                  = Ret (_, None) _) as Hrun by (vm_compute; reflexivity)
    end.
    destruct (Close_after_shared_import_object Demo.engine 0 _ _ _ _ _ _ _ _ _ Hheap Hio Hrun)
      as (h & hs & w3 & _ & Hclose & _ & Hgone & Hlive & Hpointers & _).
    eexists _, _, _, _, w3. split; [exact Hio|]. split; [exact Hrun|].
    split; [exact Hclose|]. split.
    + apply Hlive. vm_compute. lia.
    + apply Hgone, Hpointers; [reflexivity|]. vm_compute. lia.
  - assert (heap Demo.world_of_structs !! 0 =
              Some {| imports := {[ "env" := {[ "sum" := Demo.sum ]} ]} |})
      as Hheap by (vm_compute; reflexivity).
    assert (NewImportObject Demo.engine (Some 0) Demo.world_of_structs = Ret (_, None) _)
      as Hio by (vm_compute; reflexivity).
    match type of Hio with
    | _ = Ret (?io, _) ?w1 =>
        assert (NewMeteredInstanceWithImportObject Demo.engine Demo.good (Some io) 1000 None w1
                  = Ret (_, None) _) as Hrun by (vm_compute; reflexivity)
    end.
    destruct (Close_after_shared_import_object Demo.engine 0 _ _ _ _ _ _ _ _ _ Hheap Hio Hrun)
      as (h & hs & w3 & Hi & Hclose & Hev & _ & Hlive & _ & Hstructs).
    destruct (Hstructs eq_refl) as [Hhs Hkept].
    assert (held_handles {| imports := {[ "env" := {[ "sum" := Demo.sum ]} ]} |} = []) as Hheld
      by (vm_compute; reflexivity).
    rewrite Hheld in Hhs. subst hs. injection Hi as <-.
    eexists _, _, _, _, w3. split; [exact Hio|]. split; [exact Hrun|].
    split; [exact Hclose|]. split; [|split].
    + apply Hlive. vm_compute. lia.
    + apply Hkept; [vm_compute; lia | apply not_elem_of_nil].
    + exact Hev.
Defined.
